(** * PPSSPP RISC-V IR backend: integer lowering, and frame pacing

    A shallow embedding of [Core/MIPS/RiscV/RiscVCompALU.cpp] (the lowering
    of integer IR instructions to RV64 host code through the register
    cache) and of [Core/FrameTiming.cpp] (the choice of the present mode
    and the pacing of frames against the clock), with the properties the
    specification states about them and further properties of the code.

    Layout: fixed-width arithmetic, the IR, the host instructions and their
    meaning on a register file, the register cache, the lowering routines,
    the frame-pacing step, the present mode and the frame clock, and then
    the theorems. *)

From Stdlib Require Import ZArith Lia List String Bool Floats.
Import ListNotations.

Set Warnings "-inexact-float".
Set Implicit Arguments.

Open Scope Z_scope.

(* ================================================================== *)
(** ** Fixed-width integers *)

(** [(uint32_t) z]. *)
Definition u32 (z : Z) : Z := z mod 2 ^ 32.

(** [(int32_t) z]: the low 32 bits read as two's complement. *)
Definition s32 (z : Z) : Z := (z + 2 ^ 31) mod 2 ^ 32 - 2 ^ 31.

(** A value wrapped to the 64-bit host register width, two's complement. *)
Definition s64 (z : Z) : Z := (z + 2 ^ 63) mod 2 ^ 64 - 2 ^ 63.

Definition s16 (z : Z) : Z := (z + 2 ^ 15) mod 2 ^ 16 - 2 ^ 15.
Definition s8 (z : Z) : Z := (z + 2 ^ 7) mod 2 ^ 8 - 2 ^ 7.

(** A host register value is 32-bit normalized when it is the sign
    extension of its own low 32 bits. *)
Definition normalized_value (z : Z) : Prop := - 2 ^ 31 <= z < 2 ^ 31.

(* ================================================================== *)
(** ** The IR *)

Module IROp.
(** The opcodes this file names, as [IROp::...] in the source.  The
    enumeration is declared outside the file; [Other n] stands for any
    enumerator the file does not name. *)
Inductive t : Set :=
| Add | Sub | AddConst | SubConst | Neg
| And | Or | Xor | AndConst | OrConst | XorConst | Not
| Mov | Ext8to32 | Ext16to32
| ReverseBits | BSwap16 | BSwap32 | Clz
| Shl | Shr | Sar | Ror | ShlImm | ShrImm | SarImm | RorImm
| Slt | SltConst | SltU | SltUConst
| MovZ | MovNZ | Max | Min
| MtLo | MtHi | MfLo | MfHi
| Mult | MultU | Madd | MaddU | Msub | MsubU
| Div | DivU
| Other (n : nat).
End IROp.

(** A virtual (guest) register. *)
Definition IRRegIndex : Set := nat.

(** [struct IRInst]; [constant] is the [uint32_t] field. *)
Record IRInst : Set := mkIRInst {
  op : IROp.t;
  dest : IRRegIndex;
  src1 : IRRegIndex;
  src2 : IRRegIndex;
  constant : Z
}.

(* ================================================================== *)
(** ** Host registers and instructions *)

(** Host registers.  [R_ZERO] and [SCRATCH1] are the reserved registers
    the file names; [MEMBASEREG] holds the base of guest memory and
    [CTXREG] the base of the guest register file; [X n] are the registers
    the cache hands out.  [INVALID_REG] is what the cache answers for a
    guest register it holds nowhere. *)
Inductive RiscVReg : Set :=
| R_ZERO | SCRATCH1 | MEMBASEREG | CTXREG | X (n : nat) | INVALID_REG.

Definition RiscVReg_eqb (a b : RiscVReg) : bool :=
  match a, b with
  | R_ZERO, R_ZERO | SCRATCH1, SCRATCH1 | MEMBASEREG, MEMBASEREG
  | CTXREG, CTXREG | INVALID_REG, INVALID_REG => true
  | X n, X m => Nat.eqb n m
  | _, _ => false
  end.

(** The emitter calls the file makes, one constructor per mnemonic.  [LI]
    is the emitter's load-immediate sequence; [LW rd CTXREG v] reads guest
    register [v] from the context; [SUB] turns a pointer back into a
    guest value. *)
Inductive RiscVInst : Set :=
| ADDW (rd rs1 rs2 : RiscVReg)
| SUBW (rd rs1 rs2 : RiscVReg)
| SUB (rd rs1 rs2 : RiscVReg)
| ADDI (rd rs1 : RiscVReg) (simm12 : Z)
| ADDIW (rd rs1 : RiscVReg) (simm12 : Z)
| LI (rd : RiscVReg) (v : Z)
| AND (rd rs1 rs2 : RiscVReg)
| OR (rd rs1 rs2 : RiscVReg)
| XOR (rd rs1 rs2 : RiscVReg)
| ANDI (rd rs1 : RiscVReg) (simm12 : Z)
| ORI (rd rs1 : RiscVReg) (simm12 : Z)
| XORI (rd rs1 : RiscVReg) (simm12 : Z)
| NOT (rd rs : RiscVReg)
| MV (rd rs : RiscVReg)
| SEXT_B (rd rs : RiscVReg)
| SEXT_H (rd rs : RiscVReg)
| SLLI (rd rs1 : RiscVReg) (shamt : Z)
| SRAI (rd rs1 : RiscVReg) (shamt : Z)
| SRAIW (rd rs1 : RiscVReg) (shamt : Z)
| REV8 (rd rs : RiscVReg)
| LW (rd base : RiscVReg) (v : IRRegIndex).

(** The immediates a 12-bit signed field can hold. *)
Definition encodable_simm12 (imm : Z) : Prop := -2048 <= imm <= 2047.

(** *** Meaning of host code on a 64-bit machine *)

(** Host state: the register file (values as signed 64-bit integers) and
    the guest register file in memory (32-bit values). *)
Record Machine : Type := mkMachine {
  xreg : RiscVReg -> Z;
  ctx : IRRegIndex -> Z
}.

(** Reading [R_ZERO] gives zero; writing it is ignored. *)
Definition get (m : Machine) (r : RiscVReg) : Z :=
  match r with R_ZERO => 0 | _ => xreg m r end.

Definition set (m : Machine) (r : RiscVReg) (v : Z) : Machine :=
  match r with
  | R_ZERO => m
  | _ => {| xreg := fun r' => if RiscVReg_eqb r' r then v else xreg m r';
            ctx := ctx m |}
  end.

Arguments get : simpl never.
Arguments set : simpl never.

Definition byte_at (x : Z) (i : Z) : Z := Z.land (Z.shiftr x (8 * i)) 255.

Definition rev8_value (x : Z) : Z :=
  s64 (byte_at x 0 * 2 ^ 56 + byte_at x 1 * 2 ^ 48 + byte_at x 2 * 2 ^ 40
       + byte_at x 3 * 2 ^ 32 + byte_at x 4 * 2 ^ 24 + byte_at x 5 * 2 ^ 16
       + byte_at x 6 * 2 ^ 8 + byte_at x 7).

Definition exec_inst (i : RiscVInst) (m : Machine) : Machine :=
  match i with
  | ADDW rd a b => set m rd (s32 (get m a + get m b))
  | SUBW rd a b => set m rd (s32 (get m a - get m b))
  | SUB rd a b => set m rd (s64 (get m a - get m b))
  | ADDI rd a c => set m rd (s64 (get m a + c))
  | ADDIW rd a c => set m rd (s32 (get m a + c))
  | LI rd v => set m rd (s64 v)
  | AND rd a b => set m rd (Z.land (get m a) (get m b))
  | OR rd a b => set m rd (Z.lor (get m a) (get m b))
  | XOR rd a b => set m rd (Z.lxor (get m a) (get m b))
  | ANDI rd a c => set m rd (Z.land (get m a) c)
  | ORI rd a c => set m rd (Z.lor (get m a) c)
  | XORI rd a c => set m rd (Z.lxor (get m a) c)
  | NOT rd a => set m rd (Z.lnot (get m a))
  | MV rd a => set m rd (get m a)
  | SEXT_B rd a => set m rd (s8 (get m a))
  | SEXT_H rd a => set m rd (s16 (get m a))
  | SLLI rd a sh => set m rd (s64 (Z.shiftl (get m a) sh))
  | SRAI rd a sh => set m rd (Z.shiftr (get m a) sh)
  | SRAIW rd a sh => set m rd (Z.shiftr (s32 (get m a)) sh)
  | REV8 rd a => set m rd (rev8_value (get m a))
  | LW rd _ v => set m rd (s32 (ctx m v))
  end.

Fixpoint exec (c : list RiscVInst) (m : Machine) : Machine :=
  match c with
  | [] => m
  | i :: c' => exec c' (exec_inst i m)
  end.

(* ================================================================== *)
(** ** The register cache *)

Module MapType.
(** How a destination is mapped.  The file names only
    [AVOID_LOAD_MARK_NORM32]; a call without a mode uses [AVOID_LOAD]. *)
Inductive t : Set := ALWAYS_LOAD | AVOID_LOAD | AVOID_LOAD_MARK_NORM32.
End MapType.

(** Modelled from the spec: the register cache entry (the cache itself
    lives in [RiscVRegCache.h], outside the two files embedded here).  Per
    virtual register: the host
    register currently holding its value, or none; the dirty flag; the
    normalized-32 flag; the pointer-mode flag.  The host register is the
    index [n] of an allocatable register [X n], so a reserved register
    never holds live guest state. *)
Record RegEntry : Set := mkEntry {
  hostReg : option nat;
  isDirty : bool;
  normalized32 : bool;
  asPointer : bool
}.

Definition RiscVRegCache : Type := IRRegIndex -> RegEntry.

Definition unmapped : RegEntry :=
  {| hostReg := None; isDirty := false; normalized32 := false; asPointer := false |}.

Definition upd (g : RiscVRegCache) (v : IRRegIndex) (e : RegEntry) : RiscVRegCache :=
  fun w => if Nat.eqb w v then e else g w.

(** Modelled from the spec: [R], the host register holding a virtual
    register mapped as a value. *)
Definition R (g : RiscVRegCache) (v : IRRegIndex) : RiscVReg :=
  match hostReg (g v) with
  | Some n => if asPointer (g v) then INVALID_REG else X n
  | None => INVALID_REG
  end.

(** Modelled from the spec: [RPtr], the pointer-aliased host register of a
    virtual register mapped as a pointer. *)
Definition RPtr (g : RiscVRegCache) (v : IRRegIndex) : RiscVReg :=
  match hostReg (g v) with
  | Some n => if asPointer (g v) then X n else INVALID_REG
  | None => INVALID_REG
  end.

(** Modelled from the spec: [IsMappedAsPointer]. *)
Definition IsMappedAsPointer (g : RiscVRegCache) (v : IRRegIndex) : bool :=
  match hostReg (g v) with
  | Some _ => asPointer (g v)
  | None => false
  end.

(** Modelled from the spec: [IsNormalized32], the value is held in a host
    register and known to be canonically sign-extended. *)
Definition IsNormalized32 (g : RiscVRegCache) (v : IRRegIndex) : bool :=
  match hostReg (g v) with
  | Some _ => negb (asPointer (g v)) && normalized32 (g v)
  | None => false
  end.

Definition IsDirty (g : RiscVRegCache) (v : IRRegIndex) : bool :=
  match hostReg (g v) with
  | Some _ => isDirty (g v)
  | None => false
  end.

(** Modelled from the spec: [MarkDirty(hostReg, normalized)] records that
    a host register's value changed and whether it is normalized. *)
Definition MarkDirty (g : RiscVRegCache) (h : RiscVReg) (andNormalized32 : bool)
  : RiscVRegCache :=
  fun v =>
    if RiscVReg_eqb (R g v) h && negb (RiscVReg_eqb h INVALID_REG) then
      {| hostReg := hostReg (g v); isDirty := true;
         normalized32 := andNormalized32; asPointer := false |}
    else g v.

(** Modelled from the spec: [MarkPtrDirty] updates the dirty state of a
    pointer-aliased host register; the pointer mapping stays. *)
Definition MarkPtrDirty (g : RiscVRegCache) (h : RiscVReg) : RiscVRegCache :=
  fun v =>
    if RiscVReg_eqb (RPtr g v) h && negb (RiscVReg_eqb h INVALID_REG) then
      {| hostReg := hostReg (g v); isDirty := true;
         normalized32 := normalized32 (g v); asPointer := true |}
    else g v.

Section RegisterMapping.
(** The choice of a host register for a virtual register that has none
    (and the spilling it may need) is the allocator's policy, left open. *)
Variable AllocateReg : RiscVRegCache -> IRRegIndex -> nat.

(** Modelled from the spec: mapping a virtual register for writing.  It
    becomes dirty; its stale normalization and pointer flags are dropped
    unless the mode re-establishes normalization ([MARK_NORM32]); its
    current value is brought into the register only when [load] asks
    for it.  Returns the cache and the host code the mapping emits. *)
Definition MapRegDirty (g : RiscVRegCache) (v : IRRegIndex) (load markNorm32 : bool)
  : RiscVRegCache * list RiscVInst :=
  match hostReg (g v) with
  | Some n =>
      (upd g v {| hostReg := Some n; isDirty := true;
                  normalized32 := markNorm32; asPointer := false |},
       if asPointer (g v) && load then [SUB (X n) (X n) MEMBASEREG] else [])
  | None =>
      let n := AllocateReg g v in
      (upd g v {| hostReg := Some n; isDirty := true;
                  normalized32 := markNorm32; asPointer := false |},
       if load then [LW (X n) CTXREG v] else [])
  end.

(** Modelled from the spec: mapping a virtual register for reading
    materializes its current value in a host register without marking
    it dirty.  A pointer-aliased register is turned back into a value;
    a value read from the context by [LW] is sign-extended. *)
Definition MapRegIn (g : RiscVRegCache) (v : IRRegIndex)
  : RiscVRegCache * list RiscVInst :=
  match hostReg (g v) with
  | Some n =>
      if asPointer (g v) then
        (upd g v {| hostReg := Some n; isDirty := isDirty (g v);
                    normalized32 := false; asPointer := false |},
         [SUB (X n) (X n) MEMBASEREG])
      else (g, [])
  | None =>
      let n := AllocateReg g v in
      (upd g v {| hostReg := Some n; isDirty := false;
                  normalized32 := true; asPointer := false |},
       [LW (X n) CTXREG v])
  end.

Definition marks_norm32 (type : MapType.t) : bool :=
  match type with MapType.AVOID_LOAD_MARK_NORM32 => true | _ => false end.

Definition always_load (type : MapType.t) : bool :=
  match type with MapType.ALWAYS_LOAD => true | _ => false end.

(** Modelled from the spec: [MapDirtyIn(rd, rs, type)], the destination
    for writing and one source for reading.  The load of the destination
    is suppressed unless it is also the source. *)
Definition MapDirtyIn (g : RiscVRegCache) (rd rs : IRRegIndex) (type : MapType.t)
  : RiscVRegCache * list RiscVInst :=
  let load := always_load type || Nat.eqb rd rs in
  let '(g1, c1) := MapRegDirty g rd load (marks_norm32 type) in
  let '(g2, c2) := MapRegIn g1 rs in
  (g2, c1 ++ c2).

(** Modelled from the spec: [MapDirtyInIn(rd, rs, rt, type)], the
    destination for writing and two sources for reading. *)
Definition MapDirtyInIn (g : RiscVRegCache) (rd rs rt : IRRegIndex) (type : MapType.t)
  : RiscVRegCache * list RiscVInst :=
  let load := always_load type || Nat.eqb rd rs || Nat.eqb rd rt in
  let '(g1, c1) := MapRegDirty g rd load (marks_norm32 type) in
  let '(g2, c2) := MapRegIn g1 rs in
  let '(g3, c3) := MapRegIn g2 rt in
  (g3, c1 ++ c2 ++ c3).
End RegisterMapping.

(** The 32-bit guest value a virtual register stands for, given the cache
    and the host state: read from its host register (through the memory
    base when it is a pointer), else from the context. *)
Definition guestValue (g : RiscVRegCache) (m : Machine) (v : IRRegIndex) : Z :=
  match hostReg (g v) with
  | Some n =>
      if asPointer (g v) then u32 (get m (X n) - get m MEMBASEREG)
      else u32 (get m (X n))
  | None => u32 (ctx m v)
  end.

(** The normalization flags tell the truth about the host state. *)
Definition norm32_sound (g : RiscVRegCache) (m : Machine) : Prop :=
  forall v, IsNormalized32 g v = true -> normalized_value (get m (R g v)).

(* ================================================================== *)
(** ** The code generator state *)

(** What a lowering routine appends to the block: a host instruction, or
    the call into the generic fallback compiler for one IR instruction. *)
Inductive Emitted : Set :=
| Host (i : RiscVInst)
| CallGeneric (inst : IRInst).

(** The report of a failed assertion: its format string and argument.
    The [(int)] cast of the opcode is kept as the enumerator itself. *)
Record Diagnostic : Set := mkDiagnostic {
  fmt : string;
  arg : IROp.t
}.

(** [RiscVJit], as far as the routines touch it: the register cache
    [gpr], the emitted code, and the assertion reports. *)
Record RiscVJit : Type := mkJit {
  gpr : RiscVRegCache;
  code : list Emitted;
  reports : list Diagnostic
}.

(** What is fixed outside the file: whether [MASKED_PSP_MEMORY] is
    defined, [cpu_info.RiscV_Zbb], [XLEN], whether a failed assertion
    lets execution continue, and the allocation policy. *)
Record Config : Type := mkConfig {
  MASKED_PSP_MEMORY : bool;
  RiscV_Zbb : bool;
  XLEN : Z;
  HandleAssert : Diagnostic -> bool;
  AllocateReg : RiscVRegCache -> IRRegIndex -> nat
}.

(** A routine either returns, or the process is brought down by a failed
    assertion. *)
Inductive Outcome (A : Type) : Type :=
| Ret (a : A) (j : RiscVJit)
| Crash (j : RiscVJit).
Arguments Crash {A} j.

Definition Jit (A : Type) : Type := RiscVJit -> Outcome A.

Definition ret {A : Type} (a : A) : Jit A := fun j => Ret a j.

Definition bind {A B : Type} (m : Jit A) (k : A -> Jit B) : Jit B :=
  fun j => match m j with
           | Ret a j' => k a j'
           | Crash j' => Crash j'
           end.

Declare Scope jit_scope.
Delimit Scope jit_scope with jit.
Notation "x <- m ;; k" := (bind m (fun x => k))
  (at level 61, m at next level, right associativity) : jit_scope.
Notation "m ;; k" := (bind m (fun _ => k))
  (at level 61, right associativity) : jit_scope.

Definition final {A : Type} (o : Outcome A) : RiscVJit :=
  match o with Ret _ j => j | Crash j => j end.

Definition crashed {A : Type} (o : Outcome A) : bool :=
  match o with Ret _ _ => false | Crash _ => true end.

(** The current register cache. *)
Definition the_gpr : Jit RiscVRegCache := fun j => Ret (gpr j) j.

(** An emitter call appends one instruction. *)
Definition emit (i : RiscVInst) : Jit unit :=
  fun j => Ret tt {| gpr := gpr j; code := code j ++ [Host i]; reports := reports j |}.

(** A register cache call replaces the cache and appends the code the
    mapping needs. *)
Definition gpr_call (f : RiscVRegCache -> RiscVRegCache * list RiscVInst) : Jit unit :=
  fun j => let '(g, c) := f (gpr j) in
           Ret tt {| gpr := g; code := code j ++ map Host c; reports := reports j |}.

Definition gpr_mark (f : RiscVRegCache -> RiscVRegCache) : Jit unit :=
  gpr_call (fun g => (f g, [])).

Definition is_SubConst (o : IROp.t) : bool :=
  match o with IROp.SubConst => true | _ => false end.

(** The rewrite at the head of [CompIR_Arith]: a subtract of a small
    enough constant becomes an add of the negated constant. *)
Definition RewriteSubConst (inst : IRInst) : IRInst :=
  if is_SubConst (op inst) && (-2047 <=? s32 (constant inst))
     && (s32 (constant inst) <=? 2048)
  then {| op := IROp.AddConst; dest := dest inst; src1 := src1 inst;
          src2 := src2 inst; constant := u32 (- s32 (constant inst)) |}
  else inst.

(** [(inst.constant & 0x80000000) != 0]. *)
Definition sign_bit_set (c : Z) : bool := negb (Z.land c 0x80000000 =? 0).

Section Lowering.
Variable cfg : Config.
Open Scope jit_scope.

Definition gpr_MapDirtyIn (rd rs : IRRegIndex) (type : MapType.t) : Jit unit :=
  gpr_call (fun g => MapDirtyIn (AllocateReg cfg) g rd rs type).

Definition gpr_MapDirtyInIn (rd rs rt : IRRegIndex) (type : MapType.t) : Jit unit :=
  gpr_call (fun g => MapDirtyInIn (AllocateReg cfg) g rd rs rt type).

Definition gpr_MarkDirty (h : RiscVReg) (andNormalized32 : bool) : Jit unit :=
  gpr_mark (fun g => MarkDirty g h andNormalized32).

Definition gpr_MarkPtrDirty (h : RiscVReg) : Jit unit :=
  gpr_mark (fun g => MarkPtrDirty g h).

(** [_assert_msg_(cond, fmt, arg)]: a failed assertion is reported, and
    the process goes down unless the handler lets it continue. *)
Definition _assert_msg_ (cond : bool) (f : string) (a : IROp.t) : Jit unit :=
  fun j =>
    if cond then Ret tt j
    else
      let d := {| fmt := f; arg := a |} in
      let j' := {| gpr := gpr j; code := code j; reports := reports j ++ [d] |} in
      if HandleAssert cfg d then Ret tt j' else Crash j'.

(** Modelled from the spec: [CompIR_Generic], the fallback compiler.  It
    flushes the cache, so that no operand is assumed resident in a host
    register, and emits the call out to the always-correct path. *)
Definition CompIR_Generic (inst : IRInst) : Jit unit :=
  fun j => Ret tt {| gpr := fun _ => unmapped;
                     code := code j ++ [CallGeneric inst];
                     reports := reports j |}.

(** [#define CONDITIONAL_DISABLE {}] *)
Definition CONDITIONAL_DISABLE : Jit unit := ret tt.

(** [#define INVALIDOP { _assert_msg_(false, "Invalid IR inst %d", (int)inst.op); CompIR_Generic(inst); return; }] *)
Definition INVALIDOP (inst : IRInst) : Jit unit :=
  _assert_msg_ false "Invalid IR inst %d" (op inst) ;;
  CompIR_Generic inst.

Definition CompIR_Arith (inst0 : IRInst) : Jit unit :=
  CONDITIONAL_DISABLE ;;
  (* allowPtrMath starts true and is cleared when MASKED_PSP_MEMORY is not defined *)
  let allowPtrMath := MASKED_PSP_MEMORY cfg in
  let inst := RewriteSubConst inst0 in
  match op inst with
  | IROp.Add =>
      gpr_MapDirtyInIn (dest inst) (src1 inst) (src2 inst) MapType.AVOID_LOAD_MARK_NORM32 ;;
      g <- the_gpr ;;
      emit (ADDW (R g (dest inst)) (R g (src1 inst)) (R g (src2 inst)))
  | IROp.Sub =>
      gpr_MapDirtyInIn (dest inst) (src1 inst) (src2 inst) MapType.AVOID_LOAD_MARK_NORM32 ;;
      g <- the_gpr ;;
      emit (SUBW (R g (dest inst)) (R g (src1 inst)) (R g (src2 inst)))
  | IROp.AddConst =>
      if (-2048 <=? s32 (constant inst)) && (s32 (constant inst) <=? 2047) then
        g <- the_gpr ;;
        if IsMappedAsPointer g (src1 inst) && Nat.eqb (dest inst) (src1 inst) && allowPtrMath then
          gpr_MarkPtrDirty (RPtr g (dest inst)) ;;
          g <- the_gpr ;;
          emit (ADDI (RPtr g (dest inst)) (RPtr g (dest inst)) (s32 (constant inst)))
        else
          gpr_MapDirtyIn (dest inst) (src1 inst) MapType.AVOID_LOAD_MARK_NORM32 ;;
          g <- the_gpr ;;
          emit (ADDIW (R g (dest inst)) (R g (src1 inst)) (s32 (constant inst)))
      else
        gpr_MapDirtyIn (dest inst) (src1 inst) MapType.AVOID_LOAD_MARK_NORM32 ;;
        emit (LI SCRATCH1 (s32 (constant inst))) ;;
        g <- the_gpr ;;
        emit (ADDW (R g (dest inst)) (R g (src1 inst)) SCRATCH1)
  | IROp.SubConst =>
      gpr_MapDirtyIn (dest inst) (src1 inst) MapType.AVOID_LOAD_MARK_NORM32 ;;
      emit (LI SCRATCH1 (s32 (constant inst))) ;;
      g <- the_gpr ;;
      emit (SUBW (R g (dest inst)) (R g (src1 inst)) SCRATCH1)
  | IROp.Neg =>
      gpr_MapDirtyIn (dest inst) (src1 inst) MapType.AVOID_LOAD_MARK_NORM32 ;;
      g <- the_gpr ;;
      emit (SUBW (R g (dest inst)) R_ZERO (R g (src1 inst)))
  | _ => INVALIDOP inst
  end.

Definition CompIR_Logic (inst : IRInst) : Jit unit :=
  CONDITIONAL_DISABLE ;;
  match op inst with
  | IROp.And =>
      gpr_MapDirtyInIn (dest inst) (src1 inst) (src2 inst) MapType.AVOID_LOAD ;;
      g <- the_gpr ;;
      emit (AND (R g (dest inst)) (R g (src1 inst)) (R g (src2 inst)))
  | IROp.Or =>
      gpr_MapDirtyInIn (dest inst) (src1 inst) (src2 inst) MapType.AVOID_LOAD ;;
      g <- the_gpr ;;
      emit (OR (R g (dest inst)) (R g (src1 inst)) (R g (src2 inst))) ;;
      (* If both were normalized before, the result is normalized. *)
      g <- the_gpr ;;
      if IsNormalized32 g (src1 inst) && IsNormalized32 g (src2 inst) then
        gpr_MarkDirty (R g (dest inst)) true
      else ret tt
  | IROp.Xor =>
      gpr_MapDirtyInIn (dest inst) (src1 inst) (src2 inst) MapType.AVOID_LOAD ;;
      g <- the_gpr ;;
      emit (XOR (R g (dest inst)) (R g (src1 inst)) (R g (src2 inst)))
  | IROp.AndConst =>
      (if (-2048 <=? s32 (constant inst)) && (s32 (constant inst) <=? 2047) then
         gpr_MapDirtyIn (dest inst) (src1 inst) MapType.AVOID_LOAD ;;
         g <- the_gpr ;;
         emit (ANDI (R g (dest inst)) (R g (src1 inst)) (s32 (constant inst)))
       else
         gpr_MapDirtyIn (dest inst) (src1 inst) MapType.AVOID_LOAD ;;
         emit (LI SCRATCH1 (s32 (constant inst))) ;;
         g <- the_gpr ;;
         emit (AND (R g (dest inst)) (R g (src1 inst)) SCRATCH1)) ;;
      g <- the_gpr ;;
      (* If the sign bits aren't cleared, and it was normalized before - it still is. *)
      if sign_bit_set (constant inst) && IsNormalized32 g (src1 inst) then
        gpr_MarkDirty (R g (dest inst)) true
      (* Otherwise, if we cleared the sign bits, it's naturally normalized. *)
      else if Z.land (constant inst) 0x80000000 =? 0 then
        gpr_MarkDirty (R g (dest inst)) true
      else ret tt
  | IROp.OrConst =>
      (if (-2048 <=? s32 (constant inst)) && (s32 (constant inst) <=? 2047) then
         gpr_MapDirtyIn (dest inst) (src1 inst) MapType.AVOID_LOAD ;;
         g <- the_gpr ;;
         emit (ORI (R g (dest inst)) (R g (src1 inst)) (s32 (constant inst)))
       else
         gpr_MapDirtyIn (dest inst) (src1 inst) MapType.AVOID_LOAD ;;
         emit (LI SCRATCH1 (s32 (constant inst))) ;;
         g <- the_gpr ;;
         emit (OR (R g (dest inst)) (R g (src1 inst)) SCRATCH1)) ;;
      (* Since our constant is normalized, oring its bits in won't hurt normalization. *)
      g <- the_gpr ;;
      if IsNormalized32 g (src1 inst) then
        gpr_MarkDirty (R g (dest inst)) true
      else ret tt
  | IROp.XorConst =>
      if (-2048 <=? s32 (constant inst)) && (s32 (constant inst) <=? 2047) then
        gpr_MapDirtyIn (dest inst) (src1 inst) MapType.AVOID_LOAD ;;
        g <- the_gpr ;;
        emit (XORI (R g (dest inst)) (R g (src1 inst)) (s32 (constant inst)))
      else
        gpr_MapDirtyIn (dest inst) (src1 inst) MapType.AVOID_LOAD ;;
        emit (LI SCRATCH1 (s32 (constant inst))) ;;
        g <- the_gpr ;;
        emit (XOR (R g (dest inst)) (R g (src1 inst)) SCRATCH1)
  | IROp.Not =>
      gpr_MapDirtyIn (dest inst) (src1 inst) MapType.AVOID_LOAD ;;
      g <- the_gpr ;;
      emit (NOT (R g (dest inst)) (R g (src1 inst)))
  | _ => INVALIDOP inst
  end.

Definition CompIR_Assign (inst : IRInst) : Jit unit :=
  CONDITIONAL_DISABLE ;;
  match op inst with
  | IROp.Mov =>
      gpr_MapDirtyIn (dest inst) (src1 inst) MapType.AVOID_LOAD ;;
      g <- the_gpr ;;
      emit (MV (R g (dest inst)) (R g (src1 inst))) ;;
      g <- the_gpr ;;
      gpr_MarkDirty (R g (dest inst)) (IsNormalized32 g (src1 inst))
  | IROp.Ext8to32 =>
      if RiscV_Zbb cfg then
        gpr_MapDirtyIn (dest inst) (src1 inst) MapType.AVOID_LOAD_MARK_NORM32 ;;
        g <- the_gpr ;;
        emit (SEXT_B (R g (dest inst)) (R g (src1 inst)))
      else
        gpr_MapDirtyIn (dest inst) (src1 inst) MapType.AVOID_LOAD_MARK_NORM32 ;;
        g <- the_gpr ;;
        emit (SLLI (R g (dest inst)) (R g (src1 inst)) 24) ;;
        emit (SRAIW (R g (dest inst)) (R g (dest inst)) 24)
  | IROp.Ext16to32 =>
      if RiscV_Zbb cfg then
        gpr_MapDirtyIn (dest inst) (src1 inst) MapType.AVOID_LOAD_MARK_NORM32 ;;
        g <- the_gpr ;;
        emit (SEXT_H (R g (dest inst)) (R g (src1 inst)))
      else
        gpr_MapDirtyIn (dest inst) (src1 inst) MapType.AVOID_LOAD_MARK_NORM32 ;;
        g <- the_gpr ;;
        emit (SLLI (R g (dest inst)) (R g (src1 inst)) 16) ;;
        emit (SRAIW (R g (dest inst)) (R g (dest inst)) 16)
  | _ => INVALIDOP inst
  end.

Definition CompIR_Bits (inst : IRInst) : Jit unit :=
  CONDITIONAL_DISABLE ;;
  match op inst with
  | IROp.ReverseBits => CompIR_Generic inst
  | IROp.BSwap16 => CompIR_Generic inst
  | IROp.BSwap32 =>
      if RiscV_Zbb cfg then
        gpr_MapDirtyIn (dest inst) (src1 inst) MapType.AVOID_LOAD ;;
        g <- the_gpr ;;
        emit (REV8 (R g (dest inst)) (R g (src1 inst))) ;;
        if 64 <=? XLEN cfg then
          (* REV8 swaps the entire register, so get the 32 highest bits. *)
          emit (SRAI (R g (dest inst)) (R g (dest inst)) (XLEN cfg - 32)) ;;
          gpr_MarkDirty (R g (dest inst)) true
        else ret tt
      else CompIR_Generic inst
  | IROp.Clz => CompIR_Generic inst
  | _ => INVALIDOP inst
  end.

Definition CompIR_Shift (inst : IRInst) : Jit unit :=
  CONDITIONAL_DISABLE ;;
  match op inst with
  | IROp.Shl | IROp.Shr | IROp.Sar | IROp.Ror
  | IROp.ShlImm | IROp.ShrImm | IROp.SarImm | IROp.RorImm =>
      CompIR_Generic inst
  | _ => INVALIDOP inst
  end.

Definition CompIR_Compare (inst : IRInst) : Jit unit :=
  CONDITIONAL_DISABLE ;;
  match op inst with
  | IROp.Slt | IROp.SltConst | IROp.SltU | IROp.SltUConst =>
      CompIR_Generic inst
  | _ => INVALIDOP inst
  end.

Definition CompIR_CondAssign (inst : IRInst) : Jit unit :=
  CONDITIONAL_DISABLE ;;
  match op inst with
  | IROp.MovZ | IROp.MovNZ | IROp.Max | IROp.Min =>
      CompIR_Generic inst
  | _ => INVALIDOP inst
  end.

Definition CompIR_HiLo (inst : IRInst) : Jit unit :=
  CONDITIONAL_DISABLE ;;
  match op inst with
  | IROp.MtLo | IROp.MtHi | IROp.MfLo | IROp.MfHi =>
      CompIR_Generic inst
  | _ => INVALIDOP inst
  end.

Definition CompIR_Mult (inst : IRInst) : Jit unit :=
  CONDITIONAL_DISABLE ;;
  match op inst with
  | IROp.Mult | IROp.MultU | IROp.Madd | IROp.MaddU | IROp.Msub | IROp.MsubU =>
      CompIR_Generic inst
  | _ => INVALIDOP inst
  end.

Definition CompIR_Div (inst : IRInst) : Jit unit :=
  CONDITIONAL_DISABLE ;;
  match op inst with
  | IROp.Div | IROp.DivU => CompIR_Generic inst
  | _ => INVALIDOP inst
  end.
End Lowering.

(** *** The routines as a family *)

Module Group.
(** One tag per lowering routine of the file. *)
Inductive t : Set :=
| Arith | Logic | Assign | Bits | Shift | Compare | CondAssign | HiLo | Mult | Div.
End Group.

Definition CompIR (cfg : Config) (g : Group.t) : IRInst -> Jit unit :=
  match g with
  | Group.Arith => CompIR_Arith cfg
  | Group.Logic => CompIR_Logic cfg
  | Group.Assign => CompIR_Assign cfg
  | Group.Bits => CompIR_Bits cfg
  | Group.Shift => CompIR_Shift cfg
  | Group.Compare => CompIR_Compare cfg
  | Group.CondAssign => CompIR_CondAssign cfg
  | Group.HiLo => CompIR_HiLo cfg
  | Group.Mult => CompIR_Mult cfg
  | Group.Div => CompIR_Div cfg
  end.

(** The declared group of a routine: the opcodes its switch has a case
    label for. *)
Definition declared (g : Group.t) (o : IROp.t) : bool :=
  match g, o with
  | Group.Arith, (IROp.Add | IROp.Sub | IROp.AddConst | IROp.SubConst | IROp.Neg)
  | Group.Logic, (IROp.And | IROp.Or | IROp.Xor | IROp.AndConst | IROp.OrConst
                  | IROp.XorConst | IROp.Not)
  | Group.Assign, (IROp.Mov | IROp.Ext8to32 | IROp.Ext16to32)
  | Group.Bits, (IROp.ReverseBits | IROp.BSwap16 | IROp.BSwap32 | IROp.Clz)
  | Group.Shift, (IROp.Shl | IROp.Shr | IROp.Sar | IROp.Ror | IROp.ShlImm
                  | IROp.ShrImm | IROp.SarImm | IROp.RorImm)
  | Group.Compare, (IROp.Slt | IROp.SltConst | IROp.SltU | IROp.SltUConst)
  | Group.CondAssign, (IROp.MovZ | IROp.MovNZ | IROp.Max | IROp.Min)
  | Group.HiLo, (IROp.MtLo | IROp.MtHi | IROp.MfLo | IROp.MfHi)
  | Group.Mult, (IROp.Mult | IROp.MultU | IROp.Madd | IROp.MaddU | IROp.Msub
                 | IROp.MsubU)
  | Group.Div, (IROp.Div | IROp.DivU) => true
  | _, _ => false
  end.

(** The opcodes the specification lists as declared but deferred to the
    fallback path, each with the routine that declares it: bit reversal,
    byte-swap-16, count-leading-zeros, the shifts, the comparisons,
    conditional move / min / max, the HI/LO transfers, and multiply,
    multiply-accumulate and divide. *)
Definition deferred (o : IROp.t) : option Group.t :=
  match o with
  | IROp.ReverseBits | IROp.BSwap16 | IROp.Clz => Some Group.Bits
  | IROp.Shl | IROp.Shr | IROp.Sar | IROp.Ror
  | IROp.ShlImm | IROp.ShrImm | IROp.SarImm | IROp.RorImm => Some Group.Shift
  | IROp.Slt | IROp.SltConst | IROp.SltU | IROp.SltUConst => Some Group.Compare
  | IROp.MovZ | IROp.MovNZ | IROp.Max | IROp.Min => Some Group.CondAssign
  | IROp.MtLo | IROp.MtHi | IROp.MfLo | IROp.MfHi => Some Group.HiLo
  | IROp.Mult | IROp.MultU | IROp.Madd | IROp.MaddU | IROp.Msub | IROp.MsubU =>
      Some Group.Mult
  | IROp.Div | IROp.DivU => Some Group.Div
  | _ => None
  end.

(* ================================================================== *)
(** ** Frame pacing *)

Module FrameTiming.
(** The members [AfterPresent] reads and writes, as binary64 values (a
    narrower member widens exactly in the expression). *)
Record t : Set := mk {
  timeStep : float;
  cpuTime : float;
  postSleep : float;
  usePresentTiming : bool
}.

(** [FrameTiming::AfterPresent].  The second component is the list of
    [sleep_s] calls made so far, oldest first. *)
Definition AfterPresent (ft : t) (sleeps : list float) : t * list float :=
  (* Sleep slightly less time than all of the available room, in case of a CPU spike. *)
  let margin := (2.0 * 0.001)%float in
  let ft' := {| timeStep := timeStep ft; cpuTime := cpuTime ft;
                postSleep := (timeStep ft - margin - cpuTime ft)%float;
                usePresentTiming := usePresentTiming ft |} in
  let sleeps' := if (0.0 <? postSleep ft')%float
                 then sleeps ++ [postSleep ft'] else sleeps in
  if negb (usePresentTiming ft') then (ft', sleeps') else (ft', sleeps').
End FrameTiming.

(* ================================================================== *)
(** ** The two lowerings of a constant operand, as the specification
       names them *)

Definition is_const_op (o : IROp.t) : bool :=
  match o with
  | IROp.AddConst | IROp.AndConst | IROp.OrConst | IROp.XorConst => true
  | _ => false
  end.

(** The single-instruction immediate form. *)
Definition immediate_form (o : IROp.t) (rd rs : RiscVReg) (c : Z) : list RiscVInst :=
  match o with
  | IROp.AddConst => [ADDIW rd rs c]
  | IROp.AndConst => [ANDI rd rs c]
  | IROp.OrConst => [ORI rd rs c]
  | IROp.XorConst => [XORI rd rs c]
  | _ => []
  end.

(** The scratch-materialize form: the constant goes to [SCRATCH1], then
    the register-register instruction. *)
Definition scratch_form (o : IROp.t) (rd rs : RiscVReg) (c : Z) : list RiscVInst :=
  match o with
  | IROp.AddConst => [LI SCRATCH1 c; ADDW rd rs SCRATCH1]
  | IROp.AndConst => [LI SCRATCH1 c; AND rd rs SCRATCH1]
  | IROp.OrConst => [LI SCRATCH1 c; OR rd rs SCRATCH1]
  | IROp.XorConst => [LI SCRATCH1 c; XOR rd rs SCRATCH1]
  | _ => []
  end.

(** The routine that lowers a constant-operand opcode, and the mode it
    maps its registers with. *)
Definition const_routine (cfg : Config) (o : IROp.t) : IRInst -> Jit unit :=
  match o with
  | IROp.AddConst => CompIR_Arith cfg
  | _ => CompIR_Logic cfg
  end.

Definition const_map_type (o : IROp.t) : MapType.t :=
  match o with
  | IROp.AddConst => MapType.AVOID_LOAD_MARK_NORM32
  | _ => MapType.AVOID_LOAD
  end.

(** Whether an add-constant takes the pointer path. *)
Definition pointer_path (cfg : Config) (g : RiscVRegCache) (inst : IRInst) : bool :=
  match op inst with
  | IROp.AddConst =>
      IsMappedAsPointer g (src1 inst) && Nat.eqb (dest inst) (src1 inst)
      && MASKED_PSP_MEMORY cfg
  | _ => false
  end.

(** A pointer-register immediate add. *)
Definition is_ADDI (i : RiscVInst) : bool :=
  match i with ADDI _ _ _ => true | _ => false end.

(* ================================================================== *)
(** ** Sample configurations and states *)

(** Every virtual register [v] gets host register [X v]; the two flags
    say whether [MASKED_PSP_MEMORY] is defined and whether a failed
    assertion lets execution continue. *)
Definition sample_cfg (masked : bool) (assert_continues : bool) : Config :=
  {| MASKED_PSP_MEMORY := masked; RiscV_Zbb := true; XLEN := 64;
     HandleAssert := fun _ => assert_continues;
     AllocateReg := fun _ v => v |}.

(** A cache holding nothing. *)
Definition empty_gpr : RiscVRegCache := fun _ => unmapped.

Definition held (n : nat) (norm ptr : bool) : RegEntry :=
  {| hostReg := Some n; isDirty := false; normalized32 := norm; asPointer := ptr |}.

Definition jit_of (g : RiscVRegCache) : RiscVJit :=
  {| gpr := g; code := []; reports := [] |}.

(** A host state: guest memory based at [0x10000000], guest register [v]
    holding [1000 + v] both in the context and in [X v]. *)
Definition sample_machine : Machine :=
  {| xreg := fun r => match r with
                      | MEMBASEREG => 0x10000000
                      | X n => 1000 + Z.of_nat n
                      | _ => 0
                      end;
     ctx := fun v => 1000 + Z.of_nat v |}.

(** Virtual registers [1] and [2] held normalized in [X 1] and [X 2]. *)
Definition two_normalized : RiscVRegCache :=
  upd (upd empty_gpr 1%nat (held 1 true false)) 2%nat (held 2 true false).

(** Virtual register [5] held normalized in [X 5]. *)
Definition r5_normalized : RiscVRegCache := upd empty_gpr 5%nat (held 5 true false).

(* ================================================================== *)
(** ** What the further properties speak of *)

(** The host register an instruction writes. *)
Definition written (i : RiscVInst) : RiscVReg :=
  match i with
  | ADDW rd _ _ | SUBW rd _ _ | SUB rd _ _ | ADDI rd _ _ | ADDIW rd _ _ | LI rd _
  | AND rd _ _ | OR rd _ _ | XOR rd _ _ | ANDI rd _ _ | ORI rd _ _ | XORI rd _ _
  | NOT rd _ | MV rd _ | SEXT_B rd _ | SEXT_H rd _ | SLLI rd _ _ | SRAI rd _ _
  | SRAIW rd _ _ | REV8 rd _ | LW rd _ _ => rd
  end.

(** No two virtual registers are held in the same host register. *)
Definition host_injective (g : RiscVRegCache) : Prop :=
  forall v w n, hostReg (g v) = Some n -> hostReg (g w) = Some n -> v = w.

(** The byte swap of a 32-bit word, the operation [IROp::BSwap32] names:
    the reference the emitted [REV8]/[SRAI] pair is compared with. *)
Definition bswap32_value (x : Z) : Z :=
  byte_at x 0 * 2 ^ 24 + byte_at x 1 * 2 ^ 16 + byte_at x 2 * 2 ^ 8 + byte_at x 3.

(** What the instruction formats can hold: a 12-bit signed immediate for
    the immediate forms, a shift amount below the register width for the
    shifts (below 32 for the word shift).  [xlen] is the register width. *)
Definition well_encoded (xlen : Z) (i : RiscVInst) : Prop :=
  match i with
  | ADDI _ _ c | ADDIW _ _ c | ANDI _ _ c | ORI _ _ c | XORI _ _ c =>
      encodable_simm12 c
  | SLLI _ _ sh | SRAI _ _ sh => 0 <= sh < xlen
  | SRAIW _ _ sh => 0 <= sh < 32
  | _ => True
  end.

(* ================================================================== *)
(** ** Frame timing: the present mode and the frame clock *)

Module Draw.
(** [Draw::PresentMode] values are bit flags held in an integer: [a | b]
    joins two masks and [a & b] tells whether they share a bit.  The three
    flags are declared outside the two files and are left open here. *)
Record PresentModes : Set := mkPresentModes { FIFO : Z; IMMEDIATE : Z; MAILBOX : Z }.

Definition shares (a b : Z) : bool := negb (Z.land a b =? 0).

(** The two device capabilities the file reads. *)
Record DeviceCaps : Set := mkDeviceCaps {
  presentModesSupported : Z;
  presentInstantModeChange : bool
}.
End Draw.

Module FPSLimit.
(** [FPSLimit]: the file names [NORMAL], [CUSTOM1] and [CUSTOM2]; for any
    other value it reads the analog limit. *)
Inductive t : Set := NORMAL | CUSTOM1 | CUSTOM2 | ANALOG.

Definition is_NORMAL (l : t) : bool := match l with NORMAL => true | _ => false end.
End FPSLimit.

(** The fields of [g_Config] and of [PSP_CoreParameter()] the file reads. *)
Record GlobalConfig : Set := mkGlobalConfig {
  bVSync : bool;
  iFpsLimit1 : Z;
  iFpsLimit2 : Z
}.

Record CoreParameter : Set := mkCoreParameter {
  fastForward : bool;
  fpsLimit : FPSLimit.t;
  analogFpsLimit : Z
}.

(** One entry of the frame history, with the fields [BeforeCPUSlice] reads. *)
Record FrameTimeData : Set := mkFrameTimeData {
  queuePresent : float;
  afterFenceWait : float;
  frameBegin : float;
  firstSubmit : float
}.

(** What the timing code does to the outside: it reads the clock
    ([time_now_d], the readings still to come, next first), it sleeps
    ([sleep_s], the durations asked for, oldest first), and it evaluates
    debug assertions (their conditions, oldest first). *)
Record World : Set := mkWorld {
  clock : list float;
  sleeps : list float;
  dbg_asserts : list bool
}.

Module FT.
(** The members of the [FrameTiming] object. *)
Record t : Set := mk {
  presentMode : Z;
  presentInterval : Z;
  usePresentTiming : bool;
  cpuSliceStartTime : float;
  cpuTime : float;
  timeStep : float;
  postSleep : float;
  nextPresentTime : float;
  lastPresentTime : float;
  nudge_ : float;
  setTimestepCalled_ : bool
}.

Definition set_present (ft : t) (mode interval : Z) : t :=
  mk mode interval (usePresentTiming ft) (cpuSliceStartTime ft) (cpuTime ft)
     (timeStep ft) (postSleep ft) (nextPresentTime ft) (lastPresentTime ft)
     (nudge_ ft) (setTimestepCalled_ ft).

Definition set_usePresentTiming (ft : t) (b : bool) : t :=
  mk (presentMode ft) (presentInterval ft) b (cpuSliceStartTime ft) (cpuTime ft)
     (timeStep ft) (postSleep ft) (nextPresentTime ft) (lastPresentTime ft)
     (nudge_ ft) (setTimestepCalled_ ft).

Definition set_cpuSliceStartTime (ft : t) (x : float) : t :=
  mk (presentMode ft) (presentInterval ft) (usePresentTiming ft) x (cpuTime ft)
     (timeStep ft) (postSleep ft) (nextPresentTime ft) (lastPresentTime ft)
     (nudge_ ft) (setTimestepCalled_ ft).

Definition set_cpuTime (ft : t) (x : float) : t :=
  mk (presentMode ft) (presentInterval ft) (usePresentTiming ft)
     (cpuSliceStartTime ft) x (timeStep ft) (postSleep ft) (nextPresentTime ft)
     (lastPresentTime ft) (nudge_ ft) (setTimestepCalled_ ft).

Definition set_timeStep (ft : t) (x : float) : t :=
  mk (presentMode ft) (presentInterval ft) (usePresentTiming ft)
     (cpuSliceStartTime ft) (cpuTime ft) x (postSleep ft) (nextPresentTime ft)
     (lastPresentTime ft) (nudge_ ft) (setTimestepCalled_ ft).

Definition set_nextPresentTime (ft : t) (x : float) : t :=
  mk (presentMode ft) (presentInterval ft) (usePresentTiming ft)
     (cpuSliceStartTime ft) (cpuTime ft) (timeStep ft) (postSleep ft) x
     (lastPresentTime ft) (nudge_ ft) (setTimestepCalled_ ft).

Definition set_lastPresentTime (ft : t) (x : float) : t :=
  mk (presentMode ft) (presentInterval ft) (usePresentTiming ft)
     (cpuSliceStartTime ft) (cpuTime ft) (timeStep ft) (postSleep ft)
     (nextPresentTime ft) x (nudge_ ft) (setTimestepCalled_ ft).

Definition set_nudge (ft : t) (x : float) : t :=
  mk (presentMode ft) (presentInterval ft) (usePresentTiming ft)
     (cpuSliceStartTime ft) (cpuTime ft) (timeStep ft) (postSleep ft)
     (nextPresentTime ft) (lastPresentTime ft) x (setTimestepCalled_ ft).

Definition set_setTimestepCalled (ft : t) (b : bool) : t :=
  mk (presentMode ft) (presentInterval ft) (usePresentTiming ft)
     (cpuSliceStartTime ft) (cpuTime ft) (timeStep ft) (postSleep ft)
     (nextPresentTime ft) (lastPresentTime ft) (nudge_ ft) b.
End FT.

(** [time_now_d()]: the next reading of the clock, if the model has one. *)
Definition time_now_d (w : World) : option (float * World) :=
  match clock w with
  | [] => None
  | now :: rest => Some (now, mkWorld rest (sleeps w) (dbg_asserts w))
  end.

(** [sleep_s(d)]. *)
Definition sleep_s (d : float) (w : World) : World :=
  mkWorld (clock w) (sleeps w ++ [d]) (dbg_asserts w).

(** [_dbg_assert_(cond)]. *)
Definition _dbg_assert_ (cond : bool) (w : World) : World :=
  mkWorld (clock w) (sleeps w) (dbg_asserts w ++ [cond]).

Section PresentMode.
Variable PM : Draw.PresentModes.

Definition GetBestImmediateMode (supportedModes : Z) : Z :=
  if Draw.shares supportedModes (Draw.MAILBOX PM) then Draw.MAILBOX PM
  else Draw.IMMEDIATE PM.

(** [FrameTiming::Reset]. *)
Definition Reset (ft : FT.t) (caps : Draw.DeviceCaps) (g_Config : GlobalConfig) : FT.t :=
  let ft :=
    if bVSync g_Config
       || negb (Draw.shares (Draw.presentModesSupported caps)
                  (Z.lor (Draw.MAILBOX PM) (Draw.IMMEDIATE PM)))
    then FT.set_present ft (Draw.FIFO PM) 1
    else FT.set_present ft (GetBestImmediateMode (Draw.presentModesSupported caps)) 0 in
  FT.set_setTimestepCalled ft false.

(** [ComputePresentMode]: the mode it returns and the interval it stores
    through its pointer argument. *)
Definition ComputePresentMode (caps : Draw.DeviceCaps) (g_Config : GlobalConfig)
    (core : CoreParameter) : Z * Z :=
  let mode := Draw.FIFO PM in
  let mode :=
    if Draw.shares (Draw.presentModesSupported caps)
         (Z.lor (Draw.IMMEDIATE PM) (Draw.MAILBOX PM))
    then
      (* Switch to immediate if desired and possible. *)
      let wantInstant := false in
      let wantInstant := if negb (bVSync g_Config) then true else wantInstant in
      let wantInstant := if fastForward core then true else wantInstant in
      let wantInstant :=
        if negb (FPSLimit.is_NORMAL (fpsLimit core)) then
          let limit :=
            match fpsLimit core with
            | FPSLimit.CUSTOM1 => iFpsLimit1 g_Config
            | FPSLimit.CUSTOM2 => iFpsLimit2 g_Config
            | _ => analogFpsLimit core
            end in
          (* For an alternative speed that is a clean factor of 60, the user
             probably still wants vsync. *)
          if (limit =? 0)
             || ((0 <=? limit) && negb (limit =? 15) && negb (limit =? 30)
                 && negb (limit =? 60))
          then true else wantInstant
        else wantInstant in
      let wantInstant :=
        if wantInstant && bVSync g_Config && negb (Draw.presentInstantModeChange caps)
        then false else wantInstant in
      (* The outer if checks that instant modes are available. *)
      if wantInstant then GetBestImmediateMode (Draw.presentModesSupported caps)
      else mode
    else mode in
  (mode, if mode =? Draw.FIFO PM then 1 else 0).

(** What it means for [mode] to be usable on a device: [FIFO], or one of
    the two instant modes with its flag among the supported ones, [MAILBOX]
    first. *)
Definition usable (supported mode : Z) : Prop :=
  mode = Draw.FIFO PM
  \/ (mode = Draw.MAILBOX PM /\ Draw.shares supported (Draw.MAILBOX PM) = true)
  \/ (mode = Draw.IMMEDIATE PM /\ Draw.shares supported (Draw.IMMEDIATE PM) = true
      /\ Draw.shares supported (Draw.MAILBOX PM) = false).
End PresentMode.

(** The limit [ComputePresentMode] looks at for a speed other than
    [NORMAL]. *)
Definition limit_of (g_Config : GlobalConfig) (core : CoreParameter) : Z :=
  match fpsLimit core with
  | FPSLimit.CUSTOM1 => iFpsLimit1 g_Config
  | FPSLimit.CUSTOM2 => iFpsLimit2 g_Config
  | _ => analogFpsLimit core
  end.

(** [FrameTiming::BeforeCPUSlice]; the history is read at index 3. *)
Definition BeforeCPUSlice (frameHistory : nat -> FrameTimeData) (ft : FT.t) (w : World)
  : option (FT.t * World) :=
  match time_now_d w with
  | None => None
  | Some (now, w) =>
      let ft := FT.set_cpuSliceStartTime ft now in
      (* Here we can examine the frame history for anomalies to correct. *)
      let ft := FT.set_nudge ft 0.0%float in
      let oldData := frameHistory 3%nat in
      if (queuePresent oldData =? 0.0)%float then
        (* No data to look at. *)
        Some (ft, w)
      else
        let ft :=
          if (0.001 <? afterFenceWait oldData - frameBegin oldData)%float
          then FT.set_nudge ft ((afterFenceWait oldData - frameBegin oldData) * 0.1)%float
          else ft in
        let ft :=
          if (FT.cpuTime ft <? firstSubmit oldData - afterFenceWait oldData)%float
          then FT.set_nudge ft
                 ((firstSubmit oldData - afterFenceWait oldData - FT.cpuTime ft) * 0.1)%float
          else ft in
        Some (ft, w)
  end.

(** [FrameTiming::SetTimeStep]; [scaledTimeStep] is the [float] argument,
    widened. *)
Definition SetTimeStep (scaledTimeStep : float) (ft : FT.t) (w : World)
  : option (FT.t * World) :=
  let w := _dbg_assert_ (FT.usePresentTiming ft) w in
  match time_now_d w with
  | None => None
  | Some (now, w) =>
      let ft := FT.set_cpuTime ft (now - FT.cpuSliceStartTime ft)%float in
      let ft := FT.set_timeStep ft scaledTimeStep in
      (* Sync up lastPresentTime with the current time if it's way off. *)
      let ft :=
        if (FT.lastPresentTime ft <? now - 0.5)%float
        then FT.set_lastPresentTime ft now else ft in
      Some (FT.set_setTimestepCalled ft true, w)
  end.

(** [1.0f / 60.0f], the single-precision quotient, widened. *)
Definition one_sixtieth_f : float := 0x1.111112p-6%float.

(** [FrameTiming::AfterCPUSlice]. *)
Definition AfterCPUSlice (ft : FT.t) (w : World) : option (FT.t * World) :=
  if negb (FT.setTimestepCalled_ ft) then
    (* We're in the menu or something. *)
    let ft := FT.set_usePresentTiming ft true in
    SetTimeStep one_sixtieth_f ft w
  else Some (ft, w).

(** The loop of [BeforePresent]: one clock reading per turn. *)
Fixpoint wait_until (nextPresentTime : float) (readings : list float)
    (slept : list float) : option (list float * list float) :=
  match readings with
  | [] => None
  | now :: rest =>
      let remaining := (nextPresentTime - now)%float in
      if (remaining <=? 0.0)%float then Some (rest, slept)
      else wait_until nextPresentTime rest (slept ++ [remaining])
  end.

(** [FrameTiming::BeforePresent]. *)
Definition BeforePresent (ft : FT.t) (w : World) : option (FT.t * World) :=
  if negb (FT.usePresentTiming ft) then Some (ft, w)
  else
    (* Wait until we hit the next present time. *)
    let ft := FT.set_nextPresentTime ft
                (FT.lastPresentTime ft + FT.timeStep ft + FT.nudge_ ft)%float in
    match wait_until (FT.nextPresentTime ft) (clock w) (sleeps w) with
    | None => None
    | Some (rest, slept) =>
        Some (FT.set_lastPresentTime ft (FT.nextPresentTime ft),
              mkWorld rest slept (dbg_asserts w))
    end.

(** *** Sample inputs of the frame timing code *)

(** Three distinct flags. *)
Definition sample_modes : Draw.PresentModes := Draw.mkPresentModes 1 2 4.

(** A device that offers [FIFO] and [IMMEDIATE]. *)
Definition sample_caps (instantChange : bool) : Draw.DeviceCaps :=
  Draw.mkDeviceCaps 3 instantChange.

(** A timing object at rest: present timing on, last present at 1 s, a
    time step of half a second. *)
Definition sample_timing : FT.t :=
  FT.mk 1 1 true 0.0%float 0.0%float 0.5%float 0.0%float 0.0%float 1.0%float
    0.0%float false.

Definition sample_world (readings : list float) : World := mkWorld readings [] [].

(** A history whose entry 3 holds no data. *)
Definition empty_history : nat -> FrameTimeData :=
  fun _ => mkFrameTimeData 0.0%float 0.0%float 0.0%float 0.0%float.

(* ================================================================== *)
(** * Properties *)

(** ** Registers *)

Lemma RiscVReg_eqb_spec a b : reflect (a = b) (RiscVReg_eqb a b).
Proof.
  destruct a, b; simpl; try (constructor; congruence).
  destruct (Nat.eqb_spec n n0); constructor; congruence.
Qed.

Lemma RiscVReg_eqb_refl a : RiscVReg_eqb a a = true.
Proof. destruct (RiscVReg_eqb_spec a a); congruence. Qed.

Lemma get_set_same m r v : r <> R_ZERO -> get (set m r v) r = v.
Proof.
  unfold get, set. destruct r; simpl; try congruence; intros _.
  now rewrite Nat.eqb_refl.
Qed.

Lemma get_set_other m r r' v : r' <> r -> get (set m r v) r' = get m r'.
Proof.
  unfold get, set.
  intros Hne. destruct r; simpl; try reflexivity;
    destruct r'; simpl; try reflexivity; try congruence.
  destruct (Nat.eqb_spec n0 n); congruence.
Qed.

Lemma exec_app c1 c2 m : exec (c1 ++ c2) m = exec c2 (exec c1 m).
Proof. revert m; induction c1; simpl; auto. Qed.

(** ** Fixed-width arithmetic *)

Ltac words :=
  unfold u32, s32, s64, normalized_value, encodable_simm12 in *;
  change (2 ^ 31) with 2147483648 in *;
  change (2 ^ 32) with 4294967296 in *;
  change (2 ^ 63) with 9223372036854775808 in *;
  change (2 ^ 64) with 18446744073709551616 in *;
  Z.div_mod_to_equations; lia.

Lemma s32_range z : normalized_value (s32 z).
Proof. words. Qed.

Lemma s32_of_normalized z : normalized_value z -> s32 z = z.
Proof. words. Qed.

Lemma u32_s32 z : u32 (s32 z) = u32 z.
Proof. words. Qed.

Lemma u32_s64 z : u32 (s64 z) = u32 z.
Proof. words. Qed.

Lemma s64_of_s32 z : s64 (s32 z) = s32 z.
Proof. words. Qed.

Lemma s32_u32 z : s32 (u32 z) = s32 z.
Proof. words. Qed.

Lemma u32_add_l a b : u32 (u32 a + b) = u32 (a + b).
Proof. words. Qed.

Lemma u32_sub_l a b : u32 (u32 a - b) = u32 (a - b).
Proof. words. Qed.

Lemma s32_congr a b : u32 a = u32 b -> s32 a = s32 b.
Proof. words. Qed.

(** ** Bits of normalized values *)

Lemma high_bits_clear_range x n :
  0 <= n -> (forall i, n <= i -> Z.testbit x i = false) -> 0 <= x < 2 ^ n.
Proof.
  intros Hn Hb.
  assert (E : x = x mod 2 ^ n).
  { apply Z.bits_inj'. intros i Hi. rewrite Z.testbit_mod_pow2 by assumption.
    destruct (Z.ltb_spec i n); simpl; auto. }
  rewrite E. apply Z.mod_pos_bound. apply Z.pow_pos_nonneg; lia.
Qed.

Lemma range_high_bits_clear x n :
  0 <= n -> 0 <= x < 2 ^ n -> forall i, n <= i -> Z.testbit x i = false.
Proof.
  intros Hn [H0 H1] i Hi.
  destruct (Z.eq_dec x 0) as [-> | Hx]; [apply Z.bits_0 |].
  apply Z.bits_above_log2; [lia |].
  apply Z.lt_le_trans with n; [| assumption].
  apply Z.log2_lt_pow2; lia.
Qed.

Lemma normalized_bits x :
  normalized_value x <-> (forall i, 31 <= i -> Z.testbit x i = Z.testbit x 31).
Proof.
  unfold normalized_value. split.
  - intros [Hlo Hhi] i Hi. destruct (Z_lt_le_dec x 0) as [Hneg | Hpos].
    + assert (Hn : forall k, 31 <= k -> Z.testbit (Z.lnot x) k = false).
      { apply range_high_bits_clear; [lia |]. unfold Z.lnot. lia. }
      pose proof (Hn i Hi) as Hi'. pose proof (Hn 31 ltac:(lia)) as H31.
      rewrite Z.lnot_spec in Hi', H31 by lia.
      destruct (Z.testbit x i), (Z.testbit x 31); simpl in *; congruence.
    + rewrite !(range_high_bits_clear (n := 31)); auto; lia.
  - intros Hb. destruct (Z.testbit x 31) eqn:E31.
    + assert (Hr : 0 <= Z.lnot x < 2 ^ 31).
      { apply high_bits_clear_range; [lia |]. intros i Hi.
        rewrite Z.lnot_spec by lia. now rewrite Hb. }
      unfold Z.lnot in Hr. lia.
    + assert (Hr : 0 <= x < 2 ^ 31) by (apply high_bits_clear_range; [lia | auto]).
      lia.
Qed.

Lemma normalized_land a b :
  normalized_value a -> normalized_value b -> normalized_value (Z.land a b).
Proof.
  rewrite !normalized_bits. intros Ha Hb i Hi.
  now rewrite !Z.land_spec, Ha, Hb.
Qed.

Lemma normalized_lor a b :
  normalized_value a -> normalized_value b -> normalized_value (Z.lor a b).
Proof.
  rewrite !normalized_bits. intros Ha Hb i Hi.
  now rewrite !Z.lor_spec, Ha, Hb.
Qed.

Lemma land_nonneg_normalized a c :
  0 <= c < 2 ^ 31 -> normalized_value (Z.land a c).
Proof.
  intros Hc.
  assert (H : 0 <= Z.land a c < 2 ^ 31).
  { apply high_bits_clear_range; [lia |]. intros i Hi.
    rewrite Z.land_spec, (@range_high_bits_clear c 31) by (assumption || lia).
    apply andb_false_r. }
  unfold normalized_value. lia.
Qed.

Lemma land_bit31 c : Z.land c 0x80000000 = if Z.testbit c 31 then 2 ^ 31 else 0.
Proof.
  apply Z.bits_inj'. intros i Hi.
  change 0x80000000 with (2 ^ 31).
  rewrite Z.land_spec, Z.pow2_bits_eqb by lia.
  destruct (Z.testbit c 31) eqn:E31.
  - rewrite Z.pow2_bits_eqb by lia.
    destruct (Z.eqb_spec 31 i) as [<- | Hne]; [now rewrite E31 | apply andb_false_r].
  - rewrite Z.bits_0.
    destruct (Z.eqb_spec 31 i) as [<- | Hne]; [now rewrite E31 | apply andb_false_r].
Qed.

Lemma sign_bit_set_testbit c : sign_bit_set c = Z.testbit c 31.
Proof.
  unfold sign_bit_set. rewrite land_bit31.
  destruct (Z.testbit c 31); reflexivity.
Qed.

Lemma sign_bit_clear_s32 c : sign_bit_set c = false -> 0 <= s32 c < 2 ^ 31.
Proof.
  rewrite sign_bit_set_testbit. intros Hb.
  assert (E : c mod 2 ^ 32 = c mod 2 ^ 31).
  { apply Z.bits_inj'. intros i Hi. rewrite !Z.testbit_mod_pow2 by lia.
    destruct (Z.ltb_spec i 32), (Z.ltb_spec i 31); simpl; auto; try lia.
    assert (i = 31) as -> by lia. assumption. }
  pose proof (Z.mod_pos_bound c (2 ^ 31) ltac:(lia)) as Hr.
  assert (s32 c = c mod 2 ^ 32) as ->; [| rewrite E; lia].
  rewrite <- E in Hr. revert Hr. clear. intros Hr. words.
Qed.

(** ** The register cache calls *)

Ltac cache_step :=
  match goal with
  | |- context [upd _ _ _ _] => unfold upd
  | |- context [Nat.eqb ?a ?a] => rewrite (Nat.eqb_refl a)
  | H : ?a <> ?b |- context [Nat.eqb ?a ?b] =>
      rewrite (proj2 (Nat.eqb_neq a b) H)
  | H : ?a <> ?b |- context [Nat.eqb ?b ?a] =>
      rewrite (proj2 (Nat.eqb_neq b a) (not_eq_sym H))
  | H : hostReg (?g ?v) = _ |- context [hostReg (?g ?v)] => rewrite H
  | H : asPointer (?g ?v) = _ |- context [asPointer (?g ?v)] => rewrite H
  | |- context [hostReg (?g ?v)] =>
      is_var g; let E := fresh "E" in destruct (hostReg (g v)) eqn:E
  | |- context [asPointer (?g ?v)] =>
      is_var g; let E := fresh "E" in destruct (asPointer (g v)) eqn:E
  | _ => progress simpl
  end.

Ltac cache_cases := repeat cache_step.

Lemma MapDirtyIn_spec alloc g rd rs type m :
  always_load type = false ->
  exists nd ns,
    hostReg (fst (MapDirtyIn alloc g rd rs type) rd) = Some nd /\
    asPointer (fst (MapDirtyIn alloc g rd rs type) rd) = false /\
    hostReg (fst (MapDirtyIn alloc g rd rs type) rs) = Some ns /\
    asPointer (fst (MapDirtyIn alloc g rd rs type) rs) = false /\
    normalized32 (fst (MapDirtyIn alloc g rd rs type) rd) = marks_norm32 type /\
    isDirty (fst (MapDirtyIn alloc g rd rs type) rd) = true /\
    u32 (get (exec (snd (MapDirtyIn alloc g rd rs type)) m) (X ns)) = guestValue g m rs.
Proof.
  intros Hload. unfold MapDirtyIn, guestValue. rewrite Hload. simpl.
  destruct (Nat.eqb_spec rd rs) as [-> | Hne].
  - unfold MapRegDirty, MapRegIn. cache_cases;
      eexists _, _; repeat split; cache_cases; try reflexivity;
      rewrite ?get_set_same by discriminate; rewrite ?u32_s64, ?u32_s32;
      try reflexivity; try congruence.
  - unfold MapRegDirty, MapRegIn. cache_cases;
      eexists _, _; repeat split; cache_cases; try reflexivity;
      rewrite ?get_set_same by discriminate; rewrite ?u32_s64, ?u32_s32;
      try reflexivity; try congruence.
Qed.

Lemma gpr_call_eq f j :
  gpr_call f j =
  Ret tt {| gpr := fst (f (gpr j)); code := code j ++ map Host (snd (f (gpr j)));
            reports := reports j |}.
Proof. unfold gpr_call. destruct (f (gpr j)); reflexivity. Qed.

Lemma code_snoc l c i : (l ++ map Host c) ++ [Host i] = l ++ map Host (c ++ [i]).
Proof. now rewrite map_app, app_assoc. Qed.

Lemma code_snoc2 l c i1 i2 :
  ((l ++ map Host c) ++ [Host i1]) ++ [Host i2] = l ++ map Host (c ++ [i1; i2]).
Proof. now rewrite map_app, <- !app_assoc. Qed.

(** ** Arithmetic of the emitted sequences *)

Lemma subw_result a c : u32 (s32 (a - s64 (s32 c))) = u32 (u32 a - c).
Proof. words. Qed.

Lemma addw_result a c : u32 (s32 (a + s64 (s32 c))) = u32 (u32 a + c).
Proof. words. Qed.

Lemma addiw_result a c : u32 (s32 (a + s32 c)) = u32 (u32 a + c).
Proof. words. Qed.

Lemma addi_ptr_result x b c : u32 (s64 (x + s32 c) - b) = u32 (u32 (x - b) + c).
Proof. words. Qed.

Lemma negated_constant c :
  -2047 <= s32 c <= 2048 -> s32 (u32 (- s32 c)) = - s32 c.
Proof. words. Qed.

Lemma u32_add_negated a c : u32 (a + u32 (- s32 c)) = u32 (a - c).
Proof. words. Qed.

(** ** Running the routines *)

Ltac run_jit :=
  repeat (progress (unfold bind, CONDITIONAL_DISABLE, ret, the_gpr, emit,
                    gpr_MapDirtyIn, gpr_MapDirtyInIn, gpr_MarkDirty,
                    gpr_MarkPtrDirty, gpr_mark;
                    rewrite ?gpr_call_eq;
                    cbn [gpr code reports fst snd map final]));
  rewrite ?app_nil_r.

Lemma RewriteSubConst_fires inst :
  op inst = IROp.SubConst ->
  -2047 <= s32 (constant inst) <= 2048 ->
  RewriteSubConst inst =
  {| op := IROp.AddConst; dest := dest inst; src1 := src1 inst; src2 := src2 inst;
     constant := u32 (- s32 (constant inst)) |}.
Proof.
  intros Hop Hr. unfold RewriteSubConst. rewrite Hop. simpl.
  destruct (Z.leb_spec (-2047) (s32 (constant inst))); [| lia].
  destruct (Z.leb_spec (s32 (constant inst)) 2048); [| lia].
  reflexivity.
Qed.

Lemma RewriteSubConst_skips inst :
  ~ -2047 <= s32 (constant inst) <= 2048 -> RewriteSubConst inst = inst.
Proof.
  intros Hr. unfold RewriteSubConst.
  destruct (is_SubConst (op inst)); simpl; [| reflexivity].
  destruct (Z.leb_spec (-2047) (s32 (constant inst))); simpl; [| reflexivity].
  destruct (Z.leb_spec (s32 (constant inst)) 2048); simpl; [lia | reflexivity].
Qed.

Lemma RewriteSubConst_other inst :
  is_SubConst (op inst) = false -> RewriteSubConst inst = inst.
Proof. intros H. unfold RewriteSubConst. now rewrite H. Qed.

Lemma in_range_test c :
  -2048 <= c <= 2047 -> (-2048 <=? c) && (c <=? 2047) = true.
Proof. intros. apply andb_true_intro. split; apply Z.leb_le; lia. Qed.

Lemma out_of_range_test c :
  ~ -2048 <= c <= 2047 -> (-2048 <=? c) && (c <=? 2047) = false.
Proof.
  intros. destruct (Z.leb_spec (-2048) c), (Z.leb_spec c 2047); simpl; auto; lia.
Qed.

(** The general add-constant path with an encodable constant. *)
Lemma AddConst_general_value alloc g d s c m :
  let gc := MapDirtyIn alloc g d s MapType.AVOID_LOAD_MARK_NORM32 in
  guestValue (fst gc) (exec (snd gc ++ [ADDIW (R (fst gc) d) (R (fst gc) s) (s32 c)]) m) d
  = u32 (guestValue g m s + c).
Proof.
  intros gc.
  destruct (MapDirtyIn_spec alloc g d s MapType.AVOID_LOAD_MARK_NORM32 m eq_refl)
    as (nd & ns & Hd & Pd & Hs & Ps & _ & _ & Hv).
  fold gc in Hd, Pd, Hs, Ps, Hv.
  rewrite exec_app. unfold guestValue at 1, R. rewrite Hd, Pd, Hs, Ps. simpl.
  rewrite get_set_same by discriminate.
  rewrite <- Hv. apply addiw_result.
Qed.

(** The materialized add-constant path. *)
Lemma AddConst_scratch_value alloc g d s c m :
  let gc := MapDirtyIn alloc g d s MapType.AVOID_LOAD_MARK_NORM32 in
  guestValue (fst gc)
    (exec (snd gc ++ [LI SCRATCH1 (s32 c); ADDW (R (fst gc) d) (R (fst gc) s) SCRATCH1]) m) d
  = u32 (guestValue g m s + c).
Proof.
  intros gc.
  destruct (MapDirtyIn_spec alloc g d s MapType.AVOID_LOAD_MARK_NORM32 m eq_refl)
    as (nd & ns & Hd & Pd & Hs & Ps & _ & _ & Hv).
  fold gc in Hd, Pd, Hs, Ps, Hv.
  rewrite exec_app. unfold guestValue at 1, R. rewrite Hd, Pd, Hs, Ps. simpl.
  rewrite get_set_same by discriminate.
  rewrite <- Hv. apply addw_result.
Qed.

(** The materialized subtract-constant path. *)
Lemma SubConst_scratch_value alloc g d s c m :
  let gc := MapDirtyIn alloc g d s MapType.AVOID_LOAD_MARK_NORM32 in
  guestValue (fst gc)
    (exec (snd gc ++ [LI SCRATCH1 (s32 c); SUBW (R (fst gc) d) (R (fst gc) s) SCRATCH1]) m) d
  = u32 (guestValue g m s - c).
Proof.
  intros gc.
  destruct (MapDirtyIn_spec alloc g d s MapType.AVOID_LOAD_MARK_NORM32 m eq_refl)
    as (nd & ns & Hd & Pd & Hs & Ps & _ & _ & Hv).
  fold gc in Hd, Pd, Hs, Ps, Hv.
  rewrite exec_app. unfold guestValue at 1, R. rewrite Hd, Pd, Hs, Ps. simpl.
  rewrite get_set_same by discriminate.
  rewrite <- Hv. apply subw_result.
Qed.

Lemma MarkPtrDirty_entry g h v :
  hostReg (MarkPtrDirty g h v) = hostReg (g v) /\
  asPointer (MarkPtrDirty g h v) = asPointer (g v).
Proof.
  unfold MarkPtrDirty, RPtr.
  destruct (hostReg (g v)) as [n |] eqn:E; [destruct (asPointer (g v)) eqn:P |];
    destruct h; simpl; try (now rewrite ?E, ?P);
    destruct (Nat.eqb n n0); simpl; now rewrite ?E, ?P.
Qed.

Lemma RPtr_MarkPtrDirty g h v : RPtr (MarkPtrDirty g h) v = RPtr g v.
Proof.
  unfold RPtr. destruct (MarkPtrDirty_entry g h v) as [-> ->]. reflexivity.
Qed.

Lemma IsMappedAsPointer_MarkPtrDirty g h v :
  IsMappedAsPointer (MarkPtrDirty g h) v = IsMappedAsPointer g v.
Proof.
  unfold IsMappedAsPointer. destruct (MarkPtrDirty_entry g h v) as [-> ->]. reflexivity.
Qed.

(** The pointer path: one [ADDI] on the pointer register. *)
Lemma AddConst_pointer_value g d c m :
  IsMappedAsPointer g d = true ->
  guestValue (MarkPtrDirty g (RPtr g d))
    (exec [ADDI (RPtr g d) (RPtr g d) (s32 c)] m) d
  = u32 (guestValue g m d + c).
Proof.
  unfold IsMappedAsPointer, guestValue, MarkPtrDirty, RPtr.
  destruct (hostReg (g d)) as [n |] eqn:E; [| discriminate].
  intros ->. simpl. rewrite Nat.eqb_refl. simpl.
  rewrite get_set_same, get_set_other by discriminate.
  apply addi_ptr_result.
Qed.

(** ** Dispatch: default cases and deferred opcodes *)

Lemma INVALIDOP_eq cfg inst j :
  INVALIDOP cfg inst j =
  if HandleAssert cfg {| fmt := "Invalid IR inst %d"; arg := op inst |}
  then CompIR_Generic inst
         {| gpr := gpr j; code := code j;
            reports := reports j ++ [{| fmt := "Invalid IR inst %d"; arg := op inst |}] |}
  else Crash
         {| gpr := gpr j; code := code j;
            reports := reports j ++ [{| fmt := "Invalid IR inst %d"; arg := op inst |}] |}.
Proof.
  unfold INVALIDOP, bind, _assert_msg_.
  now destruct (HandleAssert cfg _).
Qed.

Ltac default_case E :=
  unfold CompIR_Arith, CompIR_Logic, CompIR_Assign, CompIR_Bits, CompIR_Shift,
    CompIR_Compare, CompIR_CondAssign, CompIR_HiLo, CompIR_Mult, CompIR_Div;
  rewrite ?RewriteSubConst_other by (rewrite E; reflexivity);
  rewrite E; unfold bind at 1, CONDITIONAL_DISABLE, ret;
  reflexivity.

(** What the default case of every routine does. *)
Lemma default_case_is_INVALIDOP cfg g inst j :
  declared g (op inst) = false -> CompIR cfg g inst j = INVALIDOP cfg inst j.
Proof.
  intros H.
  destruct g; cbn [CompIR]; destruct (op inst) eqn:E;
    try discriminate H; default_case E.
Qed.

(** C5, as the code has it: an opcode that reaches a routine's default
    case makes the routine report a failed assertion whose diagnostic
    carries the offending opcode.  If the assertion handler stops the
    process, translation ends there with nothing emitted; if it lets
    execution continue, the instruction is handed to the generic fallback
    and the routine returns normally. *)
Theorem default_case_reports_then_falls_back cfg g inst j :
  declared g (op inst) = false ->
  let d := {| fmt := "Invalid IR inst %d"; arg := op inst |} in
  let j1 := {| gpr := gpr j; code := code j; reports := reports j ++ [d] |} in
  reports (final (CompIR cfg g inst j)) = reports j ++ [d] /\
  (HandleAssert cfg d = false -> CompIR cfg g inst j = Crash j1) /\
  (HandleAssert cfg d = true ->
   CompIR cfg g inst j = CompIR_Generic inst j1 /\
   crashed (CompIR cfg g inst j) = false /\
   code (final (CompIR cfg g inst j)) = code j ++ [CallGeneric inst]).
Proof.
  intros H d j1. rewrite (default_case_is_INVALIDOP cfg g inst j H), INVALIDOP_eq.
  fold d. fold j1.
  destruct (HandleAssert cfg d); repeat split; try discriminate; reflexivity.
Qed.

Lemma default_case_reports_then_falls_back_witness :
  let inst := {| op := IROp.Mult; dest := 1%nat; src1 := 2%nat; src2 := 3%nat;
                 constant := 0 |} in
  let d := {| fmt := "Invalid IR inst %d"; arg := IROp.Mult |} in
  declared Group.Arith (op inst) = false /\
  CompIR (sample_cfg true false) Group.Arith inst (jit_of empty_gpr)
  = Crash {| gpr := empty_gpr; code := []; reports := [d] |}.
Proof.
  intros inst d. split; [reflexivity |].
  exact (proj1 (proj2 (default_case_reports_then_falls_back (sample_cfg true false)
                         Group.Arith inst (jit_of empty_gpr) eq_refl)) eq_refl).
Defined.

(** With an assertion handler that lets execution continue, a multiply
    that reaches the default case of [CompIR_Arith] does not abort the
    translation: it is reported, handed to the generic fallback, and the
    routine returns. *)
Lemma default_case_can_continue :
  let inst := {| op := IROp.Mult; dest := 1%nat; src1 := 2%nat; src2 := 3%nat;
                 constant := 0 |} in
  let o := CompIR (sample_cfg true true) Group.Arith inst (jit_of empty_gpr) in
  declared Group.Arith (op inst) = false /\
  crashed o = false /\
  code (final o) = [CallGeneric inst] /\
  reports (final o) = [{| fmt := "Invalid IR inst %d"; arg := IROp.Mult |}].
Proof. repeat split. Qed.

Ltac declared_case E :=
  unfold CompIR_Arith, CompIR_Logic, CompIR_Assign, CompIR_Bits, CompIR_Shift,
    CompIR_Compare, CompIR_CondAssign, CompIR_HiLo, CompIR_Mult, CompIR_Div,
    RewriteSubConst;
  repeat first
    [ rewrite E
    | progress cbn [is_SubConst andb op]
    | match goal with
      | |- context [if ?c then _ else _] => destruct c
      end
    | progress run_jit ];
  unfold CompIR_Generic; split; reflexivity.

(** No case label leads to the assertion. *)
Lemma declared_case_no_report cfg g inst j :
  declared g (op inst) = true ->
  crashed (CompIR cfg g inst j) = false /\
  reports (final (CompIR cfg g inst j)) = reports j.
Proof.
  intros H.
  destruct g; cbn [CompIR]; destruct (op inst) eqn:E;
    try discriminate H; declared_case E.
Qed.

(** Of the 32 opcodes the seven routines concerned have a case label
    for, all but [BSwap32] are deferred. *)
Example deferred_count :
  List.length
    (filter (fun o => match deferred o with Some _ => true | None => false end)
       [IROp.ReverseBits; IROp.BSwap16; IROp.BSwap32; IROp.Clz; IROp.Shl; IROp.Shr;
        IROp.Sar; IROp.Ror; IROp.ShlImm; IROp.ShrImm; IROp.SarImm; IROp.RorImm;
        IROp.Slt; IROp.SltConst; IROp.SltU; IROp.SltUConst; IROp.MovZ; IROp.MovNZ;
        IROp.Max; IROp.Min; IROp.MtLo; IROp.MtHi; IROp.MfLo; IROp.MfHi; IROp.Mult;
        IROp.MultU; IROp.Madd; IROp.MaddU; IROp.Msub; IROp.MsubU; IROp.Div;
        IROp.DivU]) = 31%nat.
Proof. reflexivity. Qed.

(** ** Subtract-constant *)

(** C1: for every constant [C], lowering [SubConst(dest, src, C)] emits
    host code after which [dest] holds [src - C] modulo 2^32.  The rewrite
    to [AddConst] with the negated constant fires exactly when
    [-2047 <= (int32_t)C <= 2048], and the negated constant is then
    encodable; otherwise the constant is materialized in [SCRATCH1] and a
    register-register [SUBW] is emitted.  Either way the value is the
    same. *)
Theorem SubConst_lowering_exact cfg inst j m :
  op inst = IROp.SubConst ->
  (op (RewriteSubConst inst) = IROp.AddConst
   <-> -2047 <= s32 (constant inst) <= 2048) /\
  (-2047 <= s32 (constant inst) <= 2048 ->
   constant (RewriteSubConst inst) = u32 (- s32 (constant inst)) /\
   encodable_simm12 (s32 (constant (RewriteSubConst inst))) /\
   CompIR_Arith cfg inst j = CompIR_Arith cfg (RewriteSubConst inst) j) /\
  (~ -2047 <= s32 (constant inst) <= 2048 ->
   let gc := MapDirtyIn (AllocateReg cfg) (gpr j) (dest inst) (src1 inst)
               MapType.AVOID_LOAD_MARK_NORM32 in
   CompIR_Arith cfg inst j =
   Ret tt {| gpr := fst gc;
             code := code j ++ map Host
                       (snd gc ++ [LI SCRATCH1 (s32 (constant inst));
                                   SUBW (R (fst gc) (dest inst))
                                        (R (fst gc) (src1 inst)) SCRATCH1]);
             reports := reports j |}) /\
  exists j' c,
    CompIR_Arith cfg inst j = Ret tt j' /\
    code j' = code j ++ map Host c /\
    reports j' = reports j /\
    guestValue (gpr j') (exec c m) (dest inst)
    = u32 (guestValue (gpr j) m (src1 inst) - constant inst).
Proof.
  intros Hop.
  assert (Hout : ~ -2047 <= s32 (constant inst) <= 2048 ->
                 CompIR_Arith cfg inst j =
                 Ret tt {| gpr := fst (MapDirtyIn (AllocateReg cfg) (gpr j) (dest inst)
                                         (src1 inst) MapType.AVOID_LOAD_MARK_NORM32);
                           code := code j ++ map Host
                             (snd (MapDirtyIn (AllocateReg cfg) (gpr j) (dest inst)
                                     (src1 inst) MapType.AVOID_LOAD_MARK_NORM32)
                              ++ [LI SCRATCH1 (s32 (constant inst));
                                  SUBW (R (fst (MapDirtyIn (AllocateReg cfg) (gpr j)
                                                 (dest inst) (src1 inst)
                                                 MapType.AVOID_LOAD_MARK_NORM32))
                                          (dest inst))
                                       (R (fst (MapDirtyIn (AllocateReg cfg) (gpr j)
                                                 (dest inst) (src1 inst)
                                                 MapType.AVOID_LOAD_MARK_NORM32))
                                          (src1 inst)) SCRATCH1]);
                           reports := reports j |}).
  { intros Hr. unfold CompIR_Arith. rewrite (RewriteSubConst_skips _ Hr), Hop.
    run_jit. now rewrite code_snoc2. }
  split; [| split; [| split]].
  - split.
    + intros Hadd.
      destruct (Z_le_dec (-2047) (s32 (constant inst))) as [H1 | H1];
        [destruct (Z_le_dec (s32 (constant inst)) 2048) as [H2 | H2]; [lia |] |];
        rewrite RewriteSubConst_skips in Hadd by lia; congruence.
    + intros Hr. now rewrite RewriteSubConst_fires.
  - intros Hr. rewrite RewriteSubConst_fires by assumption. cbn [constant].
    split; [reflexivity | split].
    + rewrite negated_constant by assumption. unfold encodable_simm12. lia.
    + unfold CompIR_Arith at 2.
      rewrite (RewriteSubConst_other
                 {| op := IROp.AddConst; dest := dest inst; src1 := src1 inst;
                    src2 := src2 inst; constant := u32 (- s32 (constant inst)) |})
        by reflexivity.
      unfold CompIR_Arith. now rewrite RewriteSubConst_fires.
  - exact Hout.
  - destruct (Z_le_dec (-2047) (s32 (constant inst))) as [H1 | H1];
      [destruct (Z_le_dec (s32 (constant inst)) 2048) as [H2 | H2] |].
    + (* the rewrite fires *)
      unfold CompIR_Arith. rewrite RewriteSubConst_fires by (auto; lia).
      cbn [op constant dest src1]. unfold bind at 1, CONDITIONAL_DISABLE, ret.
      rewrite in_range_test by (rewrite negated_constant; lia).
      unfold bind at 1, the_gpr.
      destruct (IsMappedAsPointer (gpr j) (src1 inst) && Nat.eqb (dest inst) (src1 inst)
                && MASKED_PSP_MEMORY cfg) eqn:Eptr.
      * apply andb_prop in Eptr as [Eptr _]. apply andb_prop in Eptr as [Hp Heq].
        apply Nat.eqb_eq in Heq. run_jit.
        eexists _, [_]. repeat split; cbn [gpr code reports map].
        rewrite <- Heq in *. rewrite !RPtr_MarkPtrDirty.
        rewrite AddConst_pointer_value by assumption.
        apply u32_add_negated.
      * run_jit. eexists _, _. repeat split; cbn [gpr code reports].
        { apply code_snoc. }
        rewrite AddConst_general_value. apply u32_add_negated.
    + rewrite Hout by lia. eexists _, _. repeat split. apply SubConst_scratch_value.
    + rewrite Hout by lia. eexists _, _. repeat split. apply SubConst_scratch_value.
Qed.

Lemma SubConst_lowering_exact_witness :
  let inst := {| op := IROp.SubConst; dest := 2%nat; src1 := 3%nat; src2 := 0%nat;
                 constant := 3000 |} in
  op inst = IROp.SubConst /\
  exists j' c,
    CompIR_Arith (sample_cfg true false) inst (jit_of empty_gpr) = Ret tt j' /\
    code j' = code (jit_of empty_gpr) ++ map Host c /\
    reports j' = reports (jit_of empty_gpr) /\
    guestValue (gpr j') (exec c sample_machine) (dest inst)
    = u32 (guestValue (gpr (jit_of empty_gpr)) sample_machine (src1 inst)
           - constant inst).
Proof.
  intros inst. split; [reflexivity |].
  exact (proj2 (proj2 (proj2
    (SubConst_lowering_exact (sample_cfg true false) inst (jit_of empty_gpr)
       sample_machine eq_refl)))).
Defined.

(** The scenario of the specification: [SubConst(dest=r2, src1=r3,
    constant=3000)] is out of the rewrite range and gets the subtract
    with a materialized constant. *)
Example SubConst_3000 :
  code (final (CompIR_Arith (sample_cfg true false)
                 {| op := IROp.SubConst; dest := 2%nat; src1 := 3%nat; src2 := 0%nat;
                    constant := 3000 |} (jit_of empty_gpr)))
  = [Host (LW (X 3) CTXREG 3%nat); Host (LI SCRATCH1 3000);
     Host (SUBW (X 2) (X 3) SCRATCH1)].
Proof. reflexivity. Qed.

(** A subtract of 5 is rewritten to an add of -5. *)
Example SubConst_5 :
  code (final (CompIR_Arith (sample_cfg true false)
                 {| op := IROp.SubConst; dest := 2%nat; src1 := 3%nat; src2 := 0%nat;
                    constant := 5 |} (jit_of empty_gpr)))
  = [Host (LW (X 3) CTXREG 3%nat); Host (ADDIW (X 2) (X 3) (-5))].
Proof. reflexivity. Qed.

(** At [-2048] the negation is out of the immediate range: no rewrite. *)
Example SubConst_minus_2048 :
  code (final (CompIR_Arith (sample_cfg true false)
                 {| op := IROp.SubConst; dest := 2%nat; src1 := 3%nat; src2 := 0%nat;
                    constant := 0xFFFFF800 |} (jit_of empty_gpr)))
  = [Host (LW (X 3) CTXREG 3%nat); Host (LI SCRATCH1 (-2048));
     Host (SUBW (X 2) (X 3) SCRATCH1)].
Proof. reflexivity. Qed.

(** ** Constant operands: immediate form or scratch form *)

(** The two forms leave the same value in every register but the
    scratch register, whatever the constant. *)
Lemma forms_agree o nd ns c m r :
  is_const_op o = true -> r <> SCRATCH1 ->
  get (exec (immediate_form o (X nd) (X ns) (s32 c)) m) r
  = get (exec (scratch_form o (X nd) (X ns) (s32 c)) m) r.
Proof.
  intros Ho Hr.
  destruct o; try discriminate; cbn [immediate_form scratch_form exec exec_inst];
    rewrite (@get_set_other m SCRATCH1 (X ns)) by discriminate;
    rewrite (@get_set_same m SCRATCH1) by discriminate;
    rewrite s64_of_s32;
    (destruct (RiscVReg_eqb_spec r (X nd)) as [-> | Hne];
     [now rewrite !get_set_same by discriminate
     | now rewrite !(@get_set_other _ (X nd) r), get_set_other by assumption]).
Qed.

(** C3: for [AddConst], [AndConst], [OrConst] and [XorConst], a constant
    with [-2048 <= (int32_t)C <= 2047] is lowered with the single
    immediate-form instruction (on the pointer register when an
    add-constant takes the pointer path), and a constant outside that
    range by loading it into [SCRATCH1] and emitting the register-register
    form.  On the host registers of this lowering the two forms leave
    bit-identical values at the boundary constants -2048, -2047, 2047 and
    2048 (the immediate form read with the sign-extended constant as its
    operand; at 2048 only the scratch form is encodable, and it is the one
    emitted). *)
Theorem constant_operand_forms cfg inst j :
  is_const_op (op inst) = true ->
  let C := s32 (constant inst) in
  let gc := MapDirtyIn (AllocateReg cfg) (gpr j) (dest inst) (src1 inst)
              (const_map_type (op inst)) in
  let rd := R (fst gc) (dest inst) in
  let rs := R (fst gc) (src1 inst) in
  crashed (const_routine cfg (op inst) inst j) = false /\
  reports (final (const_routine cfg (op inst) inst j)) = reports j /\
  (-2048 <= C <= 2047 ->
   code (final (const_routine cfg (op inst) inst j))
   = code j ++ map Host
       (if pointer_path cfg (gpr j) inst
        then [ADDI (RPtr (gpr j) (dest inst)) (RPtr (gpr j) (dest inst)) C]
        else snd gc ++ immediate_form (op inst) rd rs C)) /\
  (~ -2048 <= C <= 2047 ->
   code (final (const_routine cfg (op inst) inst j))
   = code j ++ map Host (snd gc ++ scratch_form (op inst) rd rs C)) /\
  (forall B, In B [-2048; -2047; 2047; 2048] ->
   forall m r, r <> SCRATCH1 ->
   get (exec (immediate_form (op inst) rd rs B) m) r
   = get (exec (scratch_form (op inst) rd rs B) m) r).
Proof.
  intros Hop C gc rd rs.
  destruct (MapDirtyIn_spec (AllocateReg cfg) (gpr j) (dest inst) (src1 inst)
              (const_map_type (op inst)) sample_machine) as
    (nd & ns & Hd & Pd & Hs & Ps & _).
  { destruct (op inst); reflexivity. }
  assert (Erd : rd = X nd) by (unfold rd, gc, R; now rewrite Hd, Pd).
  assert (Ers : rs = X ns) by (unfold rs, gc, R; now rewrite Hs, Ps).
  assert (Hret : crashed (const_routine cfg (op inst) inst j) = false /\
                 reports (final (const_routine cfg (op inst) inst j)) = reports j).
  { destruct (op inst) eqn:Eop; try discriminate; cbn [const_routine];
      [apply (declared_case_no_report cfg Group.Arith inst j)
      | apply (declared_case_no_report cfg Group.Logic inst j) ..];
      now rewrite Eop. }
  split; [apply Hret |]. split; [apply Hret |].
  split; [| split].
  - intros Hr. unfold pointer_path.
    destruct (op inst) eqn:Eop; try discriminate; cbn [const_routine];
      unfold CompIR_Arith, CompIR_Logic;
      rewrite ?RewriteSubConst_other by (now rewrite Eop);
      rewrite Eop; fold C; rewrite (in_range_test Hr).
    + unfold bind at 1, CONDITIONAL_DISABLE, ret. unfold bind at 1, the_gpr.
      destruct (IsMappedAsPointer (gpr j) (src1 inst) && Nat.eqb (dest inst) (src1 inst)
                && MASKED_PSP_MEMORY cfg).
      * run_jit. now rewrite !RPtr_MarkPtrDirty.
      * run_jit. apply code_snoc.
    + run_jit.
      destruct (sign_bit_set (constant inst) && _);
        [| destruct (Z.land (constant inst) 2147483648 =? 0)];
        run_jit; rewrite ?app_nil_r; apply code_snoc.
    + run_jit. destruct (IsNormalized32 _ _); run_jit; rewrite ?app_nil_r; apply code_snoc.
    + run_jit. apply code_snoc.
  - intros Hr.
    destruct (op inst) eqn:Eop; try discriminate; cbn [const_routine];
      unfold CompIR_Arith, CompIR_Logic;
      rewrite ?RewriteSubConst_other by (now rewrite Eop);
      rewrite Eop; fold C; rewrite (out_of_range_test Hr).
    + run_jit. apply code_snoc2.
    + run_jit.
      destruct (sign_bit_set (constant inst) && _);
        [| destruct (Z.land (constant inst) 2147483648 =? 0)];
        run_jit; rewrite ?app_nil_r; apply code_snoc2.
    + run_jit. destruct (IsNormalized32 _ _); run_jit; rewrite ?app_nil_r; apply code_snoc2.
    + run_jit. apply code_snoc2.
  - intros B HB m r Hr. rewrite Erd, Ers.
    assert (EB : B = s32 B).
    { simpl in HB. symmetry. apply s32_of_normalized. unfold normalized_value.
      intuition lia. }
    rewrite EB. now apply forms_agree.
Qed.

Lemma constant_operand_forms_witness :
  let inst := {| op := IROp.AndConst; dest := 2%nat; src1 := 3%nat; src2 := 0%nat;
                 constant := 0xFFFFF800 |} in
  is_const_op (op inst) = true /\
  code (final (CompIR_Logic (sample_cfg true false) inst (jit_of empty_gpr)))
  = [Host (LW (X 3) CTXREG 3%nat); Host (ANDI (X 2) (X 3) (-2048))].
Proof.
  intros inst. split; [reflexivity |].
  refine (proj1 (proj2 (proj2 (constant_operand_forms (sample_cfg true false) inst
                                 (jit_of empty_gpr) eq_refl))) _).
  cbv. split; discriminate.
Defined.

(** ** Add-constant on a pointer register *)

Lemma MarkPtrDirty_dirty g d :
  IsMappedAsPointer g d = true -> IsDirty (MarkPtrDirty g (RPtr g d)) d = true.
Proof.
  unfold IsMappedAsPointer, IsDirty, MarkPtrDirty, RPtr.
  destruct (hostReg (g d)) as [n |] eqn:E; [| discriminate].
  intros ->. simpl. rewrite Nat.eqb_refl. reflexivity.
Qed.

Lemma MapDirtyIn_code_no_ADDI alloc g rd rs type :
  forallb (fun i => negb (is_ADDI i)) (snd (MapDirtyIn alloc g rd rs type)) = true.
Proof.
  unfold MapDirtyIn, MapRegDirty, MapRegIn.
  destruct (always_load type || Nat.eqb rd rs);
    destruct (hostReg (g rd)) as [n |] eqn:E1;
    try destruct (asPointer (g rd)) eqn:P1; simpl;
    unfold upd; destruct (Nat.eqb rs rd); simpl;
    try rewrite E1; try rewrite P1; simpl; try reflexivity;
    destruct (hostReg (g rs)) as [k |] eqn:E2;
    try destruct (asPointer (g rs)) eqn:P2; reflexivity.
Qed.

(** C4: an [AddConst] with [dest == src1], [src1] mapped as a pointer and
    an encodable constant.  When pointer arithmetic is allowed, the
    lowering emits exactly one [ADDI] on the pointer register, which stays
    pointer-mapped and is marked dirty.  When it is not allowed, the same
    instruction takes the general path ([ADDIW] through the register
    cache), and [dest] ends up with the same guest value. *)
Theorem AddConst_pointer_path cfgP cfgN inst j m :
  op inst = IROp.AddConst ->
  dest inst = src1 inst ->
  IsMappedAsPointer (gpr j) (src1 inst) = true ->
  -2048 <= s32 (constant inst) <= 2047 ->
  MASKED_PSP_MEMORY cfgP = true ->
  MASKED_PSP_MEMORY cfgN = false ->
  let p := RPtr (gpr j) (dest inst) in
  let C := s32 (constant inst) in
  let gc := MapDirtyIn (AllocateReg cfgN) (gpr j) (dest inst) (src1 inst)
              MapType.AVOID_LOAD_MARK_NORM32 in
  exists jP jN,
    (exists n, p = X n) /\
    CompIR_Arith cfgP inst j = Ret tt jP /\
    code jP = code j ++ [Host (ADDI p p C)] /\
    reports jP = reports j /\
    IsMappedAsPointer (gpr jP) (dest inst) = true /\
    RPtr (gpr jP) (dest inst) = p /\
    IsDirty (gpr jP) (dest inst) = true /\
    CompIR_Arith cfgN inst j = Ret tt jN /\
    code jN = code j ++ map Host
                (snd gc ++ [ADDIW (R (fst gc) (dest inst)) (R (fst gc) (src1 inst)) C]) /\
    IsMappedAsPointer (gpr jN) (dest inst) = false /\
    guestValue (gpr jP) (exec [ADDI p p C] m) (dest inst)
    = u32 (guestValue (gpr j) m (src1 inst) + constant inst) /\
    guestValue (gpr jN)
      (exec (snd gc ++ [ADDIW (R (fst gc) (dest inst)) (R (fst gc) (src1 inst)) C]) m)
      (dest inst)
    = guestValue (gpr jP) (exec [ADDI p p C] m) (dest inst).
Proof.
  intros Hop Heq Hptr Hr HP HN p C gc.
  assert (Hptr' : IsMappedAsPointer (gpr j) (dest inst) = true) by now rewrite Heq.
  assert (EP : CompIR_Arith cfgP inst j =
               Ret tt {| gpr := MarkPtrDirty (gpr j) p;
                         code := code j ++ [Host (ADDI p p C)];
                         reports := reports j |}).
  { unfold CompIR_Arith. rewrite RewriteSubConst_other by now rewrite Hop.
    rewrite Hop, (in_range_test Hr). unfold bind at 1, CONDITIONAL_DISABLE, ret.
    unfold bind at 1, the_gpr. rewrite Hptr, Heq, Nat.eqb_refl, HP. cbn [andb]. cbv beta.
    run_jit. rewrite !RPtr_MarkPtrDirty. now rewrite <- Heq. }
  assert (EN : CompIR_Arith cfgN inst j =
               Ret tt {| gpr := fst gc;
                         code := code j ++ map Host
                           (snd gc ++ [ADDIW (R (fst gc) (dest inst))
                                         (R (fst gc) (src1 inst)) C]);
                         reports := reports j |}).
  { unfold CompIR_Arith. rewrite RewriteSubConst_other by now rewrite Hop.
    rewrite Hop, (in_range_test Hr). unfold bind at 1, CONDITIONAL_DISABLE, ret.
    unfold bind at 1, the_gpr. rewrite Hptr, Heq, Nat.eqb_refl, HN. cbn [andb]. cbv beta.
    run_jit. unfold gc, C. rewrite code_snoc. now rewrite <- !Heq. }
  assert (VP : guestValue (MarkPtrDirty (gpr j) p) (exec [ADDI p p C] m) (dest inst)
               = u32 (guestValue (gpr j) m (src1 inst) + constant inst)).
  { unfold p, C. rewrite AddConst_pointer_value by assumption. now rewrite Heq. }
  eexists _, _.
  split.
  { unfold p, RPtr. unfold IsMappedAsPointer in Hptr'.
    destruct (hostReg (gpr j (dest inst))) as [n |]; [| discriminate].
    rewrite Hptr'. now exists n. }
  split; [exact EP |]. cbn [gpr code reports].
  split; [reflexivity |]. split; [reflexivity |].
  split; [now rewrite IsMappedAsPointer_MarkPtrDirty |].
  split; [apply RPtr_MarkPtrDirty |].
  split; [now apply MarkPtrDirty_dirty |].
  split; [exact EN |]. cbn [gpr code reports].
  split; [reflexivity |].
  split.
  - destruct (MapDirtyIn_spec (AllocateReg cfgN) (gpr j) (dest inst) (src1 inst)
                MapType.AVOID_LOAD_MARK_NORM32 m eq_refl) as (nd & ns & Hd & Pd & _).
    unfold IsMappedAsPointer, gc. now rewrite Hd, Pd.
  - split; [exact VP |]. rewrite VP. unfold gc, C. apply AddConst_general_value.
Qed.

Lemma AddConst_pointer_path_witness :
  let inst := {| op := IROp.AddConst; dest := 4%nat; src1 := 4%nat; src2 := 0%nat;
                 constant := 0xFFFFF800 |} in
  let j := jit_of (upd empty_gpr 4%nat (held 4 false true)) in
  (op inst = IROp.AddConst /\ dest inst = src1 inst /\
   IsMappedAsPointer (gpr j) (src1 inst) = true /\
   -2048 <= s32 (constant inst) <= 2047 /\
   MASKED_PSP_MEMORY (sample_cfg true false) = true /\
   MASKED_PSP_MEMORY (sample_cfg false false) = false) /\
  exists jP jN,
    (exists n, RPtr (gpr j) (dest inst) = X n) /\
    CompIR_Arith (sample_cfg true false) inst j = Ret tt jP /\
    code jP = [Host (ADDI (X 4) (X 4) (-2048))] /\
    reports jP = [] /\
    IsMappedAsPointer (gpr jP) 4%nat = true /\
    RPtr (gpr jP) 4%nat = X 4 /\
    IsDirty (gpr jP) 4%nat = true /\
    CompIR_Arith (sample_cfg false false) inst j = Ret tt jN /\
    code jN = [Host (SUB (X 4) (X 4) MEMBASEREG); Host (ADDIW (X 4) (X 4) (-2048))] /\
    IsMappedAsPointer (gpr jN) 4%nat = false /\
    guestValue (gpr jP) (exec [ADDI (X 4) (X 4) (-2048)] sample_machine) 4%nat
    = u32 (guestValue (gpr j) sample_machine 4%nat + 0xFFFFF800) /\
    guestValue (gpr jN)
      (exec [SUB (X 4) (X 4) MEMBASEREG; ADDIW (X 4) (X 4) (-2048)] sample_machine) 4%nat
    = guestValue (gpr jP) (exec [ADDI (X 4) (X 4) (-2048)] sample_machine) 4%nat.
Proof.
  intros inst j.
  assert (Hr : -2048 <= s32 (constant inst) <= 2047) by (cbv; split; discriminate).
  split; [repeat split; try reflexivity; apply Hr |].
  exact (AddConst_pointer_path (sample_cfg true false) (sample_cfg false false)
           inst j sample_machine eq_refl eq_refl eq_refl Hr eq_refl eq_refl).
Defined.

(** C9: an [AddConst] whose constant is outside [-2048..2047] never takes
    the pointer path, whatever the cache and the configuration hold (so
    also when [dest == src1], [src1] is pointer-mapped and pointer
    arithmetic is allowed): the registers go through the cache, the
    constant is loaded into [SCRATCH1] and [ADDW] adds it.  No [ADDI] is
    emitted, [dest] is no longer pointer-mapped, and it holds
    [src1 + constant]. *)
Theorem AddConst_large_constant_general_path cfg inst j m :
  op inst = IROp.AddConst ->
  ~ -2048 <= s32 (constant inst) <= 2047 ->
  let gc := MapDirtyIn (AllocateReg cfg) (gpr j) (dest inst) (src1 inst)
              MapType.AVOID_LOAD_MARK_NORM32 in
  let emitted := snd gc ++ [LI SCRATCH1 (s32 (constant inst));
                            ADDW (R (fst gc) (dest inst)) (R (fst gc) (src1 inst))
                                 SCRATCH1] in
  CompIR_Arith cfg inst j =
  Ret tt {| gpr := fst gc; code := code j ++ map Host emitted; reports := reports j |} /\
  forallb (fun i => negb (is_ADDI i)) emitted = true /\
  IsMappedAsPointer (fst gc) (dest inst) = false /\
  guestValue (fst gc) (exec emitted m) (dest inst)
  = u32 (guestValue (gpr j) m (src1 inst) + constant inst).
Proof.
  intros Hop Hr gc emitted. split; [| split; [| split]].
  - unfold CompIR_Arith. rewrite RewriteSubConst_other by now rewrite Hop.
    rewrite Hop, (out_of_range_test Hr). run_jit. now rewrite code_snoc2.
  - unfold emitted. rewrite forallb_app. unfold gc.
    now rewrite MapDirtyIn_code_no_ADDI.
  - destruct (MapDirtyIn_spec (AllocateReg cfg) (gpr j) (dest inst) (src1 inst)
                MapType.AVOID_LOAD_MARK_NORM32 m eq_refl) as (nd & ns & Hd & Pd & _).
    unfold IsMappedAsPointer, gc. now rewrite Hd, Pd.
  - apply AddConst_scratch_value.
Qed.

Lemma AddConst_large_constant_general_path_witness :
  let inst := {| op := IROp.AddConst; dest := 4%nat; src1 := 4%nat; src2 := 0%nat;
                 constant := 2048 |} in
  let j := jit_of (upd empty_gpr 4%nat (held 4 false true)) in
  (op inst = IROp.AddConst /\ ~ -2048 <= s32 (constant inst) <= 2047) /\
  IsMappedAsPointer (gpr j) (src1 inst) = true /\
  code (final (CompIR_Arith (sample_cfg true false) inst j))
  = [Host (SUB (X 4) (X 4) MEMBASEREG); Host (LI SCRATCH1 2048);
     Host (ADDW (X 4) (X 4) SCRATCH1)].
Proof.
  intros inst j.
  assert (Hr : ~ -2048 <= s32 (constant inst) <= 2047).
  { cbv. intros [_ H]. apply H. reflexivity. }
  split; [split; [reflexivity | exact Hr] |].
  split; [reflexivity |].
  rewrite (proj1 (AddConst_large_constant_general_path (sample_cfg true false) inst j
                    sample_machine eq_refl Hr)).
  reflexivity.
Defined.

(** ** Normalization after a logic operation *)

Lemma MarkDirty_entry g h b v :
  hostReg (MarkDirty g h b v) = hostReg (g v) /\
  asPointer (MarkDirty g h b v) = asPointer (g v).
Proof.
  unfold MarkDirty, R.
  destruct (hostReg (g v)) as [n |] eqn:E; [destruct (asPointer (g v)) eqn:P |];
    destruct h; simpl; try (now rewrite ?E, ?P);
    destruct (Nat.eqb n n0); simpl; now rewrite ?E, ?P.
Qed.

Lemma R_MarkDirty g h b v : R (MarkDirty g h b) v = R g v.
Proof. unfold R. destruct (MarkDirty_entry g h b v) as [-> ->]. reflexivity. Qed.

Lemma IsNormalized32_MarkDirty_self g d n b :
  hostReg (g d) = Some n -> asPointer (g d) = false ->
  IsNormalized32 (MarkDirty g (R g d) b) d = b.
Proof.
  intros E P. unfold IsNormalized32, MarkDirty, R. rewrite E, P. simpl.
  rewrite Nat.eqb_refl. simpl. rewrite ?E. reflexivity.
Qed.

Lemma zero_test_of_sign_bit c :
  sign_bit_set c = false -> (Z.land c 0x80000000 =? 0) = true.
Proof. unfold sign_bit_set. now destruct (Z.land c 0x80000000 =? 0). Qed.

(** C10: an [AndConst] whose constant has bit 31 clear leaves [dest]
    marked normalized, whether or not [src1] was normalized before; and
    the value the emitted code leaves in [dest]'s host register is indeed
    sign-extended, the AND with a non-negative constant clearing the upper
    bits. *)
Theorem AndConst_positive_constant_normalized cfg inst j m :
  op inst = IROp.AndConst ->
  sign_bit_set (constant inst) = false ->
  exists j' c,
    CompIR_Logic cfg inst j = Ret tt j' /\
    code j' = code j ++ map Host c /\
    reports j' = reports j /\
    IsNormalized32 (gpr j') (dest inst) = true /\
    normalized_value (get (exec c m) (R (gpr j') (dest inst))).
Proof.
  intros Hop Hbit.
  destruct (MapDirtyIn_spec (AllocateReg cfg) (gpr j) (dest inst) (src1 inst)
              MapType.AVOID_LOAD m eq_refl) as (nd & ns & Hd & Pd & Hs & Ps & _).
  pose proof (sign_bit_clear_s32 _ Hbit) as HC.
  unfold CompIR_Logic. rewrite Hop.
  destruct ((-2048 <=? s32 (constant inst)) && (s32 (constant inst) <=? 2047));
    run_jit; rewrite Hbit, (zero_test_of_sign_bit _ Hbit); cbn [andb]; run_jit;
    eexists _, _;
    (split; [reflexivity |]); cbn [gpr code reports];
    (split; [first [apply code_snoc | apply code_snoc2] |]);
    (split; [reflexivity |]);
    (split; [now apply IsNormalized32_MarkDirty_self with nd |]);
    rewrite R_MarkDirty, exec_app; unfold R; rewrite Hd, Pd, Hs, Ps;
    cbn [exec exec_inst]; rewrite get_set_same by discriminate.
  - now apply land_nonneg_normalized.
  - rewrite (@get_set_same _ SCRATCH1) by discriminate.
    rewrite s64_of_s32. now apply land_nonneg_normalized.
Qed.

Lemma AndConst_positive_constant_normalized_witness :
  let inst := {| op := IROp.AndConst; dest := 2%nat; src1 := 3%nat; src2 := 0%nat;
                 constant := 0x7FFFFFFF |} in
  (op inst = IROp.AndConst /\ sign_bit_set (constant inst) = false) /\
  exists j' c,
    CompIR_Logic (sample_cfg true false) inst (jit_of empty_gpr) = Ret tt j' /\
    code j' = code (jit_of empty_gpr) ++ map Host c /\
    reports j' = reports (jit_of empty_gpr) /\
    IsNormalized32 (gpr j') (dest inst) = true /\
    normalized_value (get (exec c sample_machine) (R (gpr j') (dest inst))).
Proof.
  intros inst. split; [split; reflexivity |].
  exact (AndConst_positive_constant_normalized (sample_cfg true false) inst
           (jit_of empty_gpr) sample_machine eq_refl eq_refl).
Defined.

Lemma IsNormalized32_held g v :
  IsNormalized32 g v = true ->
  exists n, hostReg (g v) = Some n /\ asPointer (g v) = false /\ normalized32 (g v) = true.
Proof.
  unfold IsNormalized32. destruct (hostReg (g v)) as [n |]; [| discriminate].
  destruct (asPointer (g v)); simpl; [discriminate |]. intros ->. now exists n.
Qed.

(** A source that is already held as a value and is not the destination
    is left alone by the mapping. *)
Lemma MapDirtyIn_source_kept alloc g rd rs type :
  rd <> rs -> IsNormalized32 g rs = true ->
  fst (MapDirtyIn alloc g rd rs type) rs = g rs.
Proof.
  intros Hne Hn. destruct (IsNormalized32_held _ _ Hn) as (n & E & P & _).
  unfold MapDirtyIn, MapRegDirty, MapRegIn.
  destruct (hostReg (g rd)); cbn [fst snd]; unfold upd;
    rewrite (proj2 (Nat.eqb_neq rs rd) (not_eq_sym Hne)), E, P; cbn [fst];
    now rewrite (proj2 (Nat.eqb_neq rs rd) (not_eq_sym Hne)).
Qed.

Ltac cache_simp :=
  repeat first
    [ progress cbn [fst snd hostReg asPointer normalized32 isDirty andb orb negb app]
    | progress unfold upd
    | rewrite Nat.eqb_refl
    | match goal with
      | H : Nat.eqb _ _ = _ |- _ => rewrite H
      | H : hostReg (_ _) = _ |- _ => rewrite H
      | H : asPointer (_ _) = _ |- _ => rewrite H
      | H : normalized32 (_ _) = _ |- _ => rewrite H
      end ].

Ltac neq_facts :=
  repeat match goal with
         | H : ?a <> ?b |- _ =>
             let H1 := fresh "Hn" in
             let H2 := fresh "Hn" in
             assert (H1 : Nat.eqb a b = false) by (apply Nat.eqb_neq; congruence);
             assert (H2 : Nat.eqb b a = false) by (apply Nat.eqb_neq; congruence);
             clear H
         end.

(** What [MapDirtyInIn] does when both sources are already normalized:
    nothing is emitted, the sources keep their host registers, and the
    destination is held as a value whose normalization flag is dropped. *)
Lemma MapDirtyInIn_normalized alloc g rd rs rt :
  IsNormalized32 g rs = true -> IsNormalized32 g rt = true ->
  snd (MapDirtyInIn alloc g rd rs rt MapType.AVOID_LOAD) = [] /\
  (exists nd, hostReg (fst (MapDirtyInIn alloc g rd rs rt MapType.AVOID_LOAD) rd) = Some nd /\
              asPointer (fst (MapDirtyInIn alloc g rd rs rt MapType.AVOID_LOAD) rd) = false) /\
  normalized32 (fst (MapDirtyInIn alloc g rd rs rt MapType.AVOID_LOAD) rd) = false /\
  R (fst (MapDirtyInIn alloc g rd rs rt MapType.AVOID_LOAD)) rs = R g rs /\
  R (fst (MapDirtyInIn alloc g rd rs rt MapType.AVOID_LOAD)) rt = R g rt /\
  (rd <> rs -> fst (MapDirtyInIn alloc g rd rs rt MapType.AVOID_LOAD) rs = g rs) /\
  (rd <> rt -> fst (MapDirtyInIn alloc g rd rs rt MapType.AVOID_LOAD) rt = g rt).
Proof.
  intros Hs Ht.
  destruct (IsNormalized32_held _ _ Hs) as (ns & Es & Ps & _).
  destruct (IsNormalized32_held _ _ Ht) as (nt & Et & Pt & _).
  unfold MapDirtyInIn, MapRegDirty, MapRegIn, R. cbn [always_load marks_norm32 orb].
  destruct (Nat.eqb_spec rd rs) as [-> | Hds];
    [| destruct (Nat.eqb_spec rd rt) as [-> | Hdt]];
    try destruct (Nat.eqb_spec rt rs) as [-> | Hts];
    try (destruct (hostReg (g rd)) as [nd |] eqn:Ed;
         [destruct (asPointer (g rd)) eqn:Pd |]);
    (repeat split; [ .. | intros Hx | intros Hy]); try congruence;
    neq_facts; cache_simp; eauto; congruence.
Qed.

Lemma renormalize_noop m rd x r :
  get m rd = x -> normalized_value x ->
  get (exec_inst (ADDIW rd rd 0) m) r = get m r.
Proof.
  intros Hx Hn. cbn [exec_inst]. rewrite Hx, Z.add_0_r, (s32_of_normalized Hn).
  destruct (RiscVReg_eqb_spec rd R_ZERO) as [-> | Hz]; [reflexivity |].
  destruct (RiscVReg_eqb_spec r rd) as [-> | Hne].
  - now rewrite get_set_same.
  - now rewrite get_set_other.
Qed.

(** C2, as the code has it: when [src1] and [src2] are both normalized
    before lowering, an [Or] whose destination is neither source leaves
    [dest] marked normalized, while an [And] leaves [dest] unmarked.  For
    both, on a host state the flags are true of, the one instruction
    emitted leaves a sign-extended value in [dest]'s host register, so
    that re-normalizing it unconditionally afterwards ([ADDIW rd, rd, 0])
    changes no register. *)
Theorem Or_And_normalization cfg inst j m :
  op inst = IROp.Or \/ op inst = IROp.And ->
  IsNormalized32 (gpr j) (src1 inst) = true ->
  IsNormalized32 (gpr j) (src2 inst) = true ->
  exists j' i,
    CompIR_Logic cfg inst j = Ret tt j' /\
    code j' = code j ++ [Host i] /\
    reports j' = reports j /\
    (op inst = IROp.Or -> dest inst <> src1 inst -> dest inst <> src2 inst ->
     IsNormalized32 (gpr j') (dest inst) = true) /\
    (op inst = IROp.And -> IsNormalized32 (gpr j') (dest inst) = false) /\
    (norm32_sound (gpr j) m ->
     normalized_value (get (exec [i] m) (R (gpr j') (dest inst))) /\
     forall r,
       get (exec [i; ADDIW (R (gpr j') (dest inst)) (R (gpr j') (dest inst)) 0] m) r
       = get (exec [i] m) r).
Proof.
  intros Hop H1 H2.
  destruct (@MapDirtyInIn_normalized (AllocateReg cfg) (gpr j) (dest inst)
              (src1 inst) (src2 inst) H1 H2)
    as (Hc & (nd & Hd & Pd) & Nd & R1 & R2 & K1 & K2).
  set (g' := fst (MapDirtyInIn (AllocateReg cfg) (gpr j) (dest inst) (src1 inst)
                    (src2 inst) MapType.AVOID_LOAD)) in *.
  assert (Rd : R g' (dest inst) = X nd) by (unfold R; now rewrite Hd, Pd).
  assert (Sem : forall f mk,
             (forall a b, normalized_value a -> normalized_value b ->
                          normalized_value (f a b)) ->
             (forall mm, exec_inst (mk (X nd) (R (gpr j) (src1 inst)) (R (gpr j) (src2 inst))) mm
                         = set mm (X nd) (f (get mm (R (gpr j) (src1 inst)))
                                            (get mm (R (gpr j) (src2 inst))))) ->
             norm32_sound (gpr j) m ->
             normalized_value
               (get (exec [mk (X nd) (R (gpr j) (src1 inst)) (R (gpr j) (src2 inst))] m) (X nd)) /\
             forall r,
               get (exec [mk (X nd) (R (gpr j) (src1 inst)) (R (gpr j) (src2 inst));
                          ADDIW (X nd) (X nd) 0] m) r
               = get (exec [mk (X nd) (R (gpr j) (src1 inst)) (R (gpr j) (src2 inst))] m) r).
  { intros f mk Hf Hmk Hsound.
    assert (Hv : normalized_value
                   (get (exec [mk (X nd) (R (gpr j) (src1 inst)) (R (gpr j) (src2 inst))] m)
                        (X nd))).
    { cbn [exec]. rewrite Hmk, get_set_same by discriminate.
      apply Hf; now apply Hsound. }
    split; [exact Hv |]. intros r. cbn [exec] in *.
    now apply renormalize_noop with
      (x := get (exec_inst (mk (X nd) (R (gpr j) (src1 inst)) (R (gpr j) (src2 inst))) m)
              (X nd)). }
  destruct Hop as [Hop | Hop]; unfold CompIR_Logic; rewrite Hop; run_jit; fold g';
    rewrite Hc; cbn [map]; rewrite ?app_nil_r.
  - (* Or *)
    destruct (IsNormalized32 g' (src1 inst) && IsNormalized32 g' (src2 inst)) eqn:Eboth;
      run_jit; eexists _, _; (split; [reflexivity |]); cbn [gpr code reports];
      (split; [reflexivity |]); (split; [reflexivity |]);
      rewrite ?R_MarkDirty, Rd, R1, R2.
    + split; [intros _ _ _; rewrite <- Rd;
              now apply IsNormalized32_MarkDirty_self with nd |].
      split; [discriminate |]. apply (Sem Z.lor OR normalized_lor). reflexivity.
    + split.
      { intros _ Hn1 Hn2. exfalso. unfold IsNormalized32 in Eboth.
        rewrite (K1 Hn1), (K2 Hn2) in Eboth.
        change (IsNormalized32 (gpr j) (src1 inst)
                && IsNormalized32 (gpr j) (src2 inst) = false) in Eboth.
        rewrite H1, H2 in Eboth. discriminate. }
      split; [discriminate |]. apply (Sem Z.lor OR normalized_lor). reflexivity.
  - (* And *)
    eexists _, _; (split; [reflexivity |]); cbn [gpr code reports];
      (split; [reflexivity |]); (split; [reflexivity |]);
      rewrite Rd, R1, R2.
    split; [discriminate |].
    split; [intros _; unfold IsNormalized32; now rewrite Hd, Pd, Nd |].
    apply (Sem Z.land AND normalized_land). reflexivity.
Qed.

Lemma Or_And_normalization_witness :
  let inst := {| op := IROp.Or; dest := 3%nat; src1 := 1%nat; src2 := 2%nat;
                 constant := 0 |} in
  let j := jit_of two_normalized in
  (op inst = IROp.Or \/ op inst = IROp.And) /\
  IsNormalized32 (gpr j) (src1 inst) = true /\
  IsNormalized32 (gpr j) (src2 inst) = true /\
  norm32_sound (gpr j) sample_machine /\
  exists j' i,
    CompIR_Logic (sample_cfg true false) inst j = Ret tt j' /\
    code j' = code j ++ [Host i] /\
    IsNormalized32 (gpr j') (dest inst) = true /\
    normalized_value (get (exec [i] sample_machine) (R (gpr j') (dest inst))) /\
    forall r,
      get (exec [i; ADDIW (R (gpr j') (dest inst)) (R (gpr j') (dest inst)) 0]
             sample_machine) r
      = get (exec [i] sample_machine) r.
Proof.
  intros inst j.
  assert (Hsound : norm32_sound (gpr j) sample_machine).
  { intros v. unfold IsNormalized32, R, j, jit_of, gpr, two_normalized, upd,
      empty_gpr, held.
    destruct v as [| [| [| v]]]; simpl; try discriminate; intros _;
      unfold normalized_value, get; simpl; lia. }
  split; [left; reflexivity |]. split; [reflexivity |]. split; [reflexivity |].
  split; [exact Hsound |].
  destruct (@Or_And_normalization (sample_cfg true false) inst j sample_machine
              (or_introl eq_refl) eq_refl eq_refl)
    as (j' & i & E & Hc & _ & Hor & _ & Hsem).
  exists j', i. split; [exact E |]. split; [exact Hc |].
  split; [apply Hor; [reflexivity | discriminate | discriminate] |].
  apply Hsem. exact Hsound.
Defined.

(** An [And] of two normalized registers does not leave its destination
    marked normalized: [And(dest=r3, src1=r1, src2=r2)] with [r1] and [r2]
    normalized. *)
Lemma And_leaves_dest_unmarked :
  let inst := {| op := IROp.And; dest := 3%nat; src1 := 1%nat; src2 := 2%nat;
                 constant := 0 |} in
  let j := jit_of two_normalized in
  IsNormalized32 (gpr j) (src1 inst) = true /\
  IsNormalized32 (gpr j) (src2 inst) = true /\
  code (final (CompIR_Logic (sample_cfg true false) inst j))
  = [Host (AND (X 3) (X 1) (X 2))] /\
  IsNormalized32 (gpr (final (CompIR_Logic (sample_cfg true false) inst j))) (dest inst)
  = false.
Proof. repeat split. Qed.

(** An [Or] whose destination is one of its sources loses the mark too:
    the flags are read after the mapping has dropped the destination's. *)
Example Or_aliased_dest_unmarked :
  let inst := {| op := IROp.Or; dest := 1%nat; src1 := 1%nat; src2 := 2%nat;
                 constant := 0 |} in
  let j := jit_of two_normalized in
  IsNormalized32 (gpr j) (src1 inst) = true /\
  IsNormalized32 (gpr j) (src2 inst) = true /\
  IsNormalized32 (gpr (final (CompIR_Logic (sample_cfg true false) inst j))) (dest inst)
  = false.
Proof. repeat split. Qed.

(** ** And-constant with the sign bit set *)

(** When the destination is not the source, a constant with bit 31 set
    keeps a normalized source's mark. *)
Lemma AndConst_sign_bit_distinct cfg inst j :
  op inst = IROp.AndConst ->
  sign_bit_set (constant inst) = true ->
  dest inst <> src1 inst ->
  IsNormalized32 (gpr j) (src1 inst) = true ->
  IsNormalized32 (gpr (final (CompIR_Logic cfg inst j))) (dest inst) = true.
Proof.
  intros Hop Hbit Hne Hn.
  destruct (MapDirtyIn_spec (AllocateReg cfg) (gpr j) (dest inst) (src1 inst)
              MapType.AVOID_LOAD sample_machine eq_refl) as (nd & ns & Hd & Pd & _).
  pose proof (MapDirtyIn_source_kept (AllocateReg cfg) (gpr j) MapType.AVOID_LOAD
                Hne Hn) as Hk.
  assert (Hn' : IsNormalized32
                  (fst (MapDirtyIn (AllocateReg cfg) (gpr j) (dest inst) (src1 inst)
                          MapType.AVOID_LOAD)) (src1 inst) = true).
  { unfold IsNormalized32. rewrite Hk. exact Hn. }
  unfold CompIR_Logic. rewrite Hop.
  destruct ((-2048 <=? s32 (constant inst)) && (s32 (constant inst) <=? 2047));
    run_jit; rewrite Hbit, Hn'; cbn [andb]; run_jit;
    now apply IsNormalized32_MarkDirty_self with nd.
Qed.

(** When the destination is the source, the mark is lost whatever the
    source's state was: the flag is read after the mapping dropped it. *)
Lemma AndConst_sign_bit_aliased cfg inst j :
  op inst = IROp.AndConst ->
  sign_bit_set (constant inst) = true ->
  dest inst = src1 inst ->
  IsNormalized32 (gpr (final (CompIR_Logic cfg inst j))) (dest inst) = false.
Proof.
  intros Hop Hbit Heq.
  destruct (MapDirtyIn_spec (AllocateReg cfg) (gpr j) (src1 inst) (src1 inst)
              MapType.AVOID_LOAD sample_machine eq_refl)
    as (nd & ns & Hd & Pd & _ & _ & Nd & _).
  assert (Hn' : IsNormalized32
                  (fst (MapDirtyIn (AllocateReg cfg) (gpr j) (src1 inst) (src1 inst)
                          MapType.AVOID_LOAD)) (src1 inst) = false).
  { unfold IsNormalized32. now rewrite Hd, Pd, Nd. }
  assert (Hz : (Z.land (constant inst) 0x80000000 =? 0) = false).
  { unfold sign_bit_set in Hbit. now destruct (Z.land (constant inst) 0x80000000 =? 0). }
  unfold CompIR_Logic. rewrite Hop, Heq.
  destruct ((-2048 <=? s32 (constant inst)) && (s32 (constant inst) <=? 2047));
    run_jit; rewrite Hbit, Hn', Hz; cbn [andb]; run_jit; exact Hn'.
Qed.

(** C7, at the scenario of the specification:
    [AndConst(dest=r5, src1=r5, constant=0x80000000)] with [r5] normalized
    before.  The claim expects [dest] marked normalized afterwards; the
    code leaves it unmarked. *)
Theorem AndConst_scenario_r5_unmarked :
  let inst := {| op := IROp.AndConst; dest := 5%nat; src1 := 5%nat; src2 := 0%nat;
                 constant := 0x80000000 |} in
  let j := jit_of r5_normalized in
  IsNormalized32 (gpr j) (src1 inst) = true /\
  sign_bit_set (constant inst) = true /\
  code (final (CompIR_Logic (sample_cfg true false) inst j))
  = [Host (LI SCRATCH1 (-2147483648)); Host (AND (X 5) (X 5) SCRATCH1)] /\
  IsNormalized32 (gpr (final (CompIR_Logic (sample_cfg true false) inst j))) (dest inst)
  = false.
Proof. repeat split. Qed.

(** ** Frame pacing *)

(** C8: the sleep margin of [AfterPresent] is two milliseconds: the
    product [2.0 * 0.001] is the binary64 value of [0.002], the post-sleep
    duration stored is [timeStep - 0.002 - cpuTime], and [sleep_s] is
    called, with that duration, exactly when it is greater than zero. *)
Theorem AfterPresent_margin_2ms ft sleeps :
  let ps := (FrameTiming.timeStep ft - 0.002 - FrameTiming.cpuTime ft)%float in
  (2.0 * 0.001 = 0.002)%float /\
  FrameTiming.postSleep (fst (FrameTiming.AfterPresent ft sleeps)) = ps /\
  snd (FrameTiming.AfterPresent ft sleeps)
  = (if (0.0 <? ps)%float then sleeps ++ [ps] else sleeps).
Proof.
  intros ps. split; [reflexivity |].
  unfold FrameTiming.AfterPresent. cbn [FrameTiming.postSleep FrameTiming.usePresentTiming].
  destruct (FrameTiming.usePresentTiming ft); cbn [negb fst snd FrameTiming.postSleep];
    split; reflexivity.
Qed.

(** A 60 Hz frame whose CPU slice took 5 ms sleeps; one whose slice took
    15 ms does not. *)
Example AfterPresent_60Hz :
  let ft c := FrameTiming.mk 0x1.1111111111111p-6 c 0 true in
  snd (FrameTiming.AfterPresent (ft 0.005%float) []) <> [] /\
  snd (FrameTiming.AfterPresent (ft 0.015%float) []) = [].
Proof. split; [vm_compute; discriminate | vm_compute; reflexivity]. Qed.

(* ================================================================== *)
(** * Further properties of the lowering routines and of the frame timing *)

(** ** Host code and the registers it writes *)

Lemma exec_inst_other i m r : r <> written i -> get (exec_inst i m) r = get m r.
Proof. destruct i; cbn [exec_inst written]; intros H; now rewrite get_set_other. Qed.

Lemma ctx_set m r v : ctx (set m r v) = ctx m.
Proof. unfold set. destruct r; reflexivity. Qed.

Lemma exec_inst_ctx i m : ctx (exec_inst i m) = ctx m.
Proof. destruct i; cbn [exec_inst]; apply ctx_set. Qed.

Lemma exec_other c m r :
  (forall i, In i c -> r <> written i) -> get (exec c m) r = get m r.
Proof.
  revert m. induction c as [| i c IH]; intros m H; [reflexivity |].
  cbn [exec]. rewrite IH by (intros; apply H; now right).
  apply exec_inst_other, H. now left.
Qed.

Lemma exec_ctx c m : ctx (exec c m) = ctx m.
Proof.
  revert m. induction c as [| i c IH]; intros m; [reflexivity |].
  cbn [exec]. now rewrite IH, exec_inst_ctx.
Qed.

(** ** Mapping a destination and two sources *)

Lemma MapRegIn_again alloc g v :
  MapRegIn alloc (fst (MapRegIn alloc g v)) v = (fst (MapRegIn alloc g v), []).
Proof.
  unfold MapRegIn.
  destruct (hostReg (g v)) as [n |] eqn:E; [destruct (asPointer (g v)) eqn:P |];
    cache_simp; reflexivity.
Qed.

Lemma MapDirtyIn_as_InIn alloc g rd rs type :
  MapDirtyIn alloc g rd rs type = MapDirtyInIn alloc g rd rs rs type.
Proof.
  unfold MapDirtyIn, MapDirtyInIn. rewrite <- orb_assoc, orb_diag.
  destruct (MapRegDirty alloc g rd _ _) as [g1 c1].
  pose proof (MapRegIn_again alloc g1 rs) as H.
  destruct (MapRegIn alloc g1 rs) as [g2 c2]. cbn [fst] in H. rewrite H.
  now rewrite app_nil_r.
Qed.

Ltac eqb_facts :=
  repeat match goal with
         | H : ?a <> ?b |- _ =>
             lazymatch goal with
             | _ : Nat.eqb a b = false |- _ => fail
             | _ => assert (Nat.eqb a b = false) by (apply Nat.eqb_neq; exact H);
                    assert (Nat.eqb b a = false)
                      by (apply Nat.eqb_neq; let E := fresh "E" in
                          intros E; apply H; now symmetry)
             end
         end.

Ltac entry_cases g v :=
  let n := fresh "n" in
  let E := fresh "E" in
  let P := fresh "P" in
  destruct (hostReg (g v)) as [n |] eqn:E; [destruct (asPointer (g v)) eqn:P |].

Ltac regs :=
  repeat first
    [ rewrite get_set_same by discriminate
    | rewrite get_set_other by (first [discriminate | congruence])
    | rewrite ctx_set ].

Ltac host_neq :=
  repeat match goal with
         | I : forall n, Some ?a = Some n -> Some ?b = Some n -> ?x = ?y |- _ =>
             first
               [ match goal with
                 | Hne : x <> y |- _ =>
                     assert (a <> b)
                       by (let E := fresh "E" in
                           intros E; apply Hne, (I a);
                           [reflexivity | f_equal; symmetry; exact E])
                 end
               | idtac ];
             clear I
         end.

Ltac written_goal :=
  match goal with
  | H : In _ _ |- _ =>
      cbn in H;
      repeat match goal with
             | H' : _ \/ _ |- _ => destruct H' as [<- | H']
             end;
      try contradiction; cbn [written]; auto
  end.

Ltac map_case :=
  cache_simp; intros I1 I2 I3; host_neq;
  eexists _, _, _;
  do 5 (split; [reflexivity |]);
  repeat match goal with |- _ /\ _ => split end; intros; cache_simp;
  try written_goal;
  cbn [exec exec_inst app]; regs; rewrite ?u32_s64, ?u32_s32; try reflexivity;
  try congruence; try apply s32_range;
  try match goal with
      | H : _ -> normalized_value ?x |- normalized_value ?x =>
          apply H; first [assumption | reflexivity]
      end.

Lemma MapDirtyInIn_sem alloc g d s t type m :
  always_load type = false ->
  host_injective (fst (MapDirtyInIn alloc g d s t type)) ->
  exists nd ns nt,
    fst (MapDirtyInIn alloc g d s t type) d
    = {| hostReg := Some nd; isDirty := true; normalized32 := marks_norm32 type;
         asPointer := false |} /\
    hostReg (fst (MapDirtyInIn alloc g d s t type) s) = Some ns /\
    asPointer (fst (MapDirtyInIn alloc g d s t type) s) = false /\
    hostReg (fst (MapDirtyInIn alloc g d s t type) t) = Some nt /\
    asPointer (fst (MapDirtyInIn alloc g d s t type) t) = false /\
    (forall i, In i (snd (MapDirtyInIn alloc g d s t type)) ->
               written i = X nd \/ written i = X ns \/ written i = X nt) /\
    u32 (get (exec (snd (MapDirtyInIn alloc g d s t type)) m) (X ns)) = guestValue g m s /\
    u32 (get (exec (snd (MapDirtyInIn alloc g d s t type)) m) (X nt)) = guestValue g m t /\
    (s <> d -> IsNormalized32 (fst (MapDirtyInIn alloc g d s t type)) s = true ->
     (IsNormalized32 g s = true -> normalized_value (get m (R g s))) ->
     normalized_value (get (exec (snd (MapDirtyInIn alloc g d s t type)) m) (X ns))) /\
    (t <> d -> IsNormalized32 (fst (MapDirtyInIn alloc g d s t type)) t = true ->
     (IsNormalized32 g t = true -> normalized_value (get m (R g t))) ->
     normalized_value (get (exec (snd (MapDirtyInIn alloc g d s t type)) m) (X nt))).
Proof.
  intros Hload Hinj.
  pose proof (Hinj d s) as I1. pose proof (Hinj d t) as I2. pose proof (Hinj s t) as I3.
  clear Hinj. revert I1 I2 I3.
  unfold MapDirtyInIn, MapRegDirty, MapRegIn, guestValue, IsNormalized32, R.
  rewrite Hload. cbn [orb].
  destruct (Nat.eqb_spec d s) as [-> | Hds];
    [| destruct (Nat.eqb_spec d t) as [-> | Hdt]];
    try destruct (Nat.eqb_spec s t) as [-> | Hst];
    try congruence; eqb_facts; cbn [orb].
  - (* d = s = t *)
    entry_cases g t; map_case.
  - (* d = s, t apart *)
    entry_cases g s; entry_cases g t; map_case.
  - (* d = t, s apart *)
    entry_cases g s; entry_cases g t; map_case.
  - (* s = t, d apart *)
    entry_cases g d; entry_cases g t; map_case.
  - (* all apart *)
    entry_cases g d; entry_cases g s; entry_cases g t; map_case.
Qed.

Lemma MapRegDirty_frame alloc g v load mk w :
  w <> v -> fst (MapRegDirty alloc g v load mk) w = g w.
Proof.
  intros H. eqb_facts. unfold MapRegDirty.
  destruct (hostReg (g v)); cache_simp; reflexivity.
Qed.

Lemma MapRegIn_frame alloc g v w :
  w <> v -> fst (MapRegIn alloc g v) w = g w.
Proof.
  intros H. eqb_facts. unfold MapRegIn.
  destruct (hostReg (g v)); [destruct (asPointer (g v)) |]; cache_simp; reflexivity.
Qed.

Lemma MapDirtyInIn_frame alloc g d s t type w :
  w <> d -> w <> s -> w <> t -> fst (MapDirtyInIn alloc g d s t type) w = g w.
Proof.
  intros Hd Hs Ht. unfold MapDirtyInIn.
  pose proof (@MapRegDirty_frame alloc g d
                (always_load type || Nat.eqb d s || Nat.eqb d t)
                (marks_norm32 type) w Hd) as F1.
  destruct (MapRegDirty alloc g d _ _) as [g1 c1]. cbn [fst] in F1.
  pose proof (@MapRegIn_frame alloc g1 s w Hs) as F2.
  destruct (MapRegIn alloc g1 s) as [g2 c2]. cbn [fst] in F2.
  pose proof (@MapRegIn_frame alloc g2 t w Ht) as F3.
  destruct (MapRegIn alloc g2 t) as [g3 c3]. cbn [fst] in *.
  congruence.
Qed.

Lemma guestValue_ext g m m' v :
  (forall k, hostReg (g v) = Some k -> get m' (X k) = get m (X k)) ->
  get m' MEMBASEREG = get m MEMBASEREG ->
  ctx m' v = ctx m v ->
  guestValue g m' v = guestValue g m v.
Proof.
  intros Hk Hb Hc. unfold guestValue.
  destruct (hostReg (g v)) as [k |]; [rewrite (Hk k eq_refl), Hb | rewrite Hc];
    reflexivity.
Qed.

(** ** What a fast path keeps *)

Lemma fast_path_keeps alloc g d s t type alu gf m :
  always_load type = false ->
  host_injective gf ->
  (forall w, hostReg (gf w) = hostReg (fst (MapDirtyInIn alloc g d s t type) w)) ->
  (forall w, w <> d -> gf w = fst (MapDirtyInIn alloc g d s t type) w) ->
  asPointer (gf d) = false ->
  (forall i, In i alu ->
             written i = R (fst (MapDirtyInIn alloc g d s t type)) d
             \/ written i = SCRATCH1) ->
  (forall m1,
      (s <> d -> IsNormalized32 (fst (MapDirtyInIn alloc g d s t type)) s = true ->
       normalized_value (get m1 (R (fst (MapDirtyInIn alloc g d s t type)) s))) ->
      (t <> d -> IsNormalized32 (fst (MapDirtyInIn alloc g d s t type)) t = true ->
       normalized_value (get m1 (R (fst (MapDirtyInIn alloc g d s t type)) t))) ->
      normalized32 (gf d) = true ->
      normalized_value
        (get (exec alu m1) (R (fst (MapDirtyInIn alloc g d s t type)) d))) ->
  (norm32_sound g m ->
   norm32_sound gf (exec (snd (MapDirtyInIn alloc g d s t type) ++ alu) m)) /\
  (forall v, v <> d ->
             guestValue gf (exec (snd (MapDirtyInIn alloc g d s t type) ++ alu) m) v
             = guestValue g m v).
Proof.
  intros Hload Hinj Hhost Hoff Hptr Hw Hres.
  set (g' := fst (MapDirtyInIn alloc g d s t type)) in *.
  set (cm := snd (MapDirtyInIn alloc g d s t type)) in *.
  assert (Hinj' : host_injective g').
  { intros v w n Hv Hw'. apply (Hinj v w n); now rewrite Hhost. }
  destruct (@MapDirtyInIn_sem alloc g d s t type m Hload Hinj')
    as (nd & ns & nt & Ed & Es & Ps & Et & Pt & Wm & Vs & Vt & Ns & Nt).
  fold g' in Ed, Es, Ps, Et, Pt, Ns, Nt. fold cm in Wm, Vs, Vt, Ns, Nt.
  assert (Rd : R g' d = X nd) by (unfold R; now rewrite Ed).
  assert (Rs : R g' s = X ns) by (unfold R; now rewrite Es, Ps).
  assert (Rt : R g' t = X nt) by (unfold R; now rewrite Et, Pt).
  assert (Hd' : hostReg (g' d) = Some nd) by now rewrite Ed.
  rewrite Rd in Hw, Hres. rewrite Rs, Rt in Hres.
  assert (Dsd : s <> d -> ns <> nd).
  { intros Hne E. apply Hne. apply (Hinj' s d ns); congruence. }
  assert (Dtd : t <> d -> nt <> nd).
  { intros Hne E. apply Hne. apply (Hinj' t d nt); congruence. }
  (* registers the ALU part leaves alone *)
  assert (Alu : forall m1 k, k <> nd -> get (exec alu m1) (X k) = get m1 (X k)).
  { intros m1 k Hk. apply exec_other. intros i Hi.
    destruct (Hw i Hi) as [-> | ->]; congruence. }
  assert (AluB : forall m1, get (exec alu m1) MEMBASEREG = get m1 MEMBASEREG).
  { intros m1. apply exec_other. intros i Hi. destruct (Hw i Hi) as [-> | ->]; discriminate. }
  (* registers the mapping leaves alone *)
  assert (Map : forall k, k <> nd -> k <> ns -> k <> nt ->
                          get (exec cm m) (X k) = get m (X k)).
  { intros k H1 H2 H3. apply exec_other. intros i Hi.
    destruct (Wm i Hi) as [-> | [-> | ->]]; congruence. }
  assert (MapB : get (exec cm m) MEMBASEREG = get m MEMBASEREG).
  { apply exec_other. intros i Hi. destruct (Wm i Hi) as [-> | [-> | ->]]; discriminate. }
  (* a register outside the instruction keeps its entry and its host register *)
  assert (Out : forall v k, v <> d -> v <> s -> v <> t -> hostReg (g v) = Some k ->
                            k <> nd /\ k <> ns /\ k <> nt).
  { intros v k H1 H2 H3 Hk.
    assert (Hk' : hostReg (g' v) = Some k)
      by (unfold g'; now rewrite MapDirtyInIn_frame).
    repeat split; intros ->;
      [apply H1, (Hinj' v d nd) | apply H2, (Hinj' v s ns) | apply H3, (Hinj' v t nt)];
      assumption. }
  rewrite exec_app. split.
  - intros Hsound v Hv.
    destruct (Nat.eq_dec v d) as [-> | Hvd].
    + assert (RD : R gf d = X nd) by (unfold R; now rewrite Hhost, Hd', Hptr).
      rewrite RD. apply Hres.
      * intros Hne Hn. apply Ns; [exact Hne | exact Hn |]. apply Hsound.
      * intros Hne Hn. apply Nt; [exact Hne | exact Hn |]. apply Hsound.
      * unfold IsNormalized32 in Hv. rewrite Hhost, Hd', Hptr in Hv. exact Hv.
    + assert (Eg : gf v = g' v) by now apply Hoff.
      assert (Hv' : IsNormalized32 g' v = true)
        by (unfold IsNormalized32 in *; now rewrite <- Eg).
      assert (ER : R gf v = R g' v) by (unfold R; now rewrite Eg).
      rewrite ER.
      destruct (Nat.eq_dec v s) as [-> | Hvs].
      { rewrite Rs, Alu by auto. apply Ns; auto. }
      destruct (Nat.eq_dec v t) as [-> | Hvt].
      { rewrite Rt, Alu by auto. apply Nt; auto. }
      assert (Eg' : g' v = g v) by (unfold g'; now apply MapDirtyInIn_frame).
      assert (Hv0 : IsNormalized32 g v = true)
        by (unfold IsNormalized32 in *; now rewrite <- Eg').
      assert (ER' : R g' v = R g v) by (unfold R; now rewrite Eg').
      rewrite ER'. pose proof (Hsound v Hv0) as Hn.
      destruct (IsNormalized32_held _ _ Hv0) as (k & Ek & Pk & _).
      unfold R in *. rewrite Ek, Pk in *.
      destruct (Out v k Hvd Hvs Hvt Ek) as (K1 & K2 & K3).
      now rewrite Alu, Map.
  - intros v Hvd.
    assert (Eg : gf v = g' v) by now apply Hoff.
    assert (EV : forall mm, guestValue gf mm v = guestValue g' mm v)
      by (intros mm; unfold guestValue; now rewrite Eg).
    rewrite EV.
    destruct (Nat.eq_dec v s) as [-> | Hvs].
    { unfold guestValue at 1. rewrite Es, Ps, Alu by auto. exact Vs. }
    destruct (Nat.eq_dec v t) as [-> | Hvt].
    { unfold guestValue at 1. rewrite Et, Pt, Alu by auto. exact Vt. }
    assert (Eg' : g' v = g v) by (unfold g'; now apply MapDirtyInIn_frame).
    assert (EV' : forall mm, guestValue g' mm v = guestValue g mm v)
      by (intros mm; unfold guestValue; now rewrite Eg').
    rewrite EV'. apply guestValue_ext.
    + intros k Ek. destruct (Out v k Hvd Hvs Hvt Ek) as (K1 & K2 & K3).
      now rewrite Alu, Map.
    + now rewrite AluB, MapB.
    + now rewrite !exec_ctx.
Qed.

Lemma MarkDirty_host g h b w : hostReg (MarkDirty g h b w) = hostReg (g w).
Proof. apply MarkDirty_entry. Qed.

Lemma MarkDirty_off g d n b w :
  host_injective g -> hostReg (g d) = Some n -> asPointer (g d) = false ->
  w <> d -> MarkDirty g (R g d) b w = g w.
Proof.
  intros Hinj Hd Pd Hw. unfold MarkDirty, R at 2. rewrite Hd, Pd. unfold R.
  destruct (hostReg (g w)) as [k |] eqn:Ek; [| reflexivity].
  destruct (asPointer (g w)); [reflexivity |].
  cbn [RiscVReg_eqb]. destruct (Nat.eqb_spec k n) as [-> | Hne]; [| reflexivity].
  exfalso. apply Hw. now apply (Hinj w d n).
Qed.

Lemma MarkDirty_self g d n b :
  hostReg (g d) = Some n -> asPointer (g d) = false ->
  MarkDirty g (R g d) b d
  = {| hostReg := Some n; isDirty := true; normalized32 := b; asPointer := false |}.
Proof.
  intros Hd Pd. unfold MarkDirty, R. rewrite Hd, Pd. cbn [RiscVReg_eqb].
  now rewrite Nat.eqb_refl.
Qed.

(** The shape every fast path has: the registers are mapped, then the
    arithmetic part writes the destination's host register (and possibly
    the scratch register), and the destination may be re-marked. *)
Lemma fast_path_keeps_marked alloc g d s t type alu mark m :
  always_load type = false ->
  let g' := fst (MapDirtyInIn alloc g d s t type) in
  let gf := match mark with Some b => MarkDirty g' (R g' d) b | None => g' end in
  host_injective gf ->
  (forall nd ns nt,
      R g' d = X nd -> R g' s = X ns -> R g' t = X nt ->
      normalized32 (g' d) = marks_norm32 type ->
      (forall i, In i alu -> written i = X nd \/ written i = SCRATCH1) /\
      (forall m1,
          (s <> d -> IsNormalized32 g' s = true -> normalized_value (get m1 (X ns))) ->
          (t <> d -> IsNormalized32 g' t = true -> normalized_value (get m1 (X nt))) ->
          match mark with Some b => b | None => marks_norm32 type end = true ->
          normalized_value (get (exec alu m1) (X nd)))) ->
  (norm32_sound g m ->
   norm32_sound gf (exec (snd (MapDirtyInIn alloc g d s t type) ++ alu) m)) /\
  (forall v, v <> d ->
             guestValue gf (exec (snd (MapDirtyInIn alloc g d s t type) ++ alu) m) v
             = guestValue g m v).
Proof.
  intros Hload g' gf Hinj Hcond.
  assert (Hhost : forall w, hostReg (gf w) = hostReg (g' w)).
  { intros w. unfold gf. destruct mark; [apply MarkDirty_host | reflexivity]. }
  assert (Hinj' : host_injective g').
  { intros v w n Hv Hw'. apply (Hinj v w n); now rewrite Hhost. }
  destruct (@MapDirtyInIn_sem alloc g d s t type m Hload Hinj')
    as (nd & ns & nt & Ed & Es & Ps & Et & Pt & _).
  fold g' in Ed, Es, Ps, Et, Pt.
  assert (Hd : hostReg (g' d) = Some nd) by now rewrite Ed.
  assert (Pd : asPointer (g' d) = false) by now rewrite Ed.
  assert (Rd : R g' d = X nd) by (unfold R; now rewrite Hd, Pd).
  assert (Rs : R g' s = X ns) by (unfold R; now rewrite Es, Ps).
  assert (Rt : R g' t = X nt) by (unfold R; now rewrite Et, Pt).
  assert (Nd : normalized32 (g' d) = marks_norm32 type) by now rewrite Ed.
  destruct (Hcond nd ns nt Rd Rs Rt Nd) as [Hw Hres].
  assert (Hflag : normalized32 (gf d)
                  = match mark with Some b => b | None => marks_norm32 type end).
  { unfold gf. destruct mark as [b |].
    - now rewrite (MarkDirty_self _ _ b Hd Pd).
    - now rewrite Ed. }
  apply fast_path_keeps; auto.
  - intros w Hw'. unfold gf. destruct mark as [b |]; [| reflexivity].
    now apply MarkDirty_off with nd.
  - unfold gf. destruct mark as [b |]; [| exact Pd].
    now rewrite (MarkDirty_self _ _ b Hd Pd).
  - intros i Hi. fold g'. rewrite Rd. now apply Hw.
  - intros m1 H1 H2 H3. fold g' in H1, H2 |- *. rewrite Rd. rewrite Rs in H1. rewrite Rt in H2.
    apply Hres; auto. now rewrite <- Hflag.
Qed.

(** ** Values that are sign-extended by construction *)

Lemma s64_range z : - 2 ^ 63 <= s64 z < 2 ^ 63.
Proof. words. Qed.

Lemma s8_normalized z : normalized_value (s8 z).
Proof.
  unfold s8, normalized_value.
  pose proof (Z.mod_pos_bound (z + 2 ^ 7) (2 ^ 8) ltac:(lia)). lia.
Qed.

Lemma s16_normalized z : normalized_value (s16 z).
Proof.
  unfold s16, normalized_value.
  pose proof (Z.mod_pos_bound (z + 2 ^ 15) (2 ^ 16) ltac:(lia)). lia.
Qed.

Lemma shiftr_bounds a k b :
  0 <= k -> 0 < b -> - b <= a < b -> - b <= Z.shiftr a k < b.
Proof.
  intros Hk Hb Ha. rewrite Z.shiftr_div_pow2 by assumption.
  assert (Hp : 0 < 2 ^ k) by (apply Z.pow_pos_nonneg; lia).
  split.
  - apply Z.div_le_lower_bound; [assumption |]. nia.
  - apply Z.div_lt_upper_bound; [assumption |]. nia.
Qed.

Lemma normalized_shiftr a k :
  0 <= k -> normalized_value a -> normalized_value (Z.shiftr a k).
Proof. intros Hk Ha. apply shiftr_bounds; [assumption | lia | exact Ha]. Qed.

Lemma wide_shiftr_normalized a k :
  32 <= k -> - 2 ^ 63 <= a < 2 ^ 63 -> normalized_value (Z.shiftr a k).
Proof.
  intros Hk Ha. unfold normalized_value.
  replace k with (32 + (k - 32)) by lia.
  rewrite <- Z.shiftr_shiftr by lia.
  apply shiftr_bounds; [lia | lia |].
  rewrite Z.shiftr_div_pow2 by lia. change (2 ^ 32) with 4294967296.
  change (2 ^ 63) with 9223372036854775808 in Ha.
  change (2 ^ 31) with 2147483648.
  split.
  - apply Z.div_le_lower_bound; lia.
  - apply Z.div_lt_upper_bound; lia.
Qed.

Lemma normalized_lxor a b :
  normalized_value a -> normalized_value b -> normalized_value (Z.lxor a b).
Proof.
  rewrite !normalized_bits. intros Ha Hb i Hi.
  now rewrite !Z.lxor_spec, Ha, Hb.
Qed.

Lemma normalized_source_apart g d s :
  normalized32 (g d) = false -> IsNormalized32 g s = true -> s <> d.
Proof.
  intros Hd Hs ->. unfold IsNormalized32 in Hs.
  destruct (hostReg (g d)); [| discriminate].
  rewrite Hd, andb_false_r in Hs. discriminate.
Qed.

(** ** Reading the emitted code back *)

Lemma map_Host_inj a b : map Host a = map Host b -> a = b.
Proof.
  revert b. induction a as [| x a IH]; intros [| y b] H; try discriminate;
    [reflexivity |].
  cbn in H. injection H as -> H. f_equal. now apply IH.
Qed.

Lemma emitted_code l a c : l ++ map Host a = l ++ map Host c -> c = a.
Proof. intros H. apply app_inv_head in H. symmetry. now apply map_Host_inj. Qed.

Lemma code_snoc0 l c : l ++ map Host c = l ++ map Host (c ++ []).
Proof. now rewrite app_nil_r. Qed.

Lemma code_snoc3 l c i1 i2 i3 :
  (((l ++ map Host c) ++ [Host i1]) ++ [Host i2]) ++ [Host i3]
  = l ++ map Host (c ++ [i1; i2; i3]).
Proof. now rewrite map_app, <- !app_assoc. Qed.

Lemma generic_call_is_not_host l inst c :
  l ++ [CallGeneric inst] = l ++ map Host c -> False.
Proof.
  intros H. apply app_inv_head in H. destruct c as [| i c]; discriminate.
Qed.
Ltac keeps_apply :=
  match goal with
  | |- (_ -> norm32_sound (MarkDirty _ _ ?b) _) /\ _ =>
      apply (@fast_path_keeps_marked _ _ _ _ _ _ _ (Some b))
  | |- _ => apply (@fast_path_keeps_marked _ _ _ _ _ _ _ None)
  end.

Ltac prep := run_jit; rewrite ?MapDirtyIn_as_InIn.

Ltac fast_branch :=
  run_jit; rewrite ?MapDirtyIn_as_InIn;
  let H := fresh "H" in
  let Hc := fresh "Hc" in
  let Hinj := fresh "Hinj" in
  intros H Hc Hinj; injection H as <-; cbn [gpr code] in Hc, Hinj |- *;
  first [rewrite code_snoc3 in Hc | rewrite code_snoc2 in Hc | rewrite code_snoc in Hc];
  apply emitted_code in Hc; subst;
  keeps_apply; [reflexivity | exact Hinj |].

Ltac norm_goal :=
  first
    [ discriminate
    | apply s32_range
    | apply s8_normalized
    | apply s16_normalized
    | apply normalized_shiftr; [lia | apply s32_range] ].

Ltac alu_side :=
  let nd := fresh "nd" in
  let ns := fresh "ns" in
  let nt := fresh "nt" in
  let Rd := fresh "Rd" in
  let Rs := fresh "Rs" in
  let Rt := fresh "Rt" in
  let Nd := fresh "Nd" in
  intros nd ns nt Rd Rs Rt Nd; rewrite ?Rd, ?Rs, ?Rt; split;
  [ intros i Hi; written_goal
  | let m1 := fresh "m1" in
    let H1 := fresh "Hs" in
    let H2 := fresh "Ht" in
    let Hf := fresh "Hflag" in
    intros m1 H1 H2 Hf; cbn [exec exec_inst]; cbn [marks_norm32] in Hf, Nd; regs;
    rewrite ?s64_of_s32; try norm_goal ].

Ltac slow_branch :=
  unfold bind at 1, CONDITIONAL_DISABLE, ret; rewrite ?INVALIDOP_eq;
  try match goal with |- context [HandleAssert ?c ?d] => destruct (HandleAssert c d) end;
  unfold CompIR_Generic;
  first
    [ discriminate
    | let H := fresh "H" in
      let Hc := fresh "Hc" in
      intros H Hc; injection H as <-; cbn [code] in Hc; exfalso;
      exact (generic_call_is_not_host _ _ _ Hc) ].

Lemma MarkPtrDirty_off g d n w :
  host_injective g -> hostReg (g d) = Some n -> asPointer (g d) = true ->
  w <> d -> MarkPtrDirty g (RPtr g d) w = g w.
Proof.
  intros Hinj Hd Pd Hw. unfold MarkPtrDirty, RPtr at 2. rewrite Hd, Pd. unfold RPtr.
  destruct (hostReg (g w)) as [k |] eqn:Ek; [| reflexivity].
  destruct (asPointer (g w)); [| reflexivity].
  cbn [RiscVReg_eqb]. destruct (Nat.eqb_spec k n) as [-> | Hne]; [| reflexivity].
  exfalso. apply Hw. now apply (Hinj w d n).
Qed.

(** The pointer path: the one [ADDI] touches only the pointer register. *)
Lemma pointer_path_keeps g d k m :
  IsMappedAsPointer g d = true ->
  host_injective (MarkPtrDirty g (RPtr g d)) ->
  (norm32_sound g m ->
   norm32_sound (MarkPtrDirty g (RPtr g d))
     (exec [ADDI (RPtr (MarkPtrDirty g (RPtr g d)) d)
              (RPtr (MarkPtrDirty g (RPtr g d)) d) k] m)) /\
  (forall v, v <> d ->
             guestValue (MarkPtrDirty g (RPtr g d))
               (exec [ADDI (RPtr (MarkPtrDirty g (RPtr g d)) d)
                        (RPtr (MarkPtrDirty g (RPtr g d)) d) k] m) v
             = guestValue g m v).
Proof.
  intros Hp Hinj. rewrite !RPtr_MarkPtrDirty.
  assert (Hinj' : host_injective g).
  { intros v w n Hv Hw. apply (Hinj v w n);
      now rewrite (proj1 (MarkPtrDirty_entry _ _ _)). }
  unfold IsMappedAsPointer in Hp.
  destruct (hostReg (g d)) as [n |] eqn:Ed; [| discriminate].
  assert (Rp : RPtr g d = X n) by (unfold RPtr; now rewrite Ed, Hp).
  assert (Off : forall w, w <> d -> MarkPtrDirty g (RPtr g d) w = g w)
    by (intros w Hw; now apply MarkPtrDirty_off with n).
  rewrite Rp in *. cbn [exec exec_inst].
  assert (Reg : forall w a, w <> d -> hostReg (g w) = Some a ->
                            get (set m (X n) (s64 (get m (X n) + k))) (X a) = get m (X a)).
  { intros w a Hw Ha. apply get_set_other. intros [= ->]. apply Hw.
    now apply (Hinj' w d n). }
  split.
  - intros Hsound v Hv.
    destruct (Nat.eq_dec v d) as [-> | Hvd].
    + unfold IsNormalized32 in Hv.
      rewrite (proj1 (MarkPtrDirty_entry _ _ _)), (proj2 (MarkPtrDirty_entry _ _ _)),
        Ed, Hp in Hv. discriminate.
    + assert (Hv0 : IsNormalized32 g v = true)
        by (unfold IsNormalized32 in *; now rewrite <- (Off v Hvd)).
      assert (ER : R (MarkPtrDirty g (X n)) v = R g v) by (unfold R; now rewrite Off).
      rewrite ER. pose proof (Hsound v Hv0) as Hn.
      destruct (IsNormalized32_held _ _ Hv0) as (a & Ea & Pa & _).
      unfold R in *. rewrite Ea, Pa in *. now rewrite (Reg v a).
  - intros v Hvd.
    assert (EV : forall mm, guestValue (MarkPtrDirty g (X n)) mm v = guestValue g mm v)
      by (intros mm; unfold guestValue; now rewrite Off).
    rewrite EV. apply guestValue_ext.
    + intros a Ea. now apply (Reg v a).
    + now apply get_set_other.
    + now rewrite ctx_set.
Qed.

Ltac ptr_branch Eptr :=
  apply andb_prop in Eptr; destruct Eptr as [Eptr _];
  apply andb_prop in Eptr; destruct Eptr as [Eptr Heq];
  apply Nat.eqb_eq in Heq; run_jit;
  let H := fresh "H" in
  let Hc := fresh "Hc" in
  let Hinj := fresh "Hinj" in
  intros H Hc Hinj; injection H as <-; cbn [gpr code] in Hc, Hinj |- *;
  change (code ?j ++ [Host ?i]) with (code j ++ map Host [i]) in Hc;
  apply emitted_code in Hc; subst;
  apply pointer_path_keeps; [now rewrite Heq | exact Hinj].

Lemma CompIR_Arith_keeps cfg inst j j' c m :
  CompIR_Arith cfg inst j = Ret tt j' ->
  code j' = code j ++ map Host c ->
  host_injective (gpr j') ->
  (norm32_sound (gpr j) m -> norm32_sound (gpr j') (exec c m)) /\
  (forall v, v <> dest inst ->
             guestValue (gpr j') (exec c m) v = guestValue (gpr j) m v).
Proof.
  unfold CompIR_Arith, RewriteSubConst.
  destruct (op inst) eqn:Eop; cbn [is_SubConst andb op dest src1 src2 constant];
    rewrite ?Eop; try solve [slow_branch].
  - (* Add *) fast_branch. alu_side.
  - (* Sub *) fast_branch. alu_side.
  - (* AddConst *)
    unfold bind at 1, CONDITIONAL_DISABLE, ret.
    destruct ((-2048 <=? s32 (constant inst)) && (s32 (constant inst) <=? 2047)).
    + unfold bind at 1, the_gpr.
      destruct (IsMappedAsPointer (gpr j) (src1 inst) && Nat.eqb (dest inst) (src1 inst)
                && MASKED_PSP_MEMORY cfg) eqn:Eptr.
      * ptr_branch Eptr.
      * fast_branch. alu_side.
    + fast_branch. alu_side.
  - (* SubConst *)
    destruct ((-2047 <=? s32 (constant inst)) && (s32 (constant inst) <=? 2048));
      cbn [op dest src1 src2 constant]; rewrite ?Eop.
    + unfold bind at 1, CONDITIONAL_DISABLE, ret.
      destruct ((-2048 <=? s32 (u32 (- s32 (constant inst))))
                && (s32 (u32 (- s32 (constant inst))) <=? 2047)).
      * unfold bind at 1, the_gpr.
        destruct (IsMappedAsPointer (gpr j) (src1 inst) && Nat.eqb (dest inst) (src1 inst)
                  && MASKED_PSP_MEMORY cfg) eqn:Eptr.
        { ptr_branch Eptr. }
        { fast_branch. alu_side. }
      * fast_branch. alu_side.
    + fast_branch. alu_side.
  - (* Neg *) fast_branch. alu_side.
Qed.

Ltac src_norm :=
  match goal with
  | Hs : _ <> _ -> IsNormalized32 ?g ?s = true -> normalized_value ?x,
    Nd : normalized32 _ = false |- normalized_value ?x =>
      apply Hs; [eapply normalized_source_apart; [exact Nd | eassumption] | eassumption]
  end.

Lemma sign_bit_clear_of_test c :
  (Z.land c 0x80000000 =? 0) = true -> sign_bit_set c = false.
Proof. unfold sign_bit_set. now intros ->. Qed.

Lemma CompIR_Logic_keeps cfg inst j j' c m :
  CompIR_Logic cfg inst j = Ret tt j' ->
  code j' = code j ++ map Host c ->
  host_injective (gpr j') ->
  (norm32_sound (gpr j) m -> norm32_sound (gpr j') (exec c m)) /\
  (forall v, v <> dest inst ->
             guestValue (gpr j') (exec c m) v = guestValue (gpr j) m v).
Proof.
  unfold CompIR_Logic.
  destruct (op inst) eqn:Eop; try solve [slow_branch].
  - (* And *) fast_branch. alu_side.
  - (* Or *)
    prep.
    destruct (IsNormalized32 _ (src1 inst) && IsNormalized32 _ (src2 inst)) eqn:Eboth;
      fast_branch; alu_side.
    apply andb_prop in Eboth as [N1 N2]. apply normalized_lor; src_norm.
  - (* Xor *) fast_branch. alu_side.
  - (* AndConst *)
    destruct ((-2048 <=? s32 (constant inst)) && (s32 (constant inst) <=? 2047)); prep.
    all: destruct (sign_bit_set (constant inst) && IsNormalized32 _ (src1 inst)) eqn:E1;
      [| destruct (Z.land (constant inst) 2147483648 =? 0) eqn:E2];
      fast_branch; alu_side.
    all: first
      [ apply andb_prop in E1 as [_ N1]; apply normalized_land; [src_norm | apply s32_range]
      | apply land_nonneg_normalized, sign_bit_clear_s32, sign_bit_clear_of_test, E2 ].
  - (* OrConst *)
    destruct ((-2048 <=? s32 (constant inst)) && (s32 (constant inst) <=? 2047)); prep.
    all: destruct (IsNormalized32 _ (src1 inst)) eqn:N1; fast_branch; alu_side.
    all: apply normalized_lor; [src_norm | apply s32_range].
  - (* XorConst *)
    destruct ((-2048 <=? s32 (constant inst)) && (s32 (constant inst) <=? 2047));
      fast_branch; alu_side.
  - (* Not *) fast_branch. alu_side.
Qed.

Lemma CompIR_Assign_keeps cfg inst j j' c m :
  CompIR_Assign cfg inst j = Ret tt j' ->
  code j' = code j ++ map Host c ->
  host_injective (gpr j') ->
  (norm32_sound (gpr j) m -> norm32_sound (gpr j') (exec c m)) /\
  (forall v, v <> dest inst ->
             guestValue (gpr j') (exec c m) v = guestValue (gpr j) m v).
Proof.
  unfold CompIR_Assign.
  destruct (op inst) eqn:Eop; try solve [slow_branch].
  - (* Mov *) fast_branch. alu_side. src_norm.
  - (* Ext8to32 *) destruct (RiscV_Zbb cfg); fast_branch; alu_side.
  - (* Ext16to32 *) destruct (RiscV_Zbb cfg); fast_branch; alu_side.
Qed.

Lemma CompIR_Bits_keeps cfg inst j j' c m :
  CompIR_Bits cfg inst j = Ret tt j' ->
  code j' = code j ++ map Host c ->
  host_injective (gpr j') ->
  (norm32_sound (gpr j) m -> norm32_sound (gpr j') (exec c m)) /\
  (forall v, v <> dest inst ->
             guestValue (gpr j') (exec c m) v = guestValue (gpr j) m v).
Proof.
  unfold CompIR_Bits.
  destruct (op inst) eqn:Eop; try solve [slow_branch].
  (* BSwap32 *)
  destruct (RiscV_Zbb cfg); [| slow_branch].
  destruct (64 <=? XLEN cfg) eqn:E64; fast_branch; alu_side.
  apply wide_shiftr_normalized; [apply Z.leb_le in E64; lia |].
  unfold rev8_value. apply s64_range.
Qed.
Lemma CompIR_keeps cfg grp inst j j' c m :
  CompIR cfg grp inst j = Ret tt j' ->
  code j' = code j ++ map Host c ->
  host_injective (gpr j') ->
  (norm32_sound (gpr j) m -> norm32_sound (gpr j') (exec c m)) /\
  (forall v, v <> dest inst ->
             guestValue (gpr j') (exec c m) v = guestValue (gpr j) m v).
Proof.
  destruct grp; cbn [CompIR].
  - apply CompIR_Arith_keeps.
  - apply CompIR_Logic_keeps.
  - apply CompIR_Assign_keeps.
  - apply CompIR_Bits_keeps.
  - unfold CompIR_Shift. destruct (op inst); slow_branch.
  - unfold CompIR_Compare. destruct (op inst); slow_branch.
  - unfold CompIR_CondAssign. destruct (op inst); slow_branch.
  - unfold CompIR_HiLo. destruct (op inst); slow_branch.
  - unfold CompIR_Mult. destruct (op inst); slow_branch.
  - unfold CompIR_Div. destruct (op inst); slow_branch.
Qed.

Lemma identity_held_injective g :
  (forall v n, hostReg (g v) = Some n -> n = v) -> host_injective g.
Proof. intros H v w n Hv Hw. now rewrite <- (H v n Hv), <- (H w n Hw). Qed.

Ltac identity_cache :=
  apply identity_held_injective;
  let v := fresh "v" in
  let n := fresh "n" in
  intros v n;
  do 8 (destruct v as [| v]; [cbv; intros [= <-]; reflexivity || discriminate |]);
  cbv; discriminate.

Lemma two_normalized_sound : norm32_sound two_normalized sample_machine.
Proof.
  intros v. unfold IsNormalized32, R, two_normalized, upd, empty_gpr, held.
  destruct v as [| [| [| v]]]; simpl; try discriminate; intros _;
    unfold normalized_value, get; simpl; lia.
Qed.

(** X1: every routine of the file keeps the normalization flags truthful.
    When a routine lowers its instruction to host code [c] (no fallback
    call), and the resulting cache holds no host register twice, then from
    a host state in which every register flagged as 32-bit normalized holds
    a sign-extended value, running [c] leads to a state in which that is
    again so for the new flags. *)
Theorem normalization_flags_stay_sound cfg grp inst j j' c m :
  CompIR cfg grp inst j = Ret tt j' ->
  code j' = code j ++ map Host c ->
  host_injective (gpr j') ->
  norm32_sound (gpr j) m ->
  norm32_sound (gpr j') (exec c m).
Proof. intros E Hc Hinj. exact (proj1 (@CompIR_keeps _ _ _ _ _ _ m E Hc Hinj)). Qed.

Lemma normalization_flags_stay_sound_witness :
  let cfg := sample_cfg true false in
  let inst := {| op := IROp.OrConst; dest := 1%nat; src1 := 1%nat; src2 := 0%nat;
                 constant := 0x80000000 |} in
  let j := jit_of two_normalized in
  let j' := final (CompIR cfg Group.Logic inst j) in
  let c := [LI SCRATCH1 (-2147483648); OR (X 1) (X 1) SCRATCH1] in
  CompIR cfg Group.Logic inst j = Ret tt j' /\
  code j' = code j ++ map Host c /\
  host_injective (gpr j') /\
  norm32_sound (gpr j) sample_machine /\
  norm32_sound (gpr j') (exec c sample_machine).
Proof.
  intros cfg inst j j' c.
  assert (Hinj : host_injective (gpr j')) by identity_cache.
  split; [reflexivity |]. split; [reflexivity |]. split; [exact Hinj |].
  split; [exact two_normalized_sound |].
  exact (@normalization_flags_stay_sound cfg Group.Logic inst j j' c sample_machine
           eq_refl eq_refl Hinj two_normalized_sound).
Defined.

(** X2: a lowering changes no guest register but its destination.  When
    a routine lowers its instruction to host code [c] (no fallback call),
    and the resulting cache holds no host register twice, every virtual
    register other than [dest] stands for the same 32-bit guest value after
    running [c] as before, wherever the cache keeps it. *)
Theorem other_registers_keep_their_value cfg grp inst j j' c m v :
  CompIR cfg grp inst j = Ret tt j' ->
  code j' = code j ++ map Host c ->
  host_injective (gpr j') ->
  v <> dest inst ->
  guestValue (gpr j') (exec c m) v = guestValue (gpr j) m v.
Proof. intros E Hc Hinj. exact (proj2 (@CompIR_keeps _ _ _ _ _ _ m E Hc Hinj) v). Qed.

Lemma other_registers_keep_their_value_witness :
  let cfg := sample_cfg true false in
  let inst := {| op := IROp.Sub; dest := 2%nat; src1 := 2%nat; src2 := 4%nat;
                 constant := 0 |} in
  let j := jit_of two_normalized in
  let j' := final (CompIR cfg Group.Arith inst j) in
  let c := [LW (X 4) CTXREG 4%nat; SUBW (X 2) (X 2) (X 4)] in
  CompIR cfg Group.Arith inst j = Ret tt j' /\
  code j' = code j ++ map Host c /\
  host_injective (gpr j') /\
  4%nat <> dest inst /\
  guestValue (gpr j') (exec c sample_machine) 4%nat
  = guestValue (gpr j) sample_machine 4%nat.
Proof.
  intros cfg inst j j' c.
  assert (Hinj : host_injective (gpr j')) by identity_cache.
  split; [reflexivity |]. split; [reflexivity |]. split; [exact Hinj |].
  split; [discriminate |].
  exact (@other_registers_keep_their_value cfg Group.Arith inst j j' c sample_machine
           4%nat eq_refl eq_refl Hinj ltac:(discriminate)).
Defined.
Lemma host_injective_MarkDirty g h b :
  host_injective (MarkDirty g h b) -> host_injective g.
Proof.
  intros H v w n Hv Hw. apply (H v w n); now rewrite MarkDirty_host.
Qed.

Lemma guestValue_held g m d n :
  hostReg (g d) = Some n -> asPointer (g d) = false ->
  guestValue g m d = u32 (get m (X n)).
Proof. intros Hd Pd. unfold guestValue. now rewrite Hd, Pd. Qed.

Lemma u32_bits a i : 0 <= i -> Z.testbit (u32 a) i = (i <? 32) && Z.testbit a i.
Proof. intros Hi. unfold u32. now rewrite Z.testbit_mod_pow2 by lia. Qed.

Lemma u32_land a b : u32 (Z.land a b) = Z.land (u32 a) (u32 b).
Proof.
  apply Z.bits_inj'. intros i Hi.
  rewrite Z.land_spec, !u32_bits, Z.land_spec by assumption.
  destruct (i <? 32), (Z.testbit a i), (Z.testbit b i); reflexivity.
Qed.

Lemma u32_lor a b : u32 (Z.lor a b) = Z.lor (u32 a) (u32 b).
Proof.
  apply Z.bits_inj'. intros i Hi.
  rewrite Z.lor_spec, !u32_bits, Z.lor_spec by assumption.
  destruct (i <? 32), (Z.testbit a i), (Z.testbit b i); reflexivity.
Qed.

Lemma u32_lxor a b : u32 (Z.lxor a b) = Z.lxor (u32 a) (u32 b).
Proof.
  apply Z.bits_inj'. intros i Hi.
  rewrite Z.lxor_spec, !u32_bits, Z.lxor_spec by assumption.
  destruct (i <? 32), (Z.testbit a i), (Z.testbit b i); reflexivity.
Qed.

Lemma u32_lnot a : u32 (Z.lnot a) = 2 ^ 32 - 1 - u32 a.
Proof. unfold Z.lnot, Z.pred. words. Qed.

Lemma u32_add a b : u32 (a + b) = u32 (u32 a + u32 b).
Proof. words. Qed.

Lemma u32_sub a b : u32 (a - b) = u32 (u32 a - u32 b).
Proof. words. Qed.

Lemma u32_neg a : u32 (0 - a) = u32 (- u32 a).
Proof. words. Qed.

Lemma u32_idem a : u32 (u32 a) = u32 a.
Proof. words. Qed.

Ltac value_setup m :=
  run_jit; rewrite ?MapDirtyIn_as_InIn;
  let H := fresh "H" in
  let Hc := fresh "Hc" in
  let Hinj := fresh "Hinj" in
  intros H Hc Hinj; injection H as <-; cbn [gpr code] in Hc, Hinj |- *;
  first [rewrite code_snoc3 in Hc | rewrite code_snoc2 in Hc | rewrite code_snoc in Hc];
  apply emitted_code in Hc; subst;
  try apply host_injective_MarkDirty in Hinj;
  let S := fresh "S" in
  pose proof (fun Hl => @MapDirtyInIn_sem _ _ _ _ _ _ m Hl Hinj) as S;
  specialize (S eq_refl);
  destruct S as (nd & ns & nt & Ed & Es & Ps & Et & Pt & _ & Vs & Vt & _);
  rewrite <- ?Vs, <- ?Vt; clear Vs Vt;
  rewrite ?exec_app;
  match goal with
  | |- context [R ?g ?d] =>
      match type of Ed with
      | g d = _ =>
          replace (R g d) with (X nd) by (unfold R; now rewrite Ed)
      end
  end;
  repeat match goal with
  | |- context [R ?g ?s] =>
      match type of Es with
      | hostReg (g s) = _ =>
          replace (R g s) with (X ns) by (unfold R; now rewrite Es, Ps)
      end
  | |- context [R ?g ?t] =>
      match type of Et with
      | hostReg (g t) = _ =>
          replace (R g t) with (X nt) by (unfold R; now rewrite Et, Pt)
      end
  end.

Ltac value_dest :=
  match goal with
  | Ed : _ = {| hostReg := Some ?n; isDirty := _; normalized32 := _; asPointer := _ |}
    |- _ =>
      rewrite (@guestValue_held _ _ _ n);
      [ cbn [exec exec_inst]; regs; rewrite ?s64_of_s32
      | first [ now rewrite Ed | now rewrite MarkDirty_host, Ed ]
      | first [ now rewrite Ed
              | unfold MarkDirty, R; rewrite Ed;
                cbn [hostReg asPointer RiscVReg_eqb andb negb];
                now rewrite Nat.eqb_refl ] ]
  end.

Ltac value_branch m := value_setup m; value_dest.

Ltac arith_op Eop :=
  unfold CompIR_Arith, RewriteSubConst; rewrite Eop;
  cbn [is_SubConst andb op dest src1 src2 constant]; rewrite ?Eop.

Ltac flag_goal :=
  unfold IsNormalized32;
  match goal with Ed : _ = _ |- _ => rewrite Ed; reflexivity end.

(** X3: when the resulting cache holds no host register twice, [Add] and
    [Sub] compute the 32-bit sum and difference of the two source
    registers, also when [dest] is one or both of them, and leave [dest]
    flagged as normalized. *)
Theorem Add_Sub_value cfg inst j j' c m :
  op inst = IROp.Add \/ op inst = IROp.Sub ->
  CompIR_Arith cfg inst j = Ret tt j' ->
  code j' = code j ++ map Host c ->
  host_injective (gpr j') ->
  guestValue (gpr j') (exec c m) (dest inst)
  = match op inst with
    | IROp.Sub => u32 (guestValue (gpr j) m (src1 inst) - guestValue (gpr j) m (src2 inst))
    | _ => u32 (guestValue (gpr j) m (src1 inst) + guestValue (gpr j) m (src2 inst))
    end /\
  IsNormalized32 (gpr j') (dest inst) = true.
Proof.
  intros [Eop | Eop]; arith_op Eop; value_branch m.
  - split; [rewrite u32_s32; apply u32_add | flag_goal].
  - split; [rewrite u32_s32; apply u32_sub | flag_goal].
Qed.

(** The lowerings of one source need no assumption on the allocator:
    the mapping of the destination emits nothing that writes, so the
    source is read before the destination's register is written. *)
Ltac value2_setup m :=
  run_jit;
  let H := fresh "H" in
  let Hc := fresh "Hc" in
  intros H Hc; injection H as <-; cbn [gpr code] in Hc |- *;
  first [rewrite code_snoc3 in Hc | rewrite code_snoc2 in Hc | rewrite code_snoc in Hc];
  apply emitted_code in Hc; subst;
  let S := fresh "S" in
  match goal with
  | |- context [MapDirtyIn ?a ?g ?d ?s ?ty] =>
      pose proof (fun Hl => @MapDirtyIn_spec a g d s ty m Hl) as S
  end;
  specialize (S eq_refl);
  destruct S as (nd & ns & Ed & Pd & Es & Ps & Nd & _ & Vs);
  rewrite <- ?Vs; clear Vs;
  rewrite ?exec_app;
  match goal with
  | |- context [R ?g ?d] =>
      match type of Ed with
      | hostReg (g d) = _ =>
          replace (R g d) with (X nd) by (unfold R; now rewrite Ed, Pd)
      end
  end;
  repeat match goal with
  | |- context [R ?g ?s] =>
      match type of Es with
      | hostReg (g s) = _ =>
          replace (R g s) with (X ns) by (unfold R; now rewrite Es, Ps)
      end
  end.

Ltac value2_dest :=
  match goal with
  | Ed : hostReg _ = Some ?n, Pd : asPointer _ = false |- context [guestValue _ _ _] =>
      rewrite (@guestValue_held _ _ _ n);
      [ cbn [exec exec_inst]; regs; rewrite ?s64_of_s32
      | first [ exact Ed | now rewrite MarkDirty_host ]
      | first [ exact Pd
              | unfold MarkDirty, R; rewrite Ed, Pd;
                cbn [hostReg asPointer RiscVReg_eqb andb negb];
                now rewrite Nat.eqb_refl ] ]
  end.

Ltac value2 m := value2_setup m; value2_dest.

Ltac flag2_goal :=
  unfold IsNormalized32;
  match goal with
  | Ed : hostReg _ = Some _, Pd : asPointer _ = false, Nd : normalized32 _ = _ |- _ =>
      rewrite Ed, Pd, Nd; reflexivity
  end.

(** X4: [Neg] computes the 32-bit negation of the source register (the
    subtraction from the zero register) and leaves [dest] flagged as
    normalized, whatever host registers the allocator hands out. *)
Theorem Neg_value cfg inst j j' c m :
  op inst = IROp.Neg ->
  CompIR_Arith cfg inst j = Ret tt j' ->
  code j' = code j ++ map Host c ->
  guestValue (gpr j') (exec c m) (dest inst)
  = u32 (- guestValue (gpr j) m (src1 inst)) /\
  IsNormalized32 (gpr j') (dest inst) = true.
Proof.
  intros Eop; arith_op Eop; value2 m.
  split; [| flag2_goal].
  unfold get at 1. rewrite u32_s32. apply u32_neg.
Qed.

Ltac logic_op Eop := unfold CompIR_Logic; rewrite Eop.

(** X5: when the resulting cache holds no host register twice, [And],
    [Or] and [Xor] compute the bitwise operation of the two source
    registers' 32-bit values, whether or not [Or] marks the result
    normalized. *)
Theorem Logic_register_value cfg inst j j' c m :
  op inst = IROp.And \/ op inst = IROp.Or \/ op inst = IROp.Xor ->
  CompIR_Logic cfg inst j = Ret tt j' ->
  code j' = code j ++ map Host c ->
  host_injective (gpr j') ->
  guestValue (gpr j') (exec c m) (dest inst)
  = match op inst with
    | IROp.And => Z.land
    | IROp.Or => Z.lor
    | _ => Z.lxor
    end (guestValue (gpr j) m (src1 inst)) (guestValue (gpr j) m (src2 inst)).
Proof.
  intros [Eop | [Eop | Eop]]; logic_op Eop.
  - value_branch m. apply u32_land.
  - prep.
    destruct (IsNormalized32 _ (src1 inst) && IsNormalized32 _ (src2 inst));
      value_branch m; apply u32_lor.
  - value_branch m. apply u32_lxor.
Qed.

(** X6: [AndConst], [OrConst] and [XorConst] compute the bitwise
    operation of the source register with the 32-bit constant, on the
    immediate path and on the scratch-register path alike, whatever the
    normalization marking decides and whatever host registers the
    allocator hands out. *)
Theorem Logic_constant_value cfg inst j j' c m :
  op inst = IROp.AndConst \/ op inst = IROp.OrConst \/ op inst = IROp.XorConst ->
  CompIR_Logic cfg inst j = Ret tt j' ->
  code j' = code j ++ map Host c ->
  guestValue (gpr j') (exec c m) (dest inst)
  = match op inst with
    | IROp.AndConst => Z.land
    | IROp.OrConst => Z.lor
    | _ => Z.lxor
    end (guestValue (gpr j) m (src1 inst)) (u32 (constant inst)).
Proof.
  intros [Eop | [Eop | Eop]]; logic_op Eop;
    destruct ((-2048 <=? s32 (constant inst)) && (s32 (constant inst) <=? 2047)); run_jit.
  1, 2: destruct (sign_bit_set (constant inst) && IsNormalized32 _ (src1 inst));
    [| destruct (Z.land (constant inst) 2147483648 =? 0)];
    value2 m; now rewrite u32_land, u32_s32.
  1, 2: destruct (IsNormalized32 _ (src1 inst));
    value2 m; now rewrite u32_lor, u32_s32.
  1, 2: value2 m; now rewrite u32_lxor, u32_s32.
Qed.

(** X7: [Not] computes the 32-bit complement of the source register,
    whatever host registers the allocator hands out. *)
Theorem Not_value cfg inst j j' c m :
  op inst = IROp.Not ->
  CompIR_Logic cfg inst j = Ret tt j' ->
  code j' = code j ++ map Host c ->
  guestValue (gpr j') (exec c m) (dest inst)
  = 2 ^ 32 - 1 - guestValue (gpr j) m (src1 inst).
Proof.
  intros Eop; logic_op Eop; value2 m. apply u32_lnot.
Qed.

Lemma IsNormalized32_MarkDirty_at g d n b :
  hostReg (g d) = Some n -> asPointer (g d) = false ->
  IsNormalized32 (MarkDirty g (X n) b) d = b.
Proof.
  intros E P. unfold IsNormalized32, MarkDirty, R. rewrite E, P. simpl.
  rewrite Nat.eqb_refl. simpl. rewrite ?E. reflexivity.
Qed.

(** X8: [Mov] copies the guest value, and the destination inherits the
    normalization flag of a distinct source that was flagged before,
    whatever host registers the allocator hands out. *)
Theorem Mov_value cfg inst j j' c m :
  op inst = IROp.Mov ->
  CompIR_Assign cfg inst j = Ret tt j' ->
  code j' = code j ++ map Host c ->
  guestValue (gpr j') (exec c m) (dest inst) = guestValue (gpr j) m (src1 inst) /\
  (dest inst <> src1 inst -> IsNormalized32 (gpr j) (src1 inst) = true ->
   IsNormalized32 (gpr j') (dest inst) = true).
Proof.
  intros Eop E Hc. split; revert E Hc; unfold CompIR_Assign; rewrite Eop.
  - value2 m. reflexivity.
  - value2_setup m. intros Hne Hn.
    rewrite (@IsNormalized32_MarkDirty_at _ _ nd) by assumption.
    pose proof (@MapDirtyIn_source_kept (AllocateReg cfg) (gpr j) _ _
                  MapType.AVOID_LOAD Hne Hn) as K.
    unfold IsNormalized32 in *. now rewrite K.
Qed.

Ltac narrow :=
  unfold s8, s16, u32, s32, s64 in *;
  rewrite ?Z.shiftl_mul_pow2, ?Z.shiftr_div_pow2 by lia;
  change (2 ^ 7) with 128 in *; change (2 ^ 8) with 256 in *;
  change (2 ^ 15) with 32768 in *; change (2 ^ 16) with 65536 in *;
  change (2 ^ 24) with 16777216 in *;
  change (2 ^ 31) with 2147483648 in *;
  change (2 ^ 32) with 4294967296 in *;
  change (2 ^ 63) with 9223372036854775808 in *;
  change (2 ^ 64) with 18446744073709551616 in *;
  Z.div_mod_to_equations; lia.

Lemma s8_u32 a : s8 (u32 a) = s8 a.
Proof. narrow. Qed.

Lemma s16_u32 a : s16 (u32 a) = s16 a.
Proof. narrow. Qed.

Lemma shift_pair_8 a : Z.shiftr (s32 (s64 (Z.shiftl a 24))) 24 = s8 a.
Proof. narrow. Qed.

Lemma shift_pair_16 a : Z.shiftr (s32 (s64 (Z.shiftl a 16))) 16 = s16 a.
Proof. narrow. Qed.

(** X9: [Ext8to32] and [Ext16to32] compute the sign extension of the low
    byte or half-word of the source; the [SEXT_B]/[SEXT_H] path and the
    [SLLI]+[SRAIW] path give the same value, and [dest] is flagged as
    normalized, whatever host registers the allocator hands out. *)
Theorem Ext_value cfg inst j j' c m :
  op inst = IROp.Ext8to32 \/ op inst = IROp.Ext16to32 ->
  CompIR_Assign cfg inst j = Ret tt j' ->
  code j' = code j ++ map Host c ->
  guestValue (gpr j') (exec c m) (dest inst)
  = u32 (match op inst with IROp.Ext8to32 => s8 | _ => s16 end
           (guestValue (gpr j) m (src1 inst))) /\
  IsNormalized32 (gpr j') (dest inst) = true.
Proof.
  intros [Eop | Eop]; unfold CompIR_Assign; rewrite Eop;
    destruct (RiscV_Zbb cfg); value2 m; (split; [| flag2_goal]).
  - now rewrite s8_u32.
  - now rewrite shift_pair_8, s8_u32.
  - now rewrite s16_u32.
  - now rewrite shift_pair_16, s16_u32.
Qed.

Lemma byte_at_range x i : 0 <= byte_at x i < 256.
Proof.
  unfold byte_at. change 255 with (Z.ones 8). rewrite Z.land_ones by lia.
  apply Z.mod_pos_bound. lia.
Qed.

Lemma byte_at_u32 x i : 0 <= i < 4 -> byte_at (u32 x) i = byte_at x i.
Proof.
  intros Hi. unfold byte_at. apply Z.bits_inj'. intros k Hk.
  rewrite !Z.land_spec, !Z.shiftr_spec, u32_bits by lia.
  change 255 with (Z.ones 8).
  destruct (Z.ltb_spec k 8) as [Hlt | Hge].
  - replace (k + 8 * i <? 32) with true by (symmetry; apply Z.ltb_lt; lia).
    reflexivity.
  - rewrite Z.ones_spec_high by lia. now rewrite !andb_false_r.
Qed.

Lemma rev8_high_word x :
  u32 (Z.shiftr (rev8_value x) 32) = bswap32_value (u32 x).
Proof.
  unfold bswap32_value. rewrite !byte_at_u32 by lia. unfold rev8_value.
  pose proof (byte_at_range x 0). pose proof (byte_at_range x 1).
  pose proof (byte_at_range x 2). pose proof (byte_at_range x 3).
  pose proof (byte_at_range x 4). pose proof (byte_at_range x 5).
  pose proof (byte_at_range x 6). pose proof (byte_at_range x 7).
  generalize dependent (byte_at x 0). generalize dependent (byte_at x 1).
  generalize dependent (byte_at x 2). generalize dependent (byte_at x 3).
  generalize dependent (byte_at x 4). generalize dependent (byte_at x 5).
  generalize dependent (byte_at x 6). generalize dependent (byte_at x 7).
  intros. unfold u32, s64. rewrite Z.shiftr_div_pow2 by lia.
  change (2 ^ 8) with 256. change (2 ^ 16) with 65536.
  change (2 ^ 24) with 16777216. change (2 ^ 32) with 4294967296.
  change (2 ^ 40) with 1099511627776. change (2 ^ 48) with 281474976710656.
  change (2 ^ 56) with 72057594037927936.
  change (2 ^ 63) with 9223372036854775808.
  change (2 ^ 64) with 18446744073709551616.
  Z.div_mod_to_equations. lia.
Qed.

(** X10: with Zbb on a 64-bit host, [BSwap32] computes the byte swap of
    the 32-bit source value: [REV8] reverses the eight bytes of the
    register and the arithmetic shift by [XLEN - 32] brings the swapped
    word down, sign-extended, so that [dest] is rightly marked normalized;
    this holds whatever host registers the allocator hands out. *)
Theorem BSwap32_value cfg inst j j' c m :
  op inst = IROp.BSwap32 ->
  RiscV_Zbb cfg = true ->
  XLEN cfg = 64 ->
  CompIR_Bits cfg inst j = Ret tt j' ->
  code j' = code j ++ map Host c ->
  guestValue (gpr j') (exec c m) (dest inst)
  = bswap32_value (guestValue (gpr j) m (src1 inst)) /\
  IsNormalized32 (gpr j') (dest inst) = true.
Proof.
  intros Eop Ezbb Exlen. unfold CompIR_Bits. rewrite Eop, Ezbb, Exlen.
  cbn [Z.leb Z.compare Pos.compare Pos.compare_cont Z.sub Z.add Z.opp Z.pos_sub].
  value2 m.
  split; [apply rev8_high_word | now apply IsNormalized32_MarkDirty_at].
Qed.
Lemma MapRegDirty_code_plain alloc g v load mark xlen :
  Forall (well_encoded xlen) (snd (MapRegDirty alloc g v load mark)).
Proof.
  unfold MapRegDirty.
  destruct (hostReg (g v)); cbn [snd];
    [destruct (asPointer (g v) && load) | destruct load];
    repeat constructor.
Qed.

Lemma MapRegIn_code_plain alloc g v xlen :
  Forall (well_encoded xlen) (snd (MapRegIn alloc g v)).
Proof.
  unfold MapRegIn.
  destruct (hostReg (g v)); [destruct (asPointer (g v)) |]; cbn [snd];
    repeat constructor.
Qed.

Lemma MapDirtyInIn_code_plain alloc g d s t type xlen :
  Forall (well_encoded xlen) (snd (MapDirtyInIn alloc g d s t type)).
Proof.
  unfold MapDirtyInIn.
  pose proof (MapRegDirty_code_plain alloc g d
                (always_load type || Nat.eqb d s || Nat.eqb d t)
                (marks_norm32 type) xlen) as H1.
  destruct (MapRegDirty alloc g d _ _) as [g1 c1].
  pose proof (MapRegIn_code_plain alloc g1 s xlen) as H2.
  destruct (MapRegIn alloc g1 s) as [g2 c2].
  pose proof (MapRegIn_code_plain alloc g2 t xlen) as H3.
  destruct (MapRegIn alloc g2 t) as [g3 c3].
  cbn [snd] in *. rewrite !Forall_app. auto.
Qed.

Lemma in_range_encodable c :
  (-2048 <=? c) && (c <=? 2047) = true -> encodable_simm12 c.
Proof. intros H. apply andb_prop in H as [H1 H2]. unfold encodable_simm12. lia. Qed.

Ltac enc_branch :=
  repeat (run_jit;
          match goal with
          | |- context [if ?b then _ else _] => destruct b eqn:?
          end);
  run_jit; rewrite ?MapDirtyIn_as_InIn; unfold CompIR_Generic;
  let H := fresh "H" in
  let Hc := fresh "Hc" in
  intros H Hc; injection H as <-; cbn [gpr code] in Hc |- *;
  first [ exfalso; exact (generic_call_is_not_host _ _ _ Hc)
        | rewrite code_snoc3 in Hc | rewrite code_snoc2 in Hc | rewrite code_snoc in Hc
        | change (code ?j ++ [Host ?i]) with (code j ++ map Host [i]) in Hc ];
  apply emitted_code in Hc; subst;
  rewrite ?Forall_app; repeat split;
  try apply MapDirtyInIn_code_plain;
  repeat first [apply Forall_cons | apply Forall_nil];
  cbn [well_encoded];
  repeat match goal with
         | H : (_ <=? _) = true |- _ => apply Z.leb_le in H
         end;
  first [ exact I | apply in_range_encodable; assumption | lia ].

Ltac slow_enc :=
  unfold bind at 1, CONDITIONAL_DISABLE, ret; rewrite ?INVALIDOP_eq;
  try match goal with |- context [HandleAssert ?c ?d] => destruct (HandleAssert c d) end;
  unfold CompIR_Generic;
  first
    [ discriminate
    | let H := fresh "H" in
      let Hc := fresh "Hc" in
      intros H Hc; injection H as <-; cbn [code] in Hc; exfalso;
      exact (generic_call_is_not_host _ _ _ Hc) ].

(** X11: every host instruction a routine emits fits its encoding:
    the 12-bit immediates of [ADDI], [ADDIW], [ANDI], [ORI] and [XORI] are
    within [-2048, 2047] (the range tests guard every immediate form,
    including the rewritten [SubConst]), and every shift amount is below
    the register width. *)
Theorem emitted_code_is_encodable cfg grp inst j j' c :
  32 <= XLEN cfg ->
  CompIR cfg grp inst j = Ret tt j' ->
  code j' = code j ++ map Host c ->
  Forall (well_encoded (XLEN cfg)) c.
Proof.
  intros Hx.
  destruct grp; cbn [CompIR];
    unfold CompIR_Arith, RewriteSubConst, CompIR_Logic, CompIR_Assign, CompIR_Bits,
      CompIR_Shift, CompIR_Compare, CompIR_CondAssign, CompIR_HiLo, CompIR_Mult,
      CompIR_Div;
    destruct (op inst) eqn:Eop; cbn [is_SubConst andb op dest src1 src2 constant];
    rewrite ?Eop; try solve [slow_enc].
  all: try solve [enc_branch].
  destruct ((-2047 <=? s32 (constant inst)) && (s32 (constant inst) <=? 2048));
    cbn [op dest src1 src2 constant]; rewrite ?Eop; enc_branch.
Qed.
Lemma MapRegIn_held_kept alloc g v w n :
  hostReg (g w) = Some n -> asPointer (g w) = false ->
  fst (MapRegIn alloc g v) w = g w.
Proof.
  intros E P. destruct (Nat.eq_dec w v) as [-> | Hne].
  - unfold MapRegIn. now rewrite E, P.
  - now apply MapRegIn_frame.
Qed.

Lemma MapRegDirty_dest alloc g d load mk :
  exists n, fst (MapRegDirty alloc g d load mk) d
            = {| hostReg := Some n; isDirty := true; normalized32 := mk;
                 asPointer := false |}.
Proof.
  unfold MapRegDirty. destruct (hostReg (g d)) as [n |]; cache_simp; eexists; reflexivity.
Qed.

Lemma MapDirtyInIn_dest alloc g d s t type :
  exists n, fst (MapDirtyInIn alloc g d s t type) d
            = {| hostReg := Some n; isDirty := true;
                 normalized32 := marks_norm32 type; asPointer := false |}.
Proof.
  unfold MapDirtyInIn.
  destruct (MapRegDirty_dest alloc g d
              (always_load type || Nat.eqb d s || Nat.eqb d t) (marks_norm32 type))
    as [n E].
  destruct (MapRegDirty alloc g d _ _) as [g1 c1]. cbn [fst] in E.
  assert (E2 : fst (MapRegIn alloc g1 s) d = g1 d)
    by (apply MapRegIn_held_kept with n; now rewrite E).
  destruct (MapRegIn alloc g1 s) as [g2 c2]. cbn [fst] in E2.
  assert (E3 : fst (MapRegIn alloc g2 t) d = g2 d)
    by (apply MapRegIn_held_kept with n; now rewrite E2, E).
  destruct (MapRegIn alloc g2 t) as [g3 c3]. cbn [fst] in *.
  exists n. now rewrite E3, E2.
Qed.

Lemma IsDirty_MarkDirty g h b v : IsDirty g v = true -> IsDirty (MarkDirty g h b) v = true.
Proof.
  unfold IsDirty, MarkDirty.
  destruct (RiscVReg_eqb (R g v) h && negb (RiscVReg_eqb h INVALID_REG));
    cbn [hostReg isDirty]; [destruct (hostReg (g v)); intros; congruence | auto].
Qed.

Lemma IsDirty_MarkPtrDirty g d :
  IsMappedAsPointer g d = true -> IsDirty (MarkPtrDirty g (RPtr g d)) d = true.
Proof.
  unfold IsMappedAsPointer, IsDirty, MarkPtrDirty, RPtr.
  destruct (hostReg (g d)) as [n |] eqn:E; [| discriminate]. intros ->.
  cbn [RiscVReg_eqb andb negb]. rewrite Nat.eqb_refl. cbn [hostReg isDirty andb].
  rewrite ?E. reflexivity.
Qed.

Ltac dirty_branch :=
  repeat (run_jit;
          match goal with
          | |- context [if ?b then _ else _] => destruct b eqn:?
          end);
  run_jit; rewrite ?MapDirtyIn_as_InIn; unfold CompIR_Generic;
  let H := fresh "H" in
  let Hc := fresh "Hc" in
  intros H Hc; injection H as <-; cbn [gpr code] in Hc |- *;
  first
    [ exfalso; exact (generic_call_is_not_host _ _ _ Hc)
    | apply IsDirty_MarkPtrDirty;
      match goal with
      | E : _ && _ && _ = true |- _ =>
          apply andb_prop in E as [E _]; apply andb_prop in E as [E E'];
          apply Nat.eqb_eq in E'; now rewrite E'
      end
    | try apply IsDirty_MarkDirty;
      match goal with
      | |- IsDirty (fst (MapDirtyInIn ?a ?g ?d ?s ?t ?ty)) _ = true =>
          let n := fresh "n" in
          let E := fresh "E" in
          destruct (MapDirtyInIn_dest a g d s t ty) as [n E];
          unfold IsDirty; rewrite E; reflexivity
      end ].

(** X12: whenever a routine lowers its instruction to host code, the
    cache afterwards holds [dest] dirty, on the value paths and on the
    pointer path of [AddConst]. *)
Theorem destination_left_dirty cfg grp inst j j' c :
  CompIR cfg grp inst j = Ret tt j' ->
  code j' = code j ++ map Host c ->
  IsDirty (gpr j') (dest inst) = true.
Proof.
  destruct grp; cbn [CompIR];
    unfold CompIR_Arith, RewriteSubConst, CompIR_Logic, CompIR_Assign, CompIR_Bits,
      CompIR_Shift, CompIR_Compare, CompIR_CondAssign, CompIR_HiLo, CompIR_Mult,
      CompIR_Div;
    destruct (op inst) eqn:Eop; cbn [is_SubConst andb op dest src1 src2 constant];
    rewrite ?Eop; try solve [slow_enc].
  all: try solve [dirty_branch].
  destruct ((-2047 <=? s32 (constant inst)) && (s32 (constant inst) <=? 2048));
    cbn [op dest src1 src2 constant]; rewrite ?Eop; dirty_branch.
Qed.
(** ** Frame timing *)

Lemma shares_lor s a b :
  Draw.shares s (Z.lor a b) = Draw.shares s a || Draw.shares s b.
Proof.
  unfold Draw.shares. rewrite Z.land_lor_distr_r.
  destruct (Z.eqb_spec (Z.land s a) 0) as [Ea | Ea];
    destruct (Z.eqb_spec (Z.land s b) 0) as [Eb | Eb];
    destruct (Z.eqb_spec (Z.lor (Z.land s a) (Z.land s b)) 0) as [E | E];
    try reflexivity; exfalso.
  - apply E. rewrite Ea, Eb. reflexivity.
  - apply Z.lor_eq_0_iff in E. tauto.
  - apply Z.lor_eq_0_iff in E. tauto.
  - apply Z.lor_eq_0_iff in E. tauto.
Qed.

Section PresentModeFacts.
Variable PM : Draw.PresentModes.

Lemma GetBestImmediateMode_usable supported :
  Draw.shares supported (Draw.MAILBOX PM) || Draw.shares supported (Draw.IMMEDIATE PM)
  = true ->
  usable PM supported (GetBestImmediateMode PM supported).
Proof.
  unfold GetBestImmediateMode, usable.
  destruct (Draw.shares supported (Draw.MAILBOX PM)); cbn [orb]; intros H; auto.
Qed.

(** X13: [ComputePresentMode] only returns a mode the device can use:
    [FIFO], or [MAILBOX] when the device supports it, or [IMMEDIATE] when
    the device supports it and does not support [MAILBOX]. *)
Theorem ComputePresentMode_usable caps g_Config core :
  usable PM (Draw.presentModesSupported caps)
    (fst (ComputePresentMode PM caps g_Config core)).
Proof.
  unfold ComputePresentMode. cbn [fst]. rewrite shares_lor.
  destruct (Draw.shares _ (Draw.IMMEDIATE PM) || Draw.shares _ (Draw.MAILBOX PM)) eqn:E;
    [| now left].
  match goal with
  | |- usable _ _ (if ?b then _ else _) => destruct b; [| now left]
  end.
  apply GetBestImmediateMode_usable. now rewrite orb_comm.
Qed.

(** X14: [Reset] leaves a usable mode and the interval that goes with
    it: [FIFO] with interval 1, or, only with vsync off, the best
    instant mode with interval 0; and it clears [setTimestepCalled_]. *)
Theorem Reset_usable ft caps g_Config :
  let ft' := Reset PM ft caps g_Config in
  usable PM (Draw.presentModesSupported caps) (FT.presentMode ft') /\
  (FT.presentInterval ft' = 1 /\ FT.presentMode ft' = Draw.FIFO PM
   \/ FT.presentInterval ft' = 0 /\ bVSync g_Config = false
      /\ FT.presentMode ft' = GetBestImmediateMode PM (Draw.presentModesSupported caps)) /\
  FT.setTimestepCalled_ ft' = false.
Proof.
  unfold Reset. rewrite shares_lor.
  destruct (bVSync g_Config); cbn [orb negb FT.set_setTimestepCalled FT.set_present
    FT.presentMode FT.presentInterval FT.setTimestepCalled_].
  - split; [now left | split; [now left | reflexivity]].
  - destruct (Draw.shares _ (Draw.MAILBOX PM) || Draw.shares _ (Draw.IMMEDIATE PM)) eqn:E;
      cbn [orb negb FT.set_setTimestepCalled FT.set_present
             FT.presentMode FT.presentInterval FT.setTimestepCalled_].
    + split; [now apply GetBestImmediateMode_usable | split; [right; auto | reflexivity]].
    + split; [now left | split; [now left | reflexivity]].
Qed.

(** X15: with vsync on and a backend that cannot change the present mode
    instantly, [ComputePresentMode] answers [FIFO] with interval 1 whatever
    the speed settings are (fast-forward, custom or analog limits). *)
Theorem vsync_kept_without_instant_change caps g_Config core :
  bVSync g_Config = true ->
  Draw.presentInstantModeChange caps = false ->
  ComputePresentMode PM caps g_Config core = (Draw.FIFO PM, 1).
Proof.
  intros Hv Hi. unfold ComputePresentMode. rewrite Hv, Hi. cbn [negb andb].
  destruct (Draw.shares _ _); [| now rewrite Z.eqb_refl].
  destruct (fastForward core), (negb (FPSLimit.is_NORMAL (fpsLimit core)));
    try match goal with
        | |- context [if (?a || ?b) then true else _] => destruct (a || b)
        end;
    cbn [andb]; rewrite Z.eqb_refl; reflexivity.
Qed.

(** X16: at normal speed (no fast-forward, limit [NORMAL]) and with the
    instant modes distinct from [FIFO], [ComputePresentMode] returns exactly
    the mode and the interval that [Reset] stores. *)
Theorem ComputePresentMode_at_normal_speed ft caps g_Config core :
  Draw.MAILBOX PM <> Draw.FIFO PM ->
  Draw.IMMEDIATE PM <> Draw.FIFO PM ->
  fastForward core = false ->
  fpsLimit core = FPSLimit.NORMAL ->
  ComputePresentMode PM caps g_Config core
  = (FT.presentMode (Reset PM ft caps g_Config),
     FT.presentInterval (Reset PM ft caps g_Config)).
Proof.
  intros Hm Hi Hf Hl. unfold ComputePresentMode, Reset. rewrite Hf, Hl.
  rewrite (Z.lor_comm (Draw.IMMEDIATE PM)).
  cbn [FPSLimit.is_NORMAL negb].
  destruct (bVSync g_Config), (Draw.shares _ (Z.lor _ _));
    cbn [orb andb negb FT.set_setTimestepCalled FT.set_present
           FT.presentMode FT.presentInterval];
    rewrite ?Z.eqb_refl; try reflexivity.
  unfold GetBestImmediateMode.
  destruct (Draw.shares _ (Draw.MAILBOX PM)).
  - now rewrite (proj2 (Z.eqb_neq _ _) Hm).
  - now rewrite (proj2 (Z.eqb_neq _ _) Hi).
Qed.

(** X17: the speed limit rule of [ComputePresentMode].  With vsync on,
    no fast-forward, a backend that can switch instantly and offers an
    instant mode, a limit other than [NORMAL] keeps [FIFO] exactly when the
    selected limit is negative or one of 15, 30 and 60, and otherwise
    (zero included) selects the best instant mode. *)
Theorem clean_factor_keeps_vsync caps g_Config core :
  bVSync g_Config = true ->
  fastForward core = false ->
  fpsLimit core <> FPSLimit.NORMAL ->
  Draw.presentInstantModeChange caps = true ->
  Draw.shares (Draw.presentModesSupported caps)
    (Z.lor (Draw.IMMEDIATE PM) (Draw.MAILBOX PM)) = true ->
  fst (ComputePresentMode PM caps g_Config core)
  = if (limit_of g_Config core <? 0) || (limit_of g_Config core =? 15)
       || (limit_of g_Config core =? 30) || (limit_of g_Config core =? 60)
    then Draw.FIFO PM
    else GetBestImmediateMode PM (Draw.presentModesSupported caps).
Proof.
  intros Hv Hf Hl Hi Hs. unfold ComputePresentMode. rewrite Hv, Hf, Hi, Hs.
  cbn [fst negb andb].
  replace (FPSLimit.is_NORMAL (fpsLimit core)) with false
    by (destruct (fpsLimit core); [congruence | reflexivity ..]).
  cbn [negb]. fold (limit_of g_Config core).
  generalize (limit_of g_Config core) as limit. intros limit.
  destruct (Z.eqb_spec limit 0), (Z.leb_spec 0 limit), (Z.ltb_spec limit 0),
    (Z.eqb_spec limit 15), (Z.eqb_spec limit 30), (Z.eqb_spec limit 60);
    cbn [orb andb negb]; try reflexivity; lia.
Qed.
End PresentModeFacts.
(** ** Frame timing: the clock *)

Lemma SetTimeStep_runs step ft w now rest :
  clock w = now :: rest ->
  exists ft',
    SetTimeStep step ft w
    = Some (ft', mkWorld rest (sleeps w) (dbg_asserts w ++ [FT.usePresentTiming ft])) /\
    FT.setTimestepCalled_ ft' = true /\
    FT.timeStep ft' = step /\
    FT.cpuTime ft' = (now - FT.cpuSliceStartTime ft)%float /\
    FT.usePresentTiming ft' = FT.usePresentTiming ft /\
    FT.nudge_ ft' = FT.nudge_ ft /\
    (FT.lastPresentTime ft' = FT.lastPresentTime ft \/ FT.lastPresentTime ft' = now).
Proof.
  intros Hc. unfold SetTimeStep, time_now_d, _dbg_assert_. cbn [clock sleeps dbg_asserts].
  rewrite Hc. eexists. split; [reflexivity |].
  cbn. destruct (PrimFloat.ltb _ _); cbn; auto 10.
Qed.

(** X18: after [AfterCPUSlice] the time step has been set.  Given one
    clock reading, the call returns with [setTimestepCalled_] set, every
    debug assertion it evaluated held (it turns present timing on before
    calling [SetTimeStep]), and it never sleeps; when the time step had
    been set already nothing changes and the clock is not read. *)
Theorem AfterCPUSlice_sets_the_time_step ft w :
  clock w <> [] ->
  exists ft' w' checked,
    AfterCPUSlice ft w = Some (ft', w') /\
    FT.setTimestepCalled_ ft' = true /\
    dbg_asserts w' = dbg_asserts w ++ checked /\
    Forall (fun b => b = true) checked /\
    sleeps w' = sleeps w /\
    (FT.setTimestepCalled_ ft = true -> ft' = ft /\ w' = w).
Proof.
  intros Hc. unfold AfterCPUSlice.
  destruct (FT.setTimestepCalled_ ft) eqn:E; cbn [negb].
  - exists ft, w, []. rewrite app_nil_r. repeat split; auto.
  - destruct (clock w) as [| now rest] eqn:Ec; [congruence |].
    destruct (@SetTimeStep_runs one_sixtieth_f (FT.set_usePresentTiming ft true) w
                now rest Ec) as (ft' & Hrun & Hs & _).
    eexists ft', _, _. split; [exact Hrun |]. cbn [dbg_asserts sleeps].
    split; [exact Hs |]. split; [reflexivity |].
    split; [repeat constructor |]. split; [reflexivity | discriminate].
Qed.

(** X19: [Reset] followed by [AfterCPUSlice] takes the menu path: present
    timing is turned on, the time step is the single-precision [1/60], the
    CPU time is measured from the reading of the clock, and the present
    mode chosen by [Reset] stays. *)
Theorem Reset_then_AfterCPUSlice PM ft caps g_Config w now rest :
  clock w = now :: rest ->
  exists ft' w',
    AfterCPUSlice (Reset PM ft caps g_Config) w = Some (ft', w') /\
    FT.usePresentTiming ft' = true /\
    FT.timeStep ft' = one_sixtieth_f /\
    FT.cpuTime ft' = (now - FT.cpuSliceStartTime ft)%float /\
    FT.presentMode ft' = FT.presentMode (Reset PM ft caps g_Config) /\
    clock w' = rest.
Proof.
  intros Hc. unfold AfterCPUSlice.
  replace (FT.setTimestepCalled_ (Reset PM ft caps g_Config)) with false
    by (unfold Reset; destruct (_ || _); reflexivity).
  cbn [negb].
  destruct (@SetTimeStep_runs one_sixtieth_f
              (FT.set_usePresentTiming (Reset PM ft caps g_Config) true) w now rest Hc)
    as (ft' & Hrun & _ & Hstep & Hcpu & Hu & _).
  eexists ft', _. split; [exact Hrun |].
  split; [exact Hu |]. split; [exact Hstep |].
  split; [rewrite Hcpu; unfold Reset; destruct (_ || _); reflexivity |].
  split; [| reflexivity].
  revert Hrun. unfold SetTimeStep, time_now_d, _dbg_assert_.
  cbn [clock sleeps dbg_asserts]. rewrite Hc. intros [= <-].
  destruct (PrimFloat.ltb _ _); reflexivity.
Qed.

(** X20: [BeforeCPUSlice] followed by [SetTimeStep] stores as [cpuTime]
    the difference of the two clock readings they take, whatever the frame
    history makes of the nudge, and neither of them sleeps. *)
Theorem cpuTime_is_the_time_between_readings frameHistory step ft w t0 t1 rest :
  clock w = t0 :: t1 :: rest ->
  exists ft1 w1 ft2 w2,
    BeforeCPUSlice frameHistory ft w = Some (ft1, w1) /\
    SetTimeStep step ft1 w1 = Some (ft2, w2) /\
    FT.cpuTime ft2 = (t1 - t0)%float /\
    clock w2 = rest /\
    sleeps w2 = sleeps w.
Proof.
  intros Hc. unfold BeforeCPUSlice, time_now_d. rewrite Hc.
  match goal with
  | |- context [if ?b then Some (?a, ?w1) else Some (?c, _)] =>
      assert (Hs : FT.cpuSliceStartTime a = t0 /\ FT.cpuSliceStartTime c = t0)
        by (split; [reflexivity |];
            repeat match goal with
                   | |- context [if ?x then _ else _] => destruct x
                   end; reflexivity);
      destruct Hs as [Ha Hb];
      destruct b;
      [ destruct (@SetTimeStep_runs step a w1 t1 rest eq_refl)
          as (ft2 & Hrun & _ & _ & Hcpu & _)
      | destruct (@SetTimeStep_runs step c w1 t1 rest eq_refl)
          as (ft2 & Hrun & _ & _ & Hcpu & _) ];
      eexists _, _, ft2, _; (split; [reflexivity |]); (split; [exact Hrun |]);
      rewrite Hcpu, ?Ha, ?Hb; repeat split
  end.
Qed.

Lemma wait_until_spec next readings slept rest slept' :
  wait_until next readings slept = Some (rest, slept') ->
  exists waited now,
    readings = waited ++ now :: rest /\
    slept' = slept ++ map (fun r => (next - r)%float) waited /\
    Forall (fun r => (next - r <=? 0.0)%float = false) waited /\
    (next - now <=? 0.0)%float = true.
Proof.
  revert slept. induction readings as [| r readings IH]; intros slept H; [discriminate |].
  cbn [wait_until] in H.
  destruct (PrimFloat.leb (next - r) 0.0) eqn:E.
  - injection H as <- <-. exists [], r. rewrite app_nil_r. repeat split; auto.
  - destruct (IH _ H) as (waited & now & -> & -> & Hw & Hn).
    exists (r :: waited), now. cbn [map app]. rewrite <- app_assoc.
    repeat split; auto.
Qed.

Lemma wait_until_ends next readings slept :
  Exists (fun r => (next - r <=? 0.0)%float = true) readings ->
  exists rest slept', wait_until next readings slept = Some (rest, slept').
Proof.
  intros H. revert slept. induction H as [r l Hr | r l _ IH]; intros slept;
    cbn [wait_until].
  - rewrite Hr. eauto.
  - destruct (PrimFloat.leb (next - r) 0.0); eauto.
Qed.

(** X21: what [BeforePresent] has done when it returns with present
    timing on.  The deadline is [lastPresentTime + timeStep + nudge_]; it is
    stored in [nextPresentTime] and becomes the new [lastPresentTime]; the
    clock was read once per turn of the loop; each reading before the last
    left a remaining time not [<= 0] and was followed by a sleep of exactly
    that remaining time; at the last reading the remaining time was
    [<= 0]. *)
Theorem BeforePresent_waits_for_the_deadline ft w ft' w' :
  FT.usePresentTiming ft = true ->
  BeforePresent ft w = Some (ft', w') ->
  let next := (FT.lastPresentTime ft + FT.timeStep ft + FT.nudge_ ft)%float in
  FT.nextPresentTime ft' = next /\
  FT.lastPresentTime ft' = next /\
  exists waited now,
    clock w = waited ++ now :: clock w' /\
    sleeps w' = sleeps w ++ map (fun r => (next - r)%float) waited /\
    Forall (fun r => (next - r <=? 0.0)%float = false) waited /\
    (next - now <=? 0.0)%float = true.
Proof.
  intros Hu. unfold BeforePresent. rewrite Hu. cbn [negb].
  cbn [FT.set_nextPresentTime FT.nextPresentTime FT.lastPresentTime FT.timeStep FT.nudge_].
  destruct (wait_until _ (clock w) (sleeps w)) as [[rest slept] |] eqn:E; [| discriminate].
  intros [= <- <-]. cbn [FT.set_lastPresentTime FT.nextPresentTime FT.lastPresentTime
                          clock sleeps].
  split; [reflexivity |]. split; [reflexivity |].
  exact (wait_until_spec _ _ _ E).
Qed.

(** X22: [BeforePresent] returns as soon as some clock reading reaches
    the deadline, it never changes the time step and evaluates no
    assertion; with present timing off it returns at once and changes
    nothing. *)
Theorem BeforePresent_returns ft w :
  (FT.usePresentTiming ft = true ->
   Exists (fun r => (FT.lastPresentTime ft + FT.timeStep ft + FT.nudge_ ft - r <=? 0.0)%float
                    = true) (clock w)) ->
  exists ft' w',
    BeforePresent ft w = Some (ft', w') /\
    FT.timeStep ft' = FT.timeStep ft /\
    dbg_asserts w' = dbg_asserts w /\
    (FT.usePresentTiming ft = false -> ft' = ft /\ w' = w).
Proof.
  intros H. unfold BeforePresent.
  destruct (FT.usePresentTiming ft); cbn [negb].
  - destruct (wait_until_ends (sleeps w) (H eq_refl)) as (rest & slept & E).
    cbn [FT.set_nextPresentTime FT.nextPresentTime FT.lastPresentTime FT.timeStep
           FT.nudge_].
    rewrite E. eexists _, _. split; [reflexivity |].
    repeat split; discriminate.
  - exists ft, w. repeat split; auto.
Qed.
(** ** Frame timing: a deadline that is not a number *)

Lemma SFeqb_self_false x : SFeqb x x = false -> x = S754_nan.
Proof.
  unfold SFeqb, SFcompare.
  destruct x as [s | s | | s m e]; try reflexivity; try (destruct s; discriminate).
  rewrite Z.compare_refl, Pos.compare_cont_refl. destruct s; discriminate.
Qed.

Lemma is_nan_Prim2SF x : PrimFloat.is_nan x = true -> Prim2SF x = S754_nan.
Proof.
  unfold PrimFloat.is_nan. rewrite FloatAxioms.eqb_spec. intros H.
  apply SFeqb_self_false. now destruct (SFeqb _ _).
Qed.

Lemma nan_is_never_reached next r :
  PrimFloat.is_nan next = true -> (next - r <=? 0.0)%float = false.
Proof.
  intros H. rewrite leb_spec, sub_spec, (is_nan_Prim2SF _ H). reflexivity.
Qed.

Lemma wait_until_nan next readings slept :
  PrimFloat.is_nan next = true -> wait_until next readings slept = None.
Proof.
  intros H. revert slept. induction readings as [| r readings IH]; intros slept;
    [reflexivity |].
  cbn [wait_until]. rewrite (@nan_is_never_reached next r H). apply IH.
Qed.

(** X23: a deadline that is not a number is never reached.  With present
    timing on and [lastPresentTime + timeStep + nudge_] a NaN, the test
    [remaining <= 0.0] fails at every reading, so the loop of
    [BeforePresent] does not end however many clock readings it is
    given. *)
Theorem BeforePresent_spins_on_NaN ft w :
  FT.usePresentTiming ft = true ->
  PrimFloat.is_nan (FT.lastPresentTime ft + FT.timeStep ft + FT.nudge_ ft)%float = true ->
  BeforePresent ft w = None.
Proof.
  intros Hu Hn. unfold BeforePresent. rewrite Hu. cbn [negb].
  cbn [FT.set_nextPresentTime FT.nextPresentTime FT.lastPresentTime FT.timeStep FT.nudge_].
  now rewrite wait_until_nan.
Qed.

(** X24: [BeforeCPUSlice] reads the clock once, never sleeps, and changes
    two members only: [cpuSliceStartTime], which becomes the reading, and
    [nudge_], which is zero when entry 3 of the frame history holds no
    data. *)
Theorem BeforeCPUSlice_touches_two_members frameHistory ft w ft' w' :
  BeforeCPUSlice frameHistory ft w = Some (ft', w') ->
  exists now,
    clock w = now :: clock w' /\
    sleeps w' = sleeps w /\
    dbg_asserts w' = dbg_asserts w /\
    ft' = FT.set_nudge (FT.set_cpuSliceStartTime ft now) (FT.nudge_ ft') /\
    ((queuePresent (frameHistory 3%nat) =? 0.0)%float = true -> FT.nudge_ ft' = 0.0%float).
Proof.
  unfold BeforeCPUSlice, time_now_d.
  destruct (clock w) as [| now rest] eqn:Ec; [discriminate |].
  destruct (PrimFloat.eqb (queuePresent (frameHistory 3%nat)) 0.0) eqn:Eq.
  - intros [= <- <-]. exists now. repeat split.
  - repeat match goal with
           | |- context [if ?x then _ else _] => destruct x
           end;
      intros [= <- <-]; exists now; repeat split; discriminate.
Qed.
(** ** The theorems at concrete inputs *)

Lemma Add_Sub_value_witness :
  let cfg := sample_cfg true false in
  let inst := {| op := IROp.Sub; dest := 1%nat; src1 := 1%nat; src2 := 4%nat;
                 constant := 0 |} in
  let j := jit_of two_normalized in
  let j' := final (CompIR_Arith cfg inst j) in
  let c := [LW (X 4) CTXREG 4%nat; SUBW (X 1) (X 1) (X 4)] in
  (op inst = IROp.Add \/ op inst = IROp.Sub) /\
  CompIR_Arith cfg inst j = Ret tt j' /\
  code j' = code j ++ map Host c /\
  host_injective (gpr j') /\
  guestValue (gpr j') (exec c sample_machine) (dest inst)
  = u32 (guestValue (gpr j) sample_machine 1%nat - guestValue (gpr j) sample_machine 4%nat).
Proof.
  intros cfg inst j j' c.
  assert (Hinj : host_injective (gpr j')) by identity_cache.
  split; [right; reflexivity |]. split; [reflexivity |]. split; [reflexivity |].
  split; [exact Hinj |].
  exact (proj1 (@Add_Sub_value cfg inst j j' c sample_machine
                  (or_intror eq_refl) eq_refl eq_refl Hinj)).
Defined.

Lemma Neg_value_witness :
  let cfg := sample_cfg true false in
  let inst := {| op := IROp.Neg; dest := 3%nat; src1 := 2%nat; src2 := 0%nat;
                 constant := 0 |} in
  let j := jit_of two_normalized in
  let j' := final (CompIR_Arith cfg inst j) in
  let c := [SUBW (X 3) R_ZERO (X 2)] in
  op inst = IROp.Neg /\
  CompIR_Arith cfg inst j = Ret tt j' /\
  code j' = code j ++ map Host c /\
  guestValue (gpr j') (exec c sample_machine) (dest inst)
  = u32 (- guestValue (gpr j) sample_machine 2%nat).
Proof.
  intros cfg inst j j' c.
  split; [reflexivity |]. split; [reflexivity |]. split; [reflexivity |].
  exact (proj1 (@Neg_value cfg inst j j' c sample_machine eq_refl eq_refl eq_refl)).
Defined.

Lemma Logic_register_value_witness :
  let cfg := sample_cfg true false in
  let inst := {| op := IROp.Xor; dest := 2%nat; src1 := 1%nat; src2 := 2%nat;
                 constant := 0 |} in
  let j := jit_of two_normalized in
  let j' := final (CompIR_Logic cfg inst j) in
  let c := [XOR (X 2) (X 1) (X 2)] in
  (op inst = IROp.And \/ op inst = IROp.Or \/ op inst = IROp.Xor) /\
  CompIR_Logic cfg inst j = Ret tt j' /\
  code j' = code j ++ map Host c /\
  host_injective (gpr j') /\
  guestValue (gpr j') (exec c sample_machine) (dest inst)
  = Z.lxor (guestValue (gpr j) sample_machine 1%nat)
      (guestValue (gpr j) sample_machine 2%nat).
Proof.
  intros cfg inst j j' c.
  assert (Hinj : host_injective (gpr j')) by identity_cache.
  split; [right; right; reflexivity |]. split; [reflexivity |]. split; [reflexivity |].
  split; [exact Hinj |].
  exact (@Logic_register_value cfg inst j j' c sample_machine
           (or_intror (or_intror eq_refl)) eq_refl eq_refl Hinj).
Defined.

Lemma Logic_constant_value_witness :
  let cfg := sample_cfg true false in
  let inst := {| op := IROp.AndConst; dest := 3%nat; src1 := 1%nat; src2 := 0%nat;
                 constant := 0xFFFF0000 |} in
  let j := jit_of two_normalized in
  let j' := final (CompIR_Logic cfg inst j) in
  let c := [LI SCRATCH1 (-65536); AND (X 3) (X 1) SCRATCH1] in
  (op inst = IROp.AndConst \/ op inst = IROp.OrConst \/ op inst = IROp.XorConst) /\
  CompIR_Logic cfg inst j = Ret tt j' /\
  code j' = code j ++ map Host c /\
  guestValue (gpr j') (exec c sample_machine) (dest inst)
  = Z.land (guestValue (gpr j) sample_machine 1%nat) (u32 0xFFFF0000).
Proof.
  intros cfg inst j j' c.
  split; [left; reflexivity |]. split; [reflexivity |]. split; [reflexivity |].
  exact (@Logic_constant_value cfg inst j j' c sample_machine
           (or_introl eq_refl) eq_refl eq_refl).
Defined.

Lemma Not_value_witness :
  let cfg := sample_cfg true false in
  let inst := {| op := IROp.Not; dest := 1%nat; src1 := 1%nat; src2 := 0%nat;
                 constant := 0 |} in
  let j := jit_of two_normalized in
  let j' := final (CompIR_Logic cfg inst j) in
  let c := [NOT (X 1) (X 1)] in
  op inst = IROp.Not /\
  CompIR_Logic cfg inst j = Ret tt j' /\
  code j' = code j ++ map Host c /\
  guestValue (gpr j') (exec c sample_machine) (dest inst)
  = 2 ^ 32 - 1 - guestValue (gpr j) sample_machine 1%nat.
Proof.
  intros cfg inst j j' c.
  split; [reflexivity |]. split; [reflexivity |]. split; [reflexivity |].
  exact (@Not_value cfg inst j j' c sample_machine eq_refl eq_refl eq_refl).
Defined.

Lemma Mov_value_witness :
  let cfg := sample_cfg true false in
  let inst := {| op := IROp.Mov; dest := 3%nat; src1 := 2%nat; src2 := 0%nat;
                 constant := 0 |} in
  let j := jit_of two_normalized in
  let j' := final (CompIR_Assign cfg inst j) in
  let c := [MV (X 3) (X 2)] in
  op inst = IROp.Mov /\
  CompIR_Assign cfg inst j = Ret tt j' /\
  code j' = code j ++ map Host c /\
  guestValue (gpr j') (exec c sample_machine) (dest inst)
  = guestValue (gpr j) sample_machine 2%nat /\
  IsNormalized32 (gpr j') (dest inst) = true.
Proof.
  intros cfg inst j j' c.
  split; [reflexivity |]. split; [reflexivity |]. split; [reflexivity |].
  pose proof (@Mov_value cfg inst j j' c sample_machine eq_refl eq_refl eq_refl)
    as (Hv & Hf).
  split; [exact Hv | apply Hf; [discriminate | reflexivity]].
Defined.

Lemma Ext_value_witness :
  let cfg := {| MASKED_PSP_MEMORY := true; RiscV_Zbb := false; XLEN := 64;
                HandleAssert := fun _ => false; AllocateReg := fun _ v => v |} in
  let inst := {| op := IROp.Ext8to32; dest := 3%nat; src1 := 2%nat; src2 := 0%nat;
                 constant := 0 |} in
  let j := jit_of two_normalized in
  let j' := final (CompIR_Assign cfg inst j) in
  let c := [SLLI (X 3) (X 2) 24; SRAIW (X 3) (X 3) 24] in
  (op inst = IROp.Ext8to32 \/ op inst = IROp.Ext16to32) /\
  CompIR_Assign cfg inst j = Ret tt j' /\
  code j' = code j ++ map Host c /\
  guestValue (gpr j') (exec c sample_machine) (dest inst)
  = u32 (s8 (guestValue (gpr j) sample_machine 2%nat)).
Proof.
  intros cfg inst j j' c.
  split; [left; reflexivity |]. split; [reflexivity |]. split; [reflexivity |].
  exact (proj1 (@Ext_value cfg inst j j' c sample_machine
                  (or_introl eq_refl) eq_refl eq_refl)).
Defined.

Lemma BSwap32_value_witness :
  let cfg := sample_cfg true false in
  let inst := {| op := IROp.BSwap32; dest := 3%nat; src1 := 2%nat; src2 := 0%nat;
                 constant := 0 |} in
  let j := jit_of two_normalized in
  let j' := final (CompIR_Bits cfg inst j) in
  let c := [REV8 (X 3) (X 2); SRAI (X 3) (X 3) 32] in
  op inst = IROp.BSwap32 /\
  RiscV_Zbb cfg = true /\
  XLEN cfg = 64 /\
  CompIR_Bits cfg inst j = Ret tt j' /\
  code j' = code j ++ map Host c /\
  guestValue (gpr j') (exec c sample_machine) (dest inst)
  = bswap32_value (guestValue (gpr j) sample_machine 2%nat).
Proof.
  intros cfg inst j j' c.
  split; [reflexivity |]. split; [reflexivity |]. split; [reflexivity |].
  split; [reflexivity |]. split; [reflexivity |].
  exact (proj1 (@BSwap32_value cfg inst j j' c sample_machine
                  eq_refl eq_refl eq_refl eq_refl eq_refl)).
Defined.

Lemma emitted_code_is_encodable_witness :
  let cfg := sample_cfg true false in
  let inst := {| op := IROp.SubConst; dest := 2%nat; src1 := 3%nat; src2 := 0%nat;
                 constant := 5 |} in
  let j := jit_of empty_gpr in
  let j' := final (CompIR cfg Group.Arith inst j) in
  let c := [LW (X 3) CTXREG 3%nat; ADDIW (X 2) (X 3) (-5)] in
  32 <= XLEN cfg /\
  CompIR cfg Group.Arith inst j = Ret tt j' /\
  code j' = code j ++ map Host c /\
  Forall (well_encoded (XLEN cfg)) c.
Proof.
  intros cfg inst j j' c.
  assert (Hx : 32 <= XLEN cfg) by (cbn; lia).
  split; [exact Hx |]. split; [reflexivity |]. split; [reflexivity |].
  exact (@emitted_code_is_encodable cfg Group.Arith inst j j' c Hx eq_refl eq_refl).
Defined.

Lemma destination_left_dirty_witness :
  let cfg := sample_cfg true false in
  let inst := {| op := IROp.OrConst; dest := 2%nat; src1 := 1%nat; src2 := 0%nat;
                 constant := 7 |} in
  let j := jit_of two_normalized in
  let j' := final (CompIR cfg Group.Logic inst j) in
  let c := [ORI (X 2) (X 1) 7] in
  CompIR cfg Group.Logic inst j = Ret tt j' /\
  code j' = code j ++ map Host c /\
  IsDirty (gpr j') (dest inst) = true.
Proof.
  intros cfg inst j j' c.
  split; [reflexivity |]. split; [reflexivity |].
  exact (@destination_left_dirty cfg Group.Logic inst j j' c eq_refl eq_refl).
Defined.
Lemma vsync_kept_without_instant_change_witness :
  let g_Config := mkGlobalConfig true 0 0 in
  let core := mkCoreParameter true FPSLimit.CUSTOM1 0 in
  bVSync g_Config = true /\
  Draw.presentInstantModeChange (sample_caps false) = false /\
  ComputePresentMode sample_modes (sample_caps false) g_Config core = (1, 1).
Proof.
  intros g_Config core. split; [reflexivity |]. split; [reflexivity |].
  exact (@vsync_kept_without_instant_change sample_modes (sample_caps false)
           g_Config core eq_refl eq_refl).
Defined.

Lemma ComputePresentMode_at_normal_speed_witness :
  let g_Config := mkGlobalConfig false 0 0 in
  let core := mkCoreParameter false FPSLimit.NORMAL 0 in
  Draw.MAILBOX sample_modes <> Draw.FIFO sample_modes /\
  Draw.IMMEDIATE sample_modes <> Draw.FIFO sample_modes /\
  fastForward core = false /\
  fpsLimit core = FPSLimit.NORMAL /\
  ComputePresentMode sample_modes (sample_caps false) g_Config core = (2, 0).
Proof.
  intros g_Config core.
  assert (Hm : Draw.MAILBOX sample_modes <> Draw.FIFO sample_modes) by discriminate.
  assert (Hi : Draw.IMMEDIATE sample_modes <> Draw.FIFO sample_modes) by discriminate.
  split; [exact Hm |]. split; [exact Hi |]. split; [reflexivity |].
  split; [reflexivity |].
  exact (@ComputePresentMode_at_normal_speed sample_modes sample_timing
           (sample_caps false) g_Config core Hm Hi eq_refl eq_refl).
Defined.

Lemma clean_factor_keeps_vsync_witness :
  let g_Config := mkGlobalConfig true 30 45 in
  let core := mkCoreParameter false FPSLimit.CUSTOM1 0 in
  bVSync g_Config = true /\
  fastForward core = false /\
  fpsLimit core <> FPSLimit.NORMAL /\
  Draw.presentInstantModeChange (sample_caps true) = true /\
  Draw.shares (Draw.presentModesSupported (sample_caps true))
    (Z.lor (Draw.IMMEDIATE sample_modes) (Draw.MAILBOX sample_modes)) = true /\
  fst (ComputePresentMode sample_modes (sample_caps true) g_Config core) = 1.
Proof.
  intros g_Config core.
  assert (Hl : fpsLimit core <> FPSLimit.NORMAL) by discriminate.
  split; [reflexivity |]. split; [reflexivity |]. split; [exact Hl |].
  split; [reflexivity |]. split; [reflexivity |].
  exact (@clean_factor_keeps_vsync sample_modes (sample_caps true) g_Config core
           eq_refl eq_refl Hl eq_refl eq_refl).
Defined.

Lemma AfterCPUSlice_sets_the_time_step_witness :
  let w := sample_world [2.0%float] in
  clock w <> [] /\
  exists ft' w' checked,
    AfterCPUSlice sample_timing w = Some (ft', w') /\
    FT.setTimestepCalled_ ft' = true /\
    dbg_asserts w' = dbg_asserts w ++ checked /\
    Forall (fun b => b = true) checked /\
    sleeps w' = sleeps w /\
    (FT.setTimestepCalled_ sample_timing = true -> ft' = sample_timing /\ w' = w).
Proof.
  intros w.
  assert (Hc : clock w <> []) by discriminate.
  split; [exact Hc |].
  exact (@AfterCPUSlice_sets_the_time_step sample_timing w Hc).
Defined.

Lemma Reset_then_AfterCPUSlice_witness :
  let w := sample_world [2.0%float; 3.0%float] in
  let g_Config := mkGlobalConfig false 0 0 in
  clock w = [2.0%float; 3.0%float] /\
  exists ft' w',
    AfterCPUSlice (Reset sample_modes sample_timing (sample_caps false) g_Config) w
    = Some (ft', w') /\
    FT.usePresentTiming ft' = true /\
    FT.timeStep ft' = one_sixtieth_f /\
    FT.cpuTime ft' = (2.0 - FT.cpuSliceStartTime sample_timing)%float /\
    FT.presentMode ft'
    = FT.presentMode (Reset sample_modes sample_timing (sample_caps false) g_Config) /\
    clock w' = [3.0%float].
Proof.
  intros w g_Config. split; [reflexivity |].
  exact (@Reset_then_AfterCPUSlice sample_modes sample_timing (sample_caps false)
           g_Config w 2.0%float [3.0%float] eq_refl).
Defined.

Lemma cpuTime_is_the_time_between_readings_witness :
  let w := sample_world [2.0%float; 2.25%float; 3.0%float] in
  clock w = [2.0%float; 2.25%float; 3.0%float] /\
  exists ft1 w1 ft2 w2,
    BeforeCPUSlice empty_history sample_timing w = Some (ft1, w1) /\
    SetTimeStep 0.5%float ft1 w1 = Some (ft2, w2) /\
    FT.cpuTime ft2 = (2.25 - 2.0)%float /\
    clock w2 = [3.0%float] /\
    sleeps w2 = sleeps w.
Proof.
  intros w. split; [reflexivity |].
  exact (@cpuTime_is_the_time_between_readings empty_history 0.5%float sample_timing w
           2.0%float 2.25%float [3.0%float] eq_refl).
Defined.

Lemma BeforePresent_waits_for_the_deadline_witness :
  let w := sample_world [1.0%float; 1.25%float; 1.5%float; 2.0%float] in
  let ft' := FT.set_lastPresentTime (FT.set_nextPresentTime sample_timing 1.5%float)
               1.5%float in
  let w' := mkWorld [2.0%float] [0.5%float; 0.25%float] [] in
  FT.usePresentTiming sample_timing = true /\
  BeforePresent sample_timing w = Some (ft', w') /\
  FT.lastPresentTime ft' = (1.0 + 0.5 + 0.0)%float.
Proof.
  intros w ft' w'. split; [reflexivity |]. split; [reflexivity |].
  exact (proj1 (proj2 (@BeforePresent_waits_for_the_deadline sample_timing w ft' w'
                         eq_refl eq_refl))).
Defined.

Lemma BeforePresent_returns_witness :
  let w := sample_world [1.0%float; 1.5%float] in
  (FT.usePresentTiming sample_timing = true ->
   Exists (fun r => (FT.lastPresentTime sample_timing + FT.timeStep sample_timing
                     + FT.nudge_ sample_timing - r <=? 0.0)%float = true) (clock w)) /\
  exists ft' w',
    BeforePresent sample_timing w = Some (ft', w') /\
    FT.timeStep ft' = FT.timeStep sample_timing /\
    dbg_asserts w' = dbg_asserts w /\
    (FT.usePresentTiming sample_timing = false -> ft' = sample_timing /\ w' = w).
Proof.
  intros w.
  assert (H : FT.usePresentTiming sample_timing = true ->
              Exists (fun r => (FT.lastPresentTime sample_timing
                                + FT.timeStep sample_timing
                                + FT.nudge_ sample_timing - r <=? 0.0)%float = true)
                (clock w))
    by (intros _; apply Exists_cons_tl, Exists_cons_hd; reflexivity).
  split; [exact H |].
  exact (@BeforePresent_returns sample_timing w H).
Defined.

Lemma BeforePresent_spins_on_NaN_witness :
  let ft := FT.set_nudge sample_timing PrimFloat.nan in
  let w := sample_world [1.0%float; 2.0%float; 3.0%float] in
  FT.usePresentTiming ft = true /\
  PrimFloat.is_nan (FT.lastPresentTime ft + FT.timeStep ft + FT.nudge_ ft)%float = true /\
  BeforePresent ft w = None.
Proof.
  intros ft w. split; [reflexivity |]. split; [reflexivity |].
  exact (@BeforePresent_spins_on_NaN ft w eq_refl eq_refl).
Defined.

Lemma BeforeCPUSlice_touches_two_members_witness :
  let w := sample_world [2.0%float; 3.0%float] in
  let ft' := FT.set_nudge (FT.set_cpuSliceStartTime sample_timing 2.0%float) 0.0%float in
  let w' := sample_world [3.0%float] in
  BeforeCPUSlice empty_history sample_timing w = Some (ft', w') /\
  exists now,
    clock w = now :: clock w' /\
    sleeps w' = sleeps w /\
    dbg_asserts w' = dbg_asserts w /\
    ft' = FT.set_nudge (FT.set_cpuSliceStartTime sample_timing now) (FT.nudge_ ft') /\
    ((queuePresent (empty_history 3%nat) =? 0.0)%float = true ->
     FT.nudge_ ft' = 0.0%float).
Proof.
  intros w ft' w'. split; [reflexivity |].
  exact (@BeforeCPUSlice_touches_two_members empty_history sample_timing w ft' w' eq_refl).
Defined.

(** ** Every declared opcode is lowered *)

Lemma host_tail0 (l : list Emitted) i : l ++ [Host i] = l ++ map Host [] ++ [Host i].
Proof. reflexivity. Qed.

Lemma host_tail1 l c i : (l ++ map Host c) ++ [Host i] = l ++ map Host c ++ [Host i].
Proof. now rewrite <- app_assoc. Qed.

Lemma host_tail2 l c a i :
  ((l ++ map Host c) ++ [Host a]) ++ [Host i] = l ++ map Host (c ++ [a]) ++ [Host i].
Proof. now rewrite map_app, <- !app_assoc. Qed.

Lemma host_tail3 l c a b i :
  (((l ++ map Host c) ++ [Host a]) ++ [Host b]) ++ [Host i]
  = l ++ map Host (c ++ [a; b]) ++ [Host i].
Proof. now rewrite map_app, <- !app_assoc. Qed.

Lemma R_mapped_dest alloc g d s t type :
  R (fst (MapDirtyInIn alloc g d s t type)) d <> INVALID_REG.
Proof.
  destruct (MapDirtyInIn_dest alloc g d s t type) as [n E].
  unfold R. rewrite E. discriminate.
Qed.

Lemma RPtr_mapped g d : IsMappedAsPointer g d = true -> RPtr g d <> INVALID_REG.
Proof.
  unfold IsMappedAsPointer, RPtr. destruct (hostReg (g d)); [| discriminate].
  intros ->. discriminate.
Qed.

Ltac handled_case E :=
  unfold CompIR_Arith, CompIR_Logic, CompIR_Assign, CompIR_Bits, CompIR_Shift,
    CompIR_Compare, CompIR_CondAssign, CompIR_HiLo, CompIR_Mult, CompIR_Div,
    RewriteSubConst;
  repeat first
    [ rewrite E
    | progress cbn [is_SubConst andb op dest src1 src2 constant]
    | match goal with
      | |- context [if ?c then _ else _] => destruct c eqn:?
      end
    | progress run_jit ];
  unfold CompIR_Generic; cbn [final crashed code reports gpr];
  (split; [reflexivity |]); (split; [reflexivity |]);
  first
    [ left; reflexivity
    | right; eexists _, _;
      (split; [first [apply host_tail3 | apply host_tail2 | apply host_tail1
                     | apply host_tail0] |]);
      cbn [written]; rewrite ?R_MarkDirty, ?RPtr_MarkPtrDirty, ?MapDirtyIn_as_InIn;
      (split;
       [ first
           [ apply R_mapped_dest
           | apply RPtr_mapped;
             match goal with
             | H : _ && _ && _ = true |- _ =>
                 apply andb_prop in H as [H _]; apply andb_prop in H as [H H'];
                 apply Nat.eqb_eq in H'; cbn [dest src1] in *; now rewrite H'
             end ]
       | first [left; reflexivity | right; reflexivity] ]) ].

(** Every case label leads to a lowering: the routine returns without a
    report, and what it appends is the call of the generic fallback or
    host code whose last instruction writes the host register of [dest]. *)
Lemma declared_case_handled cfg g inst j :
  declared g (op inst) = true ->
  crashed (CompIR cfg g inst j) = false /\
  reports (final (CompIR cfg g inst j)) = reports j /\
  (code (final (CompIR cfg g inst j)) = code j ++ [CallGeneric inst]
   \/ exists c i,
        code (final (CompIR cfg g inst j)) = code j ++ map Host c ++ [Host i] /\
        written i <> INVALID_REG /\
        (written i = R (gpr (final (CompIR cfg g inst j))) (dest inst)
         \/ written i = RPtr (gpr (final (CompIR cfg g inst j))) (dest inst))).
Proof.
  intros H.
  destruct g; cbn [CompIR]; destruct (op inst) eqn:E;
    try discriminate H; handled_case E.
Qed.

(** C6: every opcode of the deferred set (bit reversal, byte-swap-16,
    count-leading-zeros, the shifts, the comparisons, conditional move /
    min / max, the HI/LO transfers, multiply, multiply-accumulate and
    divide) has a case label in its routine, and lowering it is exactly
    the call of the generic fallback: the routine returns, the call is
    appended, nothing is reported.  And no opcode with a case label in a
    routine falls through unhandled: the routine returns with no report,
    and what it has appended is either the call of the generic fallback
    for the instruction, or host code that ends in an instruction writing
    the host register the cache holds [dest] in. *)
Theorem deferred_opcodes_use_fallback cfg inst j :
  (forall g, deferred (op inst) = Some g ->
             declared g (op inst) = true /\
             CompIR cfg g inst j = CompIR_Generic inst j /\
             crashed (CompIR cfg g inst j) = false /\
             code (final (CompIR cfg g inst j)) = code j ++ [CallGeneric inst] /\
             reports (final (CompIR cfg g inst j)) = reports j) /\
  (forall g, declared g (op inst) = true ->
             crashed (CompIR cfg g inst j) = false /\
             reports (final (CompIR cfg g inst j)) = reports j /\
             (code (final (CompIR cfg g inst j)) = code j ++ [CallGeneric inst]
              \/ exists c i,
                   code (final (CompIR cfg g inst j))
                   = code j ++ map Host c ++ [Host i] /\
                   written i <> INVALID_REG /\
                   (written i = R (gpr (final (CompIR cfg g inst j))) (dest inst)
                    \/ written i
                       = RPtr (gpr (final (CompIR cfg g inst j))) (dest inst)))).
Proof.
  split; [| intros g; apply declared_case_handled].
  intros g Hg.
  assert (E : CompIR cfg g inst j = CompIR_Generic inst j).
  { destruct (op inst) eqn:E; try discriminate Hg;
      injection Hg as <-; cbn [CompIR];
      unfold CompIR_Bits, CompIR_Shift, CompIR_Compare, CompIR_CondAssign,
        CompIR_HiLo, CompIR_Mult, CompIR_Div;
      rewrite E; reflexivity. }
  rewrite E. repeat split.
  destruct (op inst); try discriminate Hg; injection Hg as <-; reflexivity.
Qed.

Lemma deferred_opcodes_use_fallback_witness :
  let cfg := sample_cfg true false in
  let j := jit_of empty_gpr in
  let inst := {| op := IROp.ShlImm; dest := 1%nat; src1 := 2%nat; src2 := 4%nat;
                 constant := 0 |} in
  let fast := {| op := IROp.Add; dest := 3%nat; src1 := 1%nat; src2 := 2%nat;
                 constant := 0 |} in
  (deferred (op inst) = Some Group.Shift /\
   declared Group.Shift (op inst) = true /\
   CompIR cfg Group.Shift inst j = CompIR_Generic inst j /\
   crashed (CompIR cfg Group.Shift inst j) = false /\
   code (final (CompIR cfg Group.Shift inst j)) = code j ++ [CallGeneric inst] /\
   reports (final (CompIR cfg Group.Shift inst j)) = reports j) /\
  (declared Group.Arith (op fast) = true /\
   crashed (CompIR cfg Group.Arith fast j) = false /\
   reports (final (CompIR cfg Group.Arith fast j)) = reports j /\
   (code (final (CompIR cfg Group.Arith fast j)) = code j ++ [CallGeneric fast]
    \/ exists c i,
         code (final (CompIR cfg Group.Arith fast j))
         = code j ++ map Host c ++ [Host i] /\
         written i <> INVALID_REG /\
         (written i = R (gpr (final (CompIR cfg Group.Arith fast j))) (dest fast)
          \/ written i = RPtr (gpr (final (CompIR cfg Group.Arith fast j))) (dest fast)))).
Proof.
  intros cfg j inst fast. split.
  - split; [reflexivity |].
    exact (proj1 (deferred_opcodes_use_fallback cfg inst j) Group.Shift eq_refl).
  - split; [reflexivity |].
    exact (proj2 (deferred_opcodes_use_fallback cfg fast j) Group.Arith eq_refl).
Defined.
